(** * Gaea proxy: session engine, hot-reload manager and user matrix

    A shallow embedding of the session/manager code of the proxy
    ([proxy/server]: session.go, manager.go, executor_handle.go) and the
    properties of its specification that concern them.

    Conventions of the embedding:
    - Go's fixed-width unsigned integers are [Z] with the wrap-around written
      out ([uint32_add], [not16]).
    - Go maps are [gmap]s.  A [range] loop over a map visits the entries in an
      unspecified order: the order is the parameter [range_of], constrained
      only to be a permutation of the entries.
    - Pooled backend connections are opaque identities; the method calls the
      session code issues on them are recorded, oldest first, in the
      [backendCalls] journal of the executor.
    - Functions of packages that are not part of these sources (the [mysql]
      constants and password checks, [NewNamespace], the executor helpers
      declared in executor.go, the socket) are parameters, gathered in the
      classes below. *)

From Stdlib Require Import ZArith Lia.
From Stdlib.Strings Require Import Ascii String Byte.
From stdpp Require Import base gmap list strings.

(** ** Machine integers *)

Definition uint32_modulus : Z := 2 ^ 32.
Definition uint32_max : Z := uint32_modulus - 1.

(** [a + b] on [uint32]. *)
Definition uint32_add (a b : Z) : Z := ((a + b) `mod` uint32_modulus)%Z.

(** [^x] on [uint16]: every one of the sixteen bits is flipped. *)
Definition not16 (x : Z) : Z := Z.lxor x (Z.ones 16).

(** ** Iteration order of [range] over a map *)

Class GoRange := {
  range_of : ∀ {V : Type}, gmap string V → list (string * V);
  range_of_perm : ∀ {V : Type} (m : gmap string V), range_of m ≡ₚ map_to_list m
}.

(** ** Constants of the [mysql] package *)

Class MysqlConst := {
  ServerStatusInTrans : Z;
  ServerStatusAutocommit : Z;
  ServerMoreResultsExists : Z;
  ClientMultiStatements : Z;
  ComQuit : Byte.byte;
  CachingSHA2Password : string
}.

(** The two transaction status flags are distinct [uint16] masks. *)
Record StatusFlagsOk `{MysqlConst} : Prop := {
  intrans_u16 : (0 ≤ ServerStatusInTrans < 2 ^ 16)%Z;
  autocommit_u16 : (0 ≤ ServerStatusAutocommit < 2 ^ 16)%Z;
  flags_disjoint : Z.land ServerStatusAutocommit ServerStatusInTrans = 0%Z
}.

(** The values of the MySQL client/server protocol. *)
Definition mysql_protocol : MysqlConst := {|
  ServerStatusInTrans := 1;
  ServerStatusAutocommit := 2;
  ServerMoreResultsExists := 8;
  ClientMultiStatements := 65536;
  ComQuit := Byte.x01;
  CachingSHA2Password := "caching_sha2_password"
|}.

(** ** Backend connections *)

(** A [backend.PooledConnect] is known by its identity only. *)
Definition PooledConnect : Type := N.

Inductive ConnCall : Type :=
| CallClose (pc : PooledConnect)
| CallRecycle (pc : PooledConnect)
| CallSetAutoCommit (pc : PooledConnect) (v : Z).

Global Instance ConnCall_eq_dec : EqDecision ConnCall.
Proof. solve_decision. Defined.

(** Outcome of the backend round trips the session code waits for. *)
Class Backend := {
  (** [pc.SetAutoCommit(v)] returned an error *)
  setAutoCommitFails : PooledConnect → Z → bool
}.

(** ** Errors *)

Inductive Error : Type :=
| ErrAccessDenied
| ErrConCount
| ErrInternal
| ErrTxNsChanged
| ErrClientQpsLimitedMsg
| ErrNamespaceNotPrepared
| ErrSetAutocommit
| ErrTransport
| ErrOther (msg : string)
(** [mysql.NewSessionCloseRespErrorWithErr e] *)
| SessionCloseRespError (e : Error)
(** a [*mysql.SessionCloseNoRespError] *)
| SessionCloseNoRespError (e : Error).

Global Instance Error_eq_dec : EqDecision Error.
Proof. solve_decision. Defined.

(** ** SessionExecutor *)

Record SessionExecutor : Type := {
  se_namespace : string;
  se_user : string;
  se_db : string;
  se_charset : string;
  se_collation : Z;
  status : Z;
  txConns : gmap string PooledConnect;
  ksConns : gmap string PooledConnect;
  nsChangeIndexOld : Z;
  backendCalls : list ConnCall
}.

Definition set_status (st : Z) (se : SessionExecutor) : SessionExecutor :=
  {| se_namespace := se_namespace se; se_user := se_user se; se_db := se_db se;
     se_charset := se_charset se; se_collation := se_collation se;
     status := st; txConns := txConns se; ksConns := ksConns se;
     nsChangeIndexOld := nsChangeIndexOld se; backendCalls := backendCalls se |}.

Definition set_txConns (m : gmap string PooledConnect) (se : SessionExecutor) : SessionExecutor :=
  {| se_namespace := se_namespace se; se_user := se_user se; se_db := se_db se;
     se_charset := se_charset se; se_collation := se_collation se;
     status := status se; txConns := m; ksConns := ksConns se;
     nsChangeIndexOld := nsChangeIndexOld se; backendCalls := backendCalls se |}.

Definition set_ksConns (m : gmap string PooledConnect) (se : SessionExecutor) : SessionExecutor :=
  {| se_namespace := se_namespace se; se_user := se_user se; se_db := se_db se;
     se_charset := se_charset se; se_collation := se_collation se;
     status := status se; txConns := txConns se; ksConns := m;
     nsChangeIndexOld := nsChangeIndexOld se; backendCalls := backendCalls se |}.

Definition set_backendCalls (l : list ConnCall) (se : SessionExecutor) : SessionExecutor :=
  {| se_namespace := se_namespace se; se_user := se_user se; se_db := se_db se;
     se_charset := se_charset se; se_collation := se_collation se;
     status := status se; txConns := txConns se; ksConns := ksConns se;
     nsChangeIndexOld := nsChangeIndexOld se; backendCalls := l |}.

Definition issue (calls : list ConnCall) (se : SessionExecutor) : SessionExecutor :=
  set_backendCalls (backendCalls se ++ calls) se.

(** *** executor_handle.go: handleSetAutoCommit *)

(** The body of [for _, pc := range se.txConns]: the calls issued and the
    value of [err] after the visited entries. *)
Fixpoint autocommit_loop `{Backend} (conns : list (string * PooledConnect))
    (err : option Error) : list ConnCall * option Error :=
  match conns with
  | [] => ([], err)
  | (_, pc) :: rest =>
      let err' := if setAutoCommitFails pc 1 then Some ErrSetAutocommit else err in
      let '(calls, e) := autocommit_loop rest err' in
      (CallSetAutoCommit pc 1 :: CallRecycle pc :: calls, e)
  end.

Definition handleSetAutoCommit `{MysqlConst, GoRange, Backend}
    (autocommit : bool) (se : SessionExecutor) : SessionExecutor * option Error :=
  if autocommit then
    let st1 := Z.lor (status se) ServerStatusAutocommit in
    let st2 := if (Z.land st1 ServerStatusInTrans >? 0)%Z
               then Z.land st1 (not16 ServerStatusInTrans) else st1 in
    let '(calls, err) := autocommit_loop (range_of (txConns se)) None in
    (set_txConns ∅ (issue calls (set_status st2 se)), err)
  else
    (set_status (Z.land (status se) (not16 ServerStatusAutocommit)) se, None).

(** ** manager.go: UserManager *)

Record UserManager : Type := {
  users : gmap string (list string);
  userNamespaces : gmap string string
}.

Definition NewUserManager : UserManager :=
  {| users := ∅; userNamespaces := ∅ |}.

Definition getUserKey (username password : string) : string :=
  username +:+ ":" +:+ password.

(** [strings.Split(s, sep)] for a separator of one byte. *)
Fixpoint strings_Split (sep : ascii) (s : string) : list string :=
  match s with
  | EmptyString => [EmptyString]
  | String ch rest =>
      if Ascii.eqb ch sep then EmptyString :: strings_Split sep rest
      else match strings_Split sep rest with
           | [] => [String ch EmptyString]
           | w :: ws => String ch w :: ws
           end
  end.

(** Whether a byte occurs in a string. *)
Fixpoint contains_byte (ch : ascii) (s : string) : bool :=
  match s with
  | EmptyString => false
  | String ch' rest => Ascii.eqb ch' ch || contains_byte ch rest
  end.

(** [strs[0], strs[1]] of the split key; [None] is the index-out-of-range
    panic of a key without separator. *)
Definition getUserAndPasswordFromKey (key : string) : option (string * string) :=
  match strings_Split ":"%char key with
  | username :: password :: _ => Some (username, password)
  | _ => None
  end.

(** The inner loop of [ClearNamespaceUsers].  [arr] is the backing array seen
    through the slice [u.users[username]], whose header does not change during
    the loop; [i] is the loop index and [k] the number of iterations left.
    [append(a[:i], a[i+1:]...)] has room in the array of [a], so it moves the
    tail one place to the left in place, and leaves the last cell as it was;
    [s] is the slice it returns ([nil] is the empty list). *)
Fixpoint remove_password_loop (password : string) (k i : nat)
    (arr s : list string) : list string :=
  match k with
  | O => s
  | S k' =>
      match arr !! i with
      | Some p =>
          if String.eqb p password then
            let s' := take i arr ++ drop (S i) arr in
            remove_password_loop password k' (S i)
              (s' ++ drop (length arr - 1) arr) s'
          else remove_password_loop password k' (S i) arr s
      | None => s
      end
  end.

Definition remove_password (password : string) (pws : list string) : list string :=
  remove_password_loop password (length pws) 0 pws [].

(** The body of [for key, ns := range u.userNamespaces]. *)
Definition clear_entry (namespace : string) (u : UserManager)
    (entry : string * string) : option UserManager :=
  let '(key, ns) := entry in
  if String.eqb ns namespace then
    match getUserAndPasswordFromKey key with
    | Some (username, password) =>
        Some {| users := <[username := remove_password password
                                         (default [] (users u !! username))]> (users u);
                userNamespaces := delete key (userNamespaces u) |}
    | None => None
    end
  else Some u.

Fixpoint clear_entries (namespace : string) (entries : list (string * string))
    (u : UserManager) : option UserManager :=
  match entries with
  | [] => Some u
  | e :: rest =>
      match clear_entry namespace u e with
      | Some u' => clear_entries namespace rest u'
      | None => None
      end
  end.

(** [ClearNamespaceUsers]; the loop deletes only the entry it stands on, so it
    visits exactly the entries the map had on entry.  [None] is a panic. *)
Definition ClearNamespaceUsers `{GoRange} (namespace : string) (u : UserManager)
    : option UserManager :=
  clear_entries namespace (range_of (userNamespaces u)) u.

(** The entries of [userNamespaces] still to visit that belong to the cleared
    namespace are keys of a user name and a password without [:], and the user
    still has the password. *)
Definition entries_ok (cleared : string) (entries : list (string * string))
    (u : UserManager) : Prop :=
  ∀ key, (key, cleared) ∈ entries →
    ∃ usr p, key = getUserKey usr p
      ∧ contains_byte ":" usr = false ∧ contains_byte ":" p = false
      ∧ p ∈ default [] (users u !! usr).

Definition UserManager_CheckUser (u : UserManager) (user : string) : bool :=
  bool_decide (is_Some (users u !! user)).

Definition UserManager_GetNamespaceByUser (u : UserManager) (userName password : string) : string :=
  default "" (userNamespaces u !! getUserKey userName password).

(** *** Password checks *)

Definition bytes : Type := list Byte.byte.

Global Instance byte_eq_dec : EqDecision Byte.byte.
Proof.
  intros x y. destruct (Byte.eqb x y) eqn:E.
  - left. by apply Byte.byte_dec_bl.
  - right. intros ->. by rewrite (Byte.byte_dec_lb eq_refl) in E.
Defined.

(** The hash functions of the [mysql] package, and its collation tables. *)
Class MysqlAuth := {
  CalcPassword : bytes → bytes → bytes;
  mysql_CheckHashPassword : bytes → bytes → bytes → bool;
  CalcCachingSha2Password : bytes → string → bytes;
  Collations : Z → option string;
  CollationNameToCharset : string → option string
}.

(** [for _, password := range passwords]: first password that [accepts]. *)
Fixpoint first_accepted (accepts : string → bool) (passwords : list string) : bool * string :=
  match passwords with
  | [] => (false, "")
  | password :: rest =>
      if accepts password then (true, password) else first_accepted accepts rest
  end.

Definition UserManager_CheckPassword `{MysqlAuth} (u : UserManager) (user : string)
    (salt auth : bytes) : bool * string :=
  first_accepted
    (λ password, bool_decide (auth = CalcPassword salt (list_byte_of_string password)))
    (default [] (users u !! user)).

Definition UserManager_CheckHashPassword `{MysqlAuth} (u : UserManager) (user : string)
    (salt auth : bytes) : bool * string :=
  first_accepted
    (λ password,
       String.prefix "*" password && (String.length password =? 41)%nat
       && mysql_CheckHashPassword auth salt (drop 1 (list_byte_of_string password)))
    (default [] (users u !! user)).

Definition UserManager_CheckSha2Password `{MysqlAuth} (u : UserManager) (user : string)
    (salt auth : bytes) : bool * string :=
  first_accepted
    (λ password, bool_decide (auth = CalcCachingSha2Password salt password))
    (default [] (users u !! user)).

(** ** Panics *)

(** A Go function either returns or panics (nil dereference, index out of
    range). *)
Inductive Outcome (A : Type) : Type :=
| Returns (a : A)
| Panics.
Arguments Returns {A} a.
Arguments Panics {A}.

(** ** manager.go: namespaces *)

(** The fields of [Namespace] that the session and manager code read. *)
Record Namespace : Type := {
  name : string;
  namespaceChangeIndex : Z;
  maxClientConnections : Z;
  clientQPSLimit : Z;
  supportLimitTx : bool;
  supportMultiQuery : bool
}.

Definition set_namespaceChangeIndex (idx : Z) (ns : Namespace) : Namespace :=
  {| name := name ns; namespaceChangeIndex := idx;
     maxClientConnections := maxClientConnections ns;
     clientQPSLimit := clientQPSLimit ns; supportLimitTx := supportLimitTx ns;
     supportMultiQuery := supportMultiQuery ns |}.

(** [models.User] and [models.Namespace], the configuration of a namespace. *)
Record models_User : Type := { UserName : string; Password : string }.
Record models_Namespace : Type := { Name : string; Users : list models_User }.

(** namespace.go is not part of these sources. *)
Class NamespaceOps := {
  (** [NewNamespace(config, proxyDatacenter)] *)
  NewNamespace : models_Namespace → Error + Namespace;
  (** [ns.IsClientIPAllowed(ip)], on the remote address of the client *)
  IsClientIPAllowed : Namespace → string → bool;
  (** [ns.GetMaxResultSize()] *)
  GetMaxResultSize : Namespace → Z
}.

Record NamespaceManager : Type := { namespaces : gmap string Namespace }.

Definition NewNamespaceManager : NamespaceManager := {| namespaces := ∅ |}.

Definition ShallowCopyNamespaceManager (nsMgr : NamespaceManager) : NamespaceManager :=
  {| namespaces := namespaces NewNamespaceManager ∪ namespaces nsMgr |}.

Definition RebuildNamespace `{NamespaceOps} (config : models_Namespace)
    (n : NamespaceManager) : NamespaceManager * option Error :=
  match NewNamespace config with
  | inl err => (n, Some err)
  | inr namespace => ({| namespaces := <[Name config := namespace]> (namespaces n) |}, None)
  end.

Definition NamespaceManager_DeleteNamespace (ns : string) (n : NamespaceManager) : NamespaceManager :=
  {| namespaces := delete ns (namespaces n) |}.

Definition NamespaceManager_GetNamespace (n : NamespaceManager) (namespace : string)
    : option Namespace :=
  namespaces n !! namespace.

(** *** UserManager, continued *)

Definition CloneUserManager (user : UserManager) : UserManager :=
  {| users := (λ v, take (length v) v) <$> users user;
     userNamespaces := userNamespaces NewUserManager ∪ userNamespaces user |}.

Fixpoint addUsers (nsName : string) (us : list models_User) (u : UserManager) : UserManager :=
  match us with
  | [] => u
  | user :: rest =>
      addUsers nsName rest
        {| userNamespaces := <[getUserKey (UserName user) (Password user) := nsName]> (userNamespaces u);
           users := <[UserName user := default [] (users u !! UserName user) ++ [Password user]]> (users u) |}
  end.

Definition addNamespaceUsers (namespace : models_Namespace) (u : UserManager) : UserManager :=
  addUsers (Name namespace) (Users namespace) u.

Definition RebuildNamespaceUsers `{GoRange} (namespace : models_Namespace) (u : UserManager)
    : option UserManager :=
  addNamespaceUsers namespace <$> ClearNamespaceUsers (Name namespace) u.

(** ** manager.go: Manager *)

(** The statistics the session code reads: the per-namespace counters of
    client connections, and the namespaces that have a percentile record. *)
Record StatisticManager : Type := {
  clientConnecions : gmap string Z;
  SQLResponsePercentile : gset string
}.

(** Modelled from the spec: [util.BoolIndex] is not part of these sources.
    The registry has two slots and an atomic boolean that selects the readable
    one; [Get] gives the active slot, the other slot and the boolean. *)
Definition BoolIndex_Get (index : bool) : bool * bool * bool :=
  (index, negb index, index).

Record Manager : Type := {
  reloadPrepared : bool;
  switchIndex : bool;
  mgr_namespaces : NamespaceManager * NamespaceManager;
  mgr_users : UserManager * UserManager;
  statistics : StatisticManager;
  (** namespaces handed to [go ns.Close(true)], oldest first *)
  delayedClose : list Namespace
}.

(** [a[i]] and [a[i] = x] on an array of two cells. *)
Definition slot {A : Type} (i : bool) (a : A * A) : A := if i then a.2 else a.1.
Definition set_slot {A : Type} (i : bool) (x : A) (a : A * A) : A * A :=
  if i then (a.1, x) else (x, a.2).

Definition Manager_GetNamespace (m : Manager) (nm : string) : option Namespace :=
  let '(current, _, _) := BoolIndex_Get (switchIndex m) in
  NamespaceManager_GetNamespace (slot current (mgr_namespaces m)) nm.

Definition Manager_CheckUser (m : Manager) (user : string) : bool :=
  let '(current, _, _) := BoolIndex_Get (switchIndex m) in
  UserManager_CheckUser (slot current (mgr_users m)) user.

Definition Manager_CheckPassword `{MysqlAuth} (m : Manager) (user : string) (salt auth : bytes) :=
  let '(current, _, _) := BoolIndex_Get (switchIndex m) in
  UserManager_CheckPassword (slot current (mgr_users m)) user salt auth.

Definition Manager_CheckHashPassword `{MysqlAuth} (m : Manager) (user : string) (salt auth : bytes) :=
  let '(current, _, _) := BoolIndex_Get (switchIndex m) in
  UserManager_CheckHashPassword (slot current (mgr_users m)) user salt auth.

Definition Manager_CheckSha2Password `{MysqlAuth} (m : Manager) (user : string) (salt auth : bytes) :=
  let '(current, _, _) := BoolIndex_Get (switchIndex m) in
  UserManager_CheckSha2Password (slot current (mgr_users m)) user salt auth.

Definition Manager_GetNamespaceByUser (m : Manager) (userName password : string) : string :=
  let '(current, _, _) := BoolIndex_Get (switchIndex m) in
  UserManager_GetNamespaceByUser (slot current (mgr_users m)) userName password.

Definition ReloadNamespacePrepare `{NamespaceOps, GoRange} (namespaceConfig : models_Namespace)
    (m : Manager) : Outcome (Manager * option Error) :=
  let nm := Name namespaceConfig in
  let '(current, other, _) := BoolIndex_Get (switchIndex m) in
  let currentNamespaceManager := slot current (mgr_namespaces m) in
  let nsChangeIndexOld :=
    match NamespaceManager_GetNamespace currentNamespaceManager nm with
    | Some nsOld => namespaceChangeIndex nsOld
    | None => 0%Z
    end in
  match RebuildNamespace namespaceConfig (ShallowCopyNamespaceManager currentNamespaceManager) with
  | (_, Some err) => Returns (m, Some err)
  | (rebuilt, None) =>
      let newNamespaceManager :=
        {| namespaces := alter (set_namespaceChangeIndex (uint32_add nsChangeIndexOld 1)) nm
                               (namespaces rebuilt) |} in
      match RebuildNamespaceUsers namespaceConfig
              (CloneUserManager (slot current (mgr_users m))) with
      | None => Panics
      | Some newUserManager =>
          Returns
            ({| reloadPrepared := true;
                switchIndex := switchIndex m;
                mgr_namespaces := set_slot other newNamespaceManager (mgr_namespaces m);
                mgr_users := set_slot other newUserManager (mgr_users m);
                statistics :=
                  {| clientConnecions := clientConnecions (statistics m);
                     SQLResponsePercentile := {[nm]} ∪ SQLResponsePercentile (statistics m) |};
                delayedClose := delayedClose m |}, None)
      end
  end.

Definition ReloadNamespaceCommit (nm : string) (m : Manager) : Manager * option Error :=
  if negb (reloadPrepared m) then (m, Some ErrNamespaceNotPrepared)
  else
    let '(current, _, index) := BoolIndex_Get (switchIndex m) in
    let spawned :=
      match NamespaceManager_GetNamespace (slot current (mgr_namespaces m)) nm with
      | Some currentNamespace => [currentNamespace]
      | None => []
      end in
    ({| reloadPrepared := false;
        switchIndex := negb index;
        mgr_namespaces := mgr_namespaces m;
        mgr_users := mgr_users m;
        statistics := statistics m;
        delayedClose := delayedClose m ++ spawned |}, None).

Definition DeleteNamespace `{GoRange} (nm : string) (m : Manager) : Outcome (Manager * option Error) :=
  let '(current, other, index) := BoolIndex_Get (switchIndex m) in
  match NamespaceManager_GetNamespace (slot current (mgr_namespaces m)) nm with
  | None => Returns (m, None)
  | Some currentNamespace =>
      let newNamespaceManager :=
        NamespaceManager_DeleteNamespace nm
          (ShallowCopyNamespaceManager (slot current (mgr_namespaces m))) in
      match ClearNamespaceUsers nm (CloneUserManager (slot current (mgr_users m))) with
      | None => Panics
      | Some newUserManager =>
          Returns
            ({| reloadPrepared := reloadPrepared m;
                switchIndex := negb index;
                mgr_namespaces := set_slot other newNamespaceManager (mgr_namespaces m);
                mgr_users := set_slot other newUserManager (mgr_users m);
                statistics := statistics m;
                delayedClose := delayedClose m ++ [currentNamespace] |}, None)
      end
  end.

(** A reload as the admin surface drives it: prepare, then commit. *)
Definition reload `{NamespaceOps, GoRange} (namespaceConfig : models_Namespace) (m : Manager)
    : Outcome (Manager * option Error) :=
  match ReloadNamespacePrepare namespaceConfig m with
  | Returns (m1, None) => Returns (ReloadNamespaceCommit (Name namespaceConfig) m1)
  | other => other
  end.

(** ** The client connection and the response envelope *)

(** [mysql.Result], [Stmt] and [mysql.Field] values are known by identity. *)
Definition Result : Type := N.
Definition Stmt : Type := N.
Definition Field : Type := N.

(** What the writers of [ClientConn] put on the wire. *)
Inductive Packet : Type :=
| PktInitialHandshakeV10
| PktOK (st : Z)
| PktEOF (st : Z)
| PktError (e : Error)
| PktResult (st : Z) (rs : Result) (isBinary : bool)
| PktResultStream (st : Z) (rs : Result) (pc : PooledConnect) (maxResultSize : Z) (isBinary : bool)
| PktPrepare (st : Z) (stmt : Stmt)
| PktFieldList (st : Z) (fs : list Field).

Global Instance Packet_eq_dec : EqDecision Packet.
Proof. solve_decision. Defined.

Record ClientConn : Type := {
  capability : Z;
  remoteAddr : string;
  (** packets written to the client so far, oldest first *)
  written : list Packet;
  (** number of times the socket was closed *)
  closeCalls : nat
}.

(** The network: whether writing a packet fails, given what was written
    before it; and whether a result set fails to re-encode as binary. *)
Class Socket := {
  writeFails : list Packet → Packet → bool;
  buildBinaryFails : Result → bool
}.

Definition write `{Socket} (p : Packet) (c : ClientConn) : ClientConn * option Error :=
  if writeFails (written c) p then (c, Some ErrTransport)
  else ({| capability := capability c; remoteAddr := remoteAddr c;
           written := written c ++ [p]; closeCalls := closeCalls c |}, None).

Definition ClientConn_Close (c : ClientConn) : ClientConn :=
  {| capability := capability c; remoteAddr := remoteAddr c;
     written := written c; closeCalls := S (closeCalls c) |}.

(** Modelled from the spec: response.go is not part of these sources.  The
    response envelope is a tagged variant over EOF, OK, Result, Prepare,
    FieldList, Error and Noop, each with the status to report; a payload may
    be nil. *)
Inductive Response : Type :=
| RespEOF (st : Z)
| RespOK (st : Z)
| RespResult (st : Z) (rs : option Result) (isBinary : bool)
| RespPrepare (st : Z) (stmt : option Stmt)
| RespFieldList (st : Z) (fs : option (list Field))
| RespError (st : Z) (e : option Error)
| RespNoop.

Definition CreateResultResponse (st : Z) (rs : option Result) (isBinary : bool) : Response :=
  RespResult st rs isBinary.
Definition CreateErrorResponse (st : Z) (e : Error) : Response :=
  RespError st (Some e).

(** ** session.go: Session *)

Record Session : Type := {
  c : ClientConn;
  namespace : string;
  executor : SessionExecutor;
  closed : bool;
  continueConn : option PooledConnect
}.

Definition set_executor (se : SessionExecutor) (cc : Session) : Session :=
  {| c := c cc; namespace := namespace cc; executor := se; closed := closed cc;
     continueConn := continueConn cc |}.

Definition set_c (cl : ClientConn) (cc : Session) : Session :=
  {| c := cl; namespace := namespace cc; executor := executor cc; closed := closed cc;
     continueConn := continueConn cc |}.

(** The methods of [SessionExecutor] that executor.go declares; that file is
    not part of these sources. *)
Class ExecutorOps := {
  IsKeepSession : SessionExecutor → bool;
  isInTransaction : SessionExecutor → bool;
  rollback : SessionExecutor → SessionExecutor * option Error;
  handleKsQuit : SessionExecutor → SessionExecutor;
  recycleBackendConn : option PooledConnect → SessionExecutor → SessionExecutor;
  SetContextNamespace : Manager → SessionExecutor → SessionExecutor;
  ExecuteCommand : Manager → Byte.byte → bytes → Session → Response * Session
}.

(** Modelled from the spec: [SessionExecutor.GetNamespace] is declared in
    executor.go; the executor resolves its namespace name in the active slot
    of the registry. *)
Definition SessionExecutor_GetNamespace (m : Manager) (se : SessionExecutor) : option Namespace :=
  Manager_GetNamespace m (se_namespace se).

Definition getNamespace (m : Manager) (cc : Session) : option Namespace :=
  Manager_GetNamespace m (namespace cc).

Definition IsClosed (cc : Session) : bool := closed cc.

Definition Close `{ExecutorOps} (cc : Session) : Session :=
  if IsClosed cc then cc
  else
    let se := handleKsQuit (rollback (executor cc)).1 in
    {| c := ClientConn_Close (c cc); namespace := namespace cc; executor := se;
       closed := true; continueConn := continueConn cc |}.

Definition clientConnectionReachLimit (m : Manager) (cc : Session) : Outcome (bool * Z) :=
  match clientConnecions (statistics m) !! namespace cc with
  | None => Returns (false, 0%Z)
  | Some v =>
      match getNamespace m cc with
      | None => Panics
      | Some ns => if (v >=? maxClientConnections ns)%Z then Returns (true, v)
                   else Returns (false, v)
      end
  end.

Definition IsAllowConnect `{NamespaceOps} (m : Manager) (cc : Session) : Outcome bool :=
  match getNamespace m cc with
  | None => Panics
  | Some ns => Returns (IsClientIPAllowed ns (remoteAddr (c cc)))
  end.

(** *** writeResponse *)

(** The [switch] of [writeResponse]; the deferred recycling is in
    [writeResponse] below. *)
Definition writeResponse_switch `{Socket, NamespaceOps} (m : Manager) (r : Response)
    (cc : Session) : Outcome (ClientConn * option Error) :=
  match r with
  | RespEOF st => Returns (write (PktEOF st) (c cc))
  | RespResult st None _ => Returns (write (PktOK st) (c cc))
  | RespResult st (Some rs) isBinary =>
      match continueConn cc with
      | Some pc =>
          match Manager_GetNamespace m (namespace cc) with
          | None => Panics
          | Some ns =>
              Returns (write (PktResultStream st rs pc (GetMaxResultSize ns) isBinary) (c cc))
          end
      | None =>
          if isBinary && buildBinaryFails rs then Returns (c cc, Some (ErrOther "binary result set"))
          else Returns (write (PktResult st rs isBinary) (c cc))
      end
  | RespPrepare st None => Returns (write (PktOK st) (c cc))
  | RespPrepare st (Some stmt) => Returns (write (PktPrepare st stmt) (c cc))
  | RespFieldList st None => Returns (write (PktOK st) (c cc))
  | RespFieldList st (Some fs) => Returns (write (PktFieldList st fs) (c cc))
  | RespError st None => Returns (write (PktOK st) (c cc))
  | RespError st (Some (SessionCloseRespError e)) =>
      Returns ((write (PktError (SessionCloseRespError e)) (c cc)).1,
               Some (SessionCloseRespError e))
  | RespError st (Some (SessionCloseNoRespError e)) =>
      Returns (c cc, Some (SessionCloseNoRespError e))
  | RespError st (Some e) => Returns (write (PktError e) (c cc))
  | RespOK st => Returns (write (PktOK st) (c cc))
  | RespNoop => Returns (c cc, None)
  end.

Definition writeResponse `{Socket, NamespaceOps, ExecutorOps} (m : Manager) (r : Response)
    (cc : Session) : Session * Outcome (option Error) :=
  let deferred (cl : ClientConn) : Session :=
    {| c := cl; namespace := namespace cc;
       executor := recycleBackendConn (continueConn cc) (executor cc);
       closed := closed cc; continueConn := None |} in
  match writeResponse_switch m r cc with
  | Returns (cl, err) => (deferred cl, Returns err)
  | Panics => (deferred (c cc), Panics)
  end.

(** *** Keep-session connections and namespace reloads *)

Definition ksConn_calls `{GoRange} (conns : gmap string PooledConnect) : list ConnCall :=
  flat_map (λ entry, [CallClose entry.2; CallRecycle entry.2]) (range_of conns).

Definition clearKsConns `{ExecutorOps, GoRange} (m : Manager) (nsChangeIndex : Z)
    (cc : Session) : Outcome Session :=
  if IsKeepSession (executor cc) then
    match getNamespace m cc with
    | None => Panics
    | Some ns =>
        if (namespaceChangeIndex ns >? nsChangeIndex)%Z
           && negb (isInTransaction (executor cc))
        then Returns (set_executor
                        (set_ksConns ∅ (issue (ksConn_calls (ksConns (executor cc))) (executor cc)))
                        cc)
        else Returns cc
    end
  else Returns cc.

Definition shouldClearKsAndCloseSession `{ExecutorOps} (m : Manager) (nsChangeIndex : Z)
    (cc : Session) : Outcome bool :=
  if IsKeepSession (executor cc) && isInTransaction (executor cc) then
    match SessionExecutor_GetNamespace m (executor cc) with
    | None => Panics
    | Some ns => Returns (namespaceChangeIndex ns >? nsChangeIndex)%Z
    end
  else Returns false.

Definition execCommand `{ExecutorOps} (m : Manager) (cmd : Byte.byte) (data : bytes)
    (cc : Session) : Outcome (Response * Session) :=
  match shouldClearKsAndCloseSession m (nsChangeIndexOld (executor cc)) cc with
  | Panics => Panics
  | Returns true => Returns (CreateErrorResponse (status (executor cc)) ErrTxNsChanged, cc)
  | Returns false => Returns (ExecuteCommand m cmd data cc)
  end.

(** What the reload rule relies on in executor.go.  Whether the client is in
    a transaction is read off the status word.  The recycling that
    [writeResponse] defers is about the continuation connection: it leaves the
    keep-session mode of the executor, its status, its namespace and the
    change index it observed as they are. *)
Record ExecutorFrame `{ExecutorOps} : Prop := {
  tx_reads_status : ∀ se se', status se = status se' → isInTransaction se = isInTransaction se';
  recycle_keep : ∀ pc se, IsKeepSession (recycleBackendConn pc se) = IsKeepSession se;
  recycle_status : ∀ pc se, status (recycleBackendConn pc se) = status se;
  recycle_ns : ∀ pc se, se_namespace (recycleBackendConn pc se) = se_namespace se;
  recycle_idx : ∀ pc se, nsChangeIndexOld (recycleBackendConn pc se) = nsChangeIndexOld se
}.

(** *** The body of the loop of [Run] *)

(** What [Run] does with a packet once it is read and the context namespace
    is set: from [cc.clearKsConns(cc.executor.nsChangeIndexOld)] to the end of
    the loop body.  A panic is caught by the deferred function of [Run], which
    closes the session; so does the early [return] after a write error.  The
    bookkeeping of the read buffer, of the timeout wheel and of the flow
    counters is left out. *)
Definition dispatch `{ExecutorOps, GoRange, Socket, NamespaceOps, MysqlConst}
    (m : Manager) (data : bytes) (cc : Session) : Session :=
  match clearKsConns m (nsChangeIndexOld (executor cc)) cc with
  | Panics => Close cc
  | Returns cc1 =>
      match data with
      | [] => Close cc1
      | cmd :: data' =>
          match execCommand m cmd data' cc1 with
          | Panics => Close cc1
          | Returns (rs, cc2) =>
              match writeResponse m rs cc2 with
              | (cc3, Panics) => Close cc3
              | (cc3, Returns (Some err)) =>
                  match clearKsConns m (nsChangeIndexOld (executor cc3)) cc3 with
                  | Panics => Close cc3
                  | Returns cc4 => Close cc4
                  end
              | (cc3, Returns None) =>
                  if bool_decide (cmd = ComQuit) then Close cc3
                  else
                    match shouldClearKsAndCloseSession m (nsChangeIndexOld (executor cc3)) cc3 with
                    | Panics => Close cc3
                    | Returns true => Close cc3
                    | Returns false => cc3
                    end
              end
          end
      end
  end.

Definition serve `{ExecutorOps, GoRange, Socket, NamespaceOps, MysqlConst}
    (m : Manager) (data : bytes) (cc : Session) : Session :=
  dispatch m data (set_executor (SetContextNamespace m (executor cc)) cc).

(** *** Handshake *)

Record HandshakeResponseInfo : Type := {
  User : string;
  AuthPlugin : string;
  AuthResponse : bytes;
  Salt : bytes;
  Database : string;
  CollationID : Z
}.

(** The password check of [handleHandshakeResponse]: [succ, password]. *)
Definition check_password `{MysqlAuth, MysqlConst} (m : Manager) (info : HandshakeResponseInfo)
    : bool * string :=
  let user := User info in
  if (String.length (AuthPlugin info) =? 0)%nat then
    if (length (AuthResponse info) =? 32)%nat then
      Manager_CheckSha2Password m user (Salt info) (AuthResponse info)
    else
      let '(succ, password) := Manager_CheckHashPassword m user (Salt info) (AuthResponse info) in
      if negb succ then Manager_CheckPassword m user (Salt info) (AuthResponse info)
      else (succ, password)
  else if String.eqb (AuthPlugin info) CachingSHA2Password then
    Manager_CheckSha2Password m user (Salt info) (AuthResponse info)
  else
    Manager_CheckPassword m user (Salt info) (AuthResponse info).

Definition set_user (user : string) (se : SessionExecutor) : SessionExecutor :=
  {| se_namespace := se_namespace se; se_user := user; se_db := se_db se;
     se_charset := se_charset se; se_collation := se_collation se;
     status := status se; txConns := txConns se; ksConns := ksConns se;
     nsChangeIndexOld := nsChangeIndexOld se; backendCalls := backendCalls se |}.

Definition handleHandshakeResponse `{MysqlAuth, MysqlConst, ExecutorOps} (m : Manager)
    (info : HandshakeResponseInfo) (cc : Session) : Session * option Error :=
  let user := User info in
  if negb (Manager_CheckUser m user) then (cc, Some ErrAccessDenied)
  else
    let cc1 := set_executor (set_user user (executor cc)) cc in
    let '(succ, password) := check_password m info in
    if negb succ then (cc1, Some ErrAccessDenied)
    else
      match Collations (CollationID info) with
      | None => (cc1, Some ErrInternal)
      | Some collationName =>
          match CollationNameToCharset collationName with
          | None => (cc1, Some ErrInternal)
          | Some charset =>
              let ns := Manager_GetNamespaceByUser m user password in
              let se := executor cc1 in
              let se' :=
                {| se_namespace := ns; se_user := se_user se; se_db := Database info;
                   se_charset := charset; se_collation := CollationID info;
                   status := status se; txConns := txConns se; ksConns := ksConns se;
                   nsChangeIndexOld := nsChangeIndexOld se;
                   backendCalls := backendCalls se |} in
              ({| c := c cc1; namespace := ns; executor := SetContextNamespace m se';
                  closed := closed cc1; continueConn := continueConn cc1 |}, None)
          end
      end.

(** *** The authentication order in the words of the specification

    Existence of the user first; then the scheme is selected from the plugin
    field and the length of the auth response; a scheme that does not accept
    denies access. *)

Inductive AuthScheme : Type :=
| SchemeSha256Caching
| SchemeNativeHashThenClassic
| SchemeClassic.

Definition selected_scheme `{MysqlConst} (plugin : string) (auth : bytes) : AuthScheme :=
  if decide (plugin = "") then
    if decide (length auth = 32%nat) then SchemeSha256Caching else SchemeNativeHashThenClassic
  else if decide (plugin = CachingSHA2Password) then SchemeSha256Caching
  else SchemeClassic.

Definition run_scheme `{MysqlAuth} (scheme : AuthScheme) (u : UserManager) (user : string)
    (salt auth : bytes) : bool * string :=
  match scheme with
  | SchemeSha256Caching => UserManager_CheckSha2Password u user salt auth
  | SchemeNativeHashThenClassic =>
      if (UserManager_CheckHashPassword u user salt auth).1
      then UserManager_CheckHashPassword u user salt auth
      else UserManager_CheckPassword u user salt auth
  | SchemeClassic => UserManager_CheckPassword u user salt auth
  end.

(** The password that authenticates the response, or the denial. *)
Definition authenticate `{MysqlAuth, MysqlConst} (u : UserManager) (info : HandshakeResponseInfo)
    : Error + string :=
  if decide (is_Some (users u !! User info)) then
    let verdict := run_scheme (selected_scheme (AuthPlugin info) (AuthResponse info))
                              u (User info) (Salt info) (AuthResponse info) in
    if verdict.1 then inr verdict.2 else inl ErrAccessDenied
  else inl ErrAccessDenied.

(** [Handshake]; [reply] is what [readHandshakeResponse] returned. *)
Definition Handshake `{MysqlAuth, MysqlConst, ExecutorOps, NamespaceOps, Socket} (m : Manager)
    (reply : HandshakeResponseInfo * option Error) (cc : Session)
    : Outcome (Session * option Error) :=
  match write PktInitialHandshakeV10 (c cc) with
  | (_, Some err) => Returns (cc, Some err)
  | (cl, None) =>
      let cc0 := set_c cl cc in
      match reply with
      | (_, Some err) => Returns (cc0, Some err)
      | (info, None) =>
          match handleHandshakeResponse m info cc0 with
          | (cc1, Some err) => Returns (cc1, Some err)
          | (cc1, None) =>
              match IsAllowConnect m cc1 with
              | Panics => Panics
              | Returns false => Returns (cc1, Some ErrAccessDenied)
              | Returns true =>
                  match clientConnectionReachLimit m cc1 with
                  | Panics => Panics
                  | Returns (true, _) => Returns (cc1, Some ErrConCount)
                  | Returns (false, _) =>
                      let '(cl', err) := write (PktOK (status (executor cc1))) (c cc1) in
                      Returns (set_c cl' cc1, err)
                  end
              end
          end
      end
  end.

(** ** executor_handle.go: handleQuery and doMultiStmts *)

(** Modelled from the spec: the limiter of a namespace is supplied from
    outside; it is a token bucket with a non-blocking acquire, which takes a
    token when there is one and fails when the bucket is empty. *)
Record Limiter : Type := { tokens : nat }.

Definition Limiter_Allow (l : Limiter) : bool * Limiter :=
  match tokens l with
  | O => (false, l)
  | S n => (true, {| tokens := n |})
  end.

(** What [doQuery] hands back: its two results, the executor as it leaves it
    and the continuation connection of a streamed result. *)
Record QueryDone : Type := {
  qd_result : option Result;
  qd_err : option Error;
  qd_executor : SessionExecutor;
  qd_continueConn : option PooledConnect
}.

(** The parser, and the planning and execution of one statement ([doQuery]
    runs the plan builder and the backends, which are outside these
    sources). *)
Class QueryOps := {
  SplitStatementToPieces : string → Error + list string;
  doQuery : Manager → string → SessionExecutor → option PooledConnect → QueryDone
}.

Definition run_doQuery `{QueryOps} (m : Manager) (sql : string) (cc : Session)
    : Session * (option Result * option Error) :=
  let q := doQuery m sql (executor cc) (continueConn cc) in
  ({| c := c cc; namespace := namespace cc; executor := qd_executor q;
      closed := closed cc; continueConn := qd_continueConn q |},
   (qd_result q, qd_err q)).

(** Journal of a multi-statement run: the statements executed and the
    responses handed to [writeResponse], with what each call returned. *)
Inductive MultiEvent : Type :=
| Executed (piece : string) (r : option Result) (err : option Error)
| Wrote (response : Response) (err : Outcome (option Error)).

(** The loop [for index, piece := range piecesSql] of [doMultiStmts]; [r] is
    the result of the last statement executed. *)
Fixpoint multi_loop `{QueryOps, MysqlConst, Socket, NamespaceOps, ExecutorOps} (m : Manager)
    (stmtsNum index : nat) (pieces : list string) (r : option Result) (cc : Session)
    : Session * list MultiEvent * Outcome (option Result * option Error) :=
  match pieces with
  | [] => (cc, [], Returns (r, None))
  | piece :: rest =>
      let '(cc1, (r1, errRet)) := run_doQuery m piece cc in
      match errRet with
      | Some e => (cc1, [Executed piece r1 errRet], Returns (None, Some e))
      | None =>
          if (index <? stmtsNum - 1)%nat then
            let response :=
              CreateResultResponse (Z.lor (status (executor cc1)) ServerMoreResultsExists)
                                   r1 false in
            match writeResponse m response cc1 with
            | (cc2, Panics) =>
                (cc2, [Executed piece r1 None; Wrote response Panics], Panics)
            | (cc2, Returns (Some err)) =>
                (Close cc2, [Executed piece r1 None; Wrote response (Returns (Some err))],
                 Returns (r1, Some err))
            | (cc2, Returns None) =>
                let '(cc3, evs, out) := multi_loop m stmtsNum (S index) rest r1 cc2 in
                (cc3, Executed piece r1 None :: Wrote response (Returns None) :: evs, out)
            end
          else
            let '(cc3, evs, out) := multi_loop m stmtsNum (S index) rest r1 cc1 in
            (cc3, Executed piece r1 None :: evs, out)
      end
  end.

Definition doMultiStmts `{QueryOps, MysqlConst, Socket, NamespaceOps, ExecutorOps} (m : Manager)
    (sql : string) (cc : Session)
    : Session * list MultiEvent * Outcome (option Result * option Error) :=
  match SplitStatementToPieces sql with
  | inl err => (cc, [], Returns (None, Some err))
  | inr piecesSql =>
      let stmtsNum := length piecesSql in
      if (stmtsNum =? 1)%nat then
        let '(cc1, (r, err)) := run_doQuery m sql cc in
        (cc1, [Executed sql r err], Returns (r, err))
      else multi_loop m stmtsNum 0 piecesSql None cc
  end.

(** *** Reading the journal of a multi-statement run *)

(** The statements that a journal shows as executed, each with its error. *)
Definition executions (evs : list MultiEvent) : list (string * option Error) :=
  flat_map (λ ev, match ev with
                  | Executed piece _ err => [(piece, err)]
                  | Wrote _ _ => []
                  end) evs.




(** [strings.TrimRight(sql, ";")] *)
Fixpoint TrimRight_semicolon (sql : string) : string :=
  match sql with
  | EmptyString => EmptyString
  | String ch rest =>
      match TrimRight_semicolon rest with
      | EmptyString => if Ascii.eqb ch ";" then EmptyString else String ch EmptyString
      | trimmed => String ch trimmed
      end
  end.

(** The error that the deferred [recover] of [handleQuery] makes of a panic. *)
Definition recovered : Error := ErrOther "internal server error".

(** The last branch of [handleQuery]: the query is let through and executed,
    as a multi-statement query when the namespace supports it and the client
    negotiated it.  A panic on the way is turned into an error by the deferred
    [recover]. *)
Definition execute_query `{QueryOps, MysqlConst, Socket, NamespaceOps, ExecutorOps} (m : Manager)
    (ns : Namespace) (sql : string) (cc : Session)
    : Session * (option Result * option Error) :=
  if supportMultiQuery ns
     && negb (Z.land (capability (c cc)) ClientMultiStatements =? 0)%Z then
    match doMultiStmts m sql cc with
    | (cc', _, Returns res) => (cc', res)
    | (cc', _, Panics) => (cc', (None, Some recovered))
    end
  else run_doQuery m sql cc.

(** [handleQuery]; [lim] is the limiter of the namespace of the session.  The
    metrics recorded on the way out are left out. *)
Definition handleQuery `{QueryOps, MysqlConst, Socket, NamespaceOps, ExecutorOps} (m : Manager)
    (lim : Limiter) (sql : string) (cc : Session)
    : Session * Limiter * (option Result * option Error) :=
  let sql := TrimRight_semicolon sql in
  let se := executor cc in
  match SessionExecutor_GetNamespace m se with
  | None => (cc, lim, (None, Some recovered))
  | Some ns =>
      let '(limited1, lim1) :=
        if (clientQPSLimit ns >? 0)%Z && supportLimitTx ns then
          let '(ok, l) := Limiter_Allow lim in (negb ok, l)
        else (false, lim) in
      if limited1 then
        if isInTransaction se
        then (cc, lim1, (None, Some (SessionCloseRespError ErrClientQpsLimitedMsg)))
        else (cc, lim1, (None, Some ErrClientQpsLimitedMsg))
      else
        let '(limited2, lim2) :=
          if (clientQPSLimit ns >? 0)%Z && negb (supportLimitTx ns)
             && negb (isInTransaction se) then
            let '(ok, l) := Limiter_Allow lim1 in (negb ok, l)
          else (false, lim1) in
        if limited2 then (cc, lim2, (None, Some ErrClientQpsLimitedMsg))
        else let '(cc', res) := execute_query m ns sql cc in (cc', lim2, res)
  end.

(** The change index under which a namespace name is served; a name that is
    not served counts as [0], as in [ReloadNamespacePrepare]. *)
Definition changeIndexOf (m : Manager) (nm : string) : Z :=
  match Manager_GetNamespace m nm with
  | Some ns => namespaceChangeIndex ns
  | None => 0%Z
  end.

(** A sequence of reloads; a reload whose prepare is refused with an error
    leaves the manager as it was and the sequence goes on. *)
Fixpoint reloads `{NamespaceOps, GoRange} (configs : list models_Namespace) (m : Manager)
    : Outcome Manager :=
  match configs with
  | [] => Returns m
  | config :: rest =>
      match reload config m with
      | Returns (m', _) => reloads rest m'
      | Panics => Panics
      end
  end.

(** ** Sample environments

    Concrete values of the parameters, on which the definitions above
    evaluate. *)

(** The canonical order of the map is one admissible iteration order. *)
Definition canonical_range : GoRange :=
  {| range_of := λ V m, map_to_list m; range_of_perm := λ V m, reflexivity _ |}.

Definition quiet_backend : Backend := {| setAutoCommitFails := λ _ _, false |}.

(** Namespaces built from their configuration alone, open to every client. *)
Definition plain_namespaces : NamespaceOps :=
  {| NewNamespace := λ config,
       inr {| name := Name config; namespaceChangeIndex := 0; maxClientConnections := 2;
              clientQPSLimit := 0; supportLimitTx := false; supportMultiQuery := false |};
     IsClientIPAllowed := λ _ _, true;
     GetMaxResultSize := λ _, 0%Z |}.

Definition empty_statistics : StatisticManager :=
  {| clientConnecions := ∅; SQLResponsePercentile := ∅ |}.

(** A user with two passwords, one of which contains the separator. *)
Definition colon_users : UserManager :=
  {| users := {[ "u" := ["a:b"; "p"] ]};
     userNamespaces := {[ "u:a:b" := "N"; "u:p" := "M" ]} |}.

(** A namespace that has been reloaded [2^32 - 1] times. *)
Definition worn_namespace : Namespace :=
  {| name := "ns1"; namespaceChangeIndex := 4294967295; maxClientConnections := 2;
     clientQPSLimit := 0; supportLimitTx := false; supportMultiQuery := false |}.

Definition worn_manager : Manager :=
  {| reloadPrepared := false; switchIndex := false;
     mgr_namespaces := ({| namespaces := {[ "ns1" := worn_namespace ]} |}, NewNamespaceManager);
     mgr_users := (NewUserManager, NewUserManager);
     statistics := empty_statistics; delayedClose := [] |}.

Definition ns1_config : models_Namespace := {| Name := "ns1"; Users := [] |}.

Definition sample_executor : SessionExecutor :=
  {| se_namespace := "ns1"; se_user := "u"; se_db := "db"; se_charset := "utf8";
     se_collation := 33; status := 3;
     txConns := {[ "slice-0" := 7%N ]}; ksConns := {[ "slice-0" := 9%N ]};
     nsChangeIndexOld := 1; backendCalls := [] |}.

(** An executor outside keep-session mode, whose transaction state is the
    IN_TRANS bit of the protocol, with a backend that has nothing to undo;
    every command is answered OK. *)
Definition plain_executor : ExecutorOps :=
  {| IsKeepSession := λ _, false;
     isInTransaction := λ se, negb (Z.land (status se) 1 =? 0)%Z;
     rollback := λ se, (se, None);
     handleKsQuit := λ se, se;
     recycleBackendConn := λ _ se, se;
     SetContextNamespace := λ _ se, se;
     ExecuteCommand := λ _ _ _ cc, (RespOK (status (executor cc)), cc) |}.

(** The same executor in keep-session mode. *)
Definition keep_session_executor : ExecutorOps :=
  {| IsKeepSession := λ _, true;
     isInTransaction := λ se, negb (Z.land (status se) 1 =? 0)%Z;
     rollback := λ se, (se, None);
     handleKsQuit := λ se, se;
     recycleBackendConn := λ _ se, se;
     SetContextNamespace := λ _ se, se;
     ExecuteCommand := λ _ _ _ cc, (RespOK (status (executor cc)), cc) |}.

(** A network on which every write succeeds. *)
Definition reliable_socket : Socket :=
  {| writeFails := λ _ _, false; buildBinaryFails := λ _, false |}.

Definition sample_conn : ClientConn :=
  {| capability := 65536; remoteAddr := "10.0.0.5:4242"; written := []; closeCalls := 0 |}.

(** A session of namespace [ns1], in a transaction (status IN_TRANS and
    AUTOCOMMIT), that last saw change index [1]. *)
Definition sample_session : Session :=
  {| c := sample_conn; namespace := "ns1"; executor := sample_executor;
     closed := false; continueConn := None |}.

(** The same session outside a transaction. *)
Definition idle_session : Session :=
  {| c := sample_conn; namespace := "ns1"; executor := set_status 2 sample_executor;
     closed := false; continueConn := None |}.

Definition ns1_v2 : Namespace :=
  {| name := "ns1"; namespaceChangeIndex := 2; maxClientConnections := 2;
     clientQPSLimit := 1; supportLimitTx := true; supportMultiQuery := true |}.

(** A registry that serves [ns1] at change index [2] to the user [u] with
    password [p], with [connections] clients connected to it. *)
Definition ns1_manager (connections : Z) : Manager :=
  {| reloadPrepared := false; switchIndex := false;
     mgr_namespaces := ({| namespaces := {[ "ns1" := ns1_v2 ]} |}, NewNamespaceManager);
     mgr_users := ({| users := {[ "u" := ["p"] ]}; userNamespaces := {[ "u:p" := "ns1" ]} |},
                   NewUserManager);
     statistics := {| clientConnecions := {[ "ns1" := connections ]};
                      SQLResponsePercentile := ∅ |};
     delayedClose := [] |}.

(** Stand-ins for the hash functions: the classic scheme sends the salt
    followed by the password, the SHA-256 scheme the password followed by the
    salt, and no stored hash verifies.  One collation is known. *)
Definition toy_auth : MysqlAuth :=
  {| CalcPassword := λ salt password, salt ++ password;
     mysql_CheckHashPassword := λ _ _ _, false;
     CalcCachingSha2Password := λ salt password, list_byte_of_string password ++ salt;
     Collations := λ id, if (id =? 33)%Z then Some "utf8_general_ci" else None;
     CollationNameToCharset := λ nm,
       if String.eqb nm "utf8_general_ci" then Some "utf8" else None |}.

(** A session that has just been accepted. *)
Definition fresh_session : Session :=
  {| c := sample_conn; namespace := "";
     executor := {| se_namespace := ""; se_user := ""; se_db := ""; se_charset := "";
                    se_collation := 0; status := 2; txConns := ∅; ksConns := ∅;
                    nsChangeIndexOld := 0; backendCalls := [] |};
     closed := false; continueConn := None |}.

(** The handshake response of the user [u] with password [p] under the
    classic scheme of [toy_auth], with an empty salt. *)
Definition u_login : HandshakeResponseInfo :=
  {| User := "u"; AuthPlugin := "mysql_native_password";
     AuthResponse := list_byte_of_string "p"; Salt := [];
     Database := "db"; CollationID := 33 |}.

(** [fresh_session] once [u_login] is accepted on [ns1_manager]. *)
Definition logged_in_session : Session :=
  {| c := {| capability := 65536; remoteAddr := "10.0.0.5:4242";
             written := [PktInitialHandshakeV10]; closeCalls := 0 |};
     namespace := "ns1";
     executor := {| se_namespace := "ns1"; se_user := "u"; se_db := "db"; se_charset := "utf8";
                    se_collation := 33; status := 2; txConns := ∅; ksConns := ∅;
                    nsChangeIndexOld := 0; backendCalls := [] |};
     closed := false; continueConn := None |}.

(** A parser that splits on nothing but knows one two-statement query, and an
    execution that gives every statement the result [1] and leaves the
    executor as it is. *)
Definition sample_queries : QueryOps :=
  {| SplitStatementToPieces := λ sql,
       if String.eqb sql "select 1;select 2" then inr ["select 1"; "select 2"] else inr [sql];
     doQuery := λ _ _ se cont,
       {| qd_result := Some 1%N; qd_err := None; qd_executor := se; qd_continueConn := cont |} |}.

(** ** Further notions used by the properties *)

(** Every key of [userNamespaces] contains the separator, as the keys that
    [getUserKey] builds do. *)
Definition keys_have_sep (u : UserManager) : Prop :=
  ∀ key ns, userNamespaces u !! key = Some ns → contains_byte ":" key = true.

(** Users of two namespaces, without separator in names or passwords: [u] has
    the password [p] in [N] and [q] in [M], [v] has [r] in [N]. *)
Definition tidy_users : UserManager :=
  {| users := {[ "u" := ["p"; "q"]; "v" := ["r"] ]};
     userNamespaces := {[ "u:p" := "N"; "u:q" := "M"; "v:r" := "N" ]} |}.

(** [tidy_users] once the users of [N] are cleared. *)
Definition tidy_users_cleared : UserManager :=
  {| users := {[ "u" := ["q"]; "v" := [] ]};
     userNamespaces := {[ "u:q" := "M" ]} |}.

(** The configuration of the namespace [N] with one user, [w] with password
    [s]. *)
Definition N_config : models_Namespace :=
  {| Name := "N"; Users := [ {| UserName := "w"; Password := "s" |} ] |}.

(** *** manager.go: the counters of client connections *)

(** A value brought back into [int32], as [atomic.Int32] does on overflow. *)
Definition int32_wrap (z : Z) : Z := ((z + 2 ^ 31) `mod` 2 ^ 32 - 2 ^ 31)%Z.

Definition set_clientConnecions (counters : gmap string Z) (s : StatisticManager)
    : StatisticManager :=
  {| clientConnecions := counters; SQLResponsePercentile := SQLResponsePercentile s |}.

(** [IncrConnectionCount]: the first connection of a namespace stores a
    counter at one, the following ones increment it. *)
Definition IncrConnectionCount (namespace : string) (s : StatisticManager) : StatisticManager :=
  match clientConnecions s !! namespace with
  | None => set_clientConnecions (<[namespace := 1%Z]> (clientConnecions s)) s
  | Some lastNum =>
      set_clientConnecions (<[namespace := int32_wrap (lastNum + 1)]> (clientConnecions s)) s
  end.

(** [DescConnectionCount]: a namespace without counter is only logged. *)
Definition DescConnectionCount (namespace : string) (s : StatisticManager) : StatisticManager :=
  match clientConnecions s !! namespace with
  | None => s
  | Some lastNum =>
      set_clientConnecions (<[namespace := int32_wrap (lastNum - 1)]> (clientConnecions s)) s
  end.

Definition set_statistics (s : StatisticManager) (m : Manager) : Manager :=
  {| reloadPrepared := reloadPrepared m; switchIndex := switchIndex m;
     mgr_namespaces := mgr_namespaces m; mgr_users := mgr_users m;
     statistics := s; delayedClose := delayedClose m |}.

Definition ns2_config : models_Namespace := {| Name := "ns2"; Users := [] |}.

(** *** executor_handle.go: the prepared statements of a session *)

(** The value of a byte, and the byte of a value ([byte(v)] truncates). *)
Definition byte_value (b : Byte.byte) : Z := Z.of_N (Byte.to_N b).

Definition byte_of_Z (v : Z) : Byte.byte :=
  default Byte.x00 (Byte.of_N (Z.to_N (v `mod` 256))).

(** [binary.LittleEndian.Uint32(b)] of the Go library, on the first four
    bytes of [b]; a shorter slice panics. *)
Definition LittleEndian_Uint32 (b : bytes) : Outcome Z :=
  match b with
  | b0 :: b1 :: b2 :: b3 :: _ =>
      Returns (Z.lor (Z.lor (Z.lor (byte_value b0) (Z.shiftl (byte_value b1) 8))
                            (Z.shiftl (byte_value b2) 16))
                     (Z.shiftl (byte_value b3) 24))
  | _ => Panics
  end.

(** [binary.LittleEndian.PutUint32], with which a client writes the statement
    id of a COM_STMT_CLOSE packet. *)
Definition LittleEndian_PutUint32 (v : Z) : bytes :=
  [byte_of_Z v; byte_of_Z (Z.shiftr v 8); byte_of_Z (Z.shiftr v 16); byte_of_Z (Z.shiftr v 24)].

(** What [handleStmtPrepare] stores in a [Stmt]. *)
Record PreparedStmt : Type := {
  ps_id : Z;
  ps_sql : string;
  ps_paramCount : Z;
  ps_offsets : list Z;
  ps_sqlItems : list string;
  ps_columnCount : Z
}.

(** The statement table of an executor: the next statement id ([se.stmtID],
    a [uint32]) and the statements by id ([se.stmts]). *)
Record StmtTable : Type := {
  stmtID : Z;
  stmts : gmap Z PreparedStmt
}.

(** [CalcParams] is declared outside these sources. *)
Class StmtOps := {
  CalcParams : string → Error + (Z * list Z * list string)
}.

Definition handleStmtPrepare `{StmtOps} (sql : string) (t : StmtTable)
    : StmtTable * (Error + PreparedStmt) :=
  let sql := TrimRight_semicolon sql in
  match CalcParams sql with
  | inl err => (t, inl err)
  | inr (paramCount, offsets, sqlItems) =>
      let stmt := {| ps_id := stmtID t; ps_sql := sql; ps_paramCount := paramCount;
                     ps_offsets := offsets; ps_sqlItems := sqlItems; ps_columnCount := 0 |} in
      ({| stmtID := uint32_add (stmtID t) 1; stmts := <[ps_id stmt := stmt]> (stmts t) |},
       inr stmt)
  end.

Definition handleStmtClose (data : bytes) (t : StmtTable) : Outcome (StmtTable * option Error) :=
  if (length data <? 4)%nat then Returns (t, None)
  else
    match LittleEndian_Uint32 (take 4 data) with
    | Panics => Panics
    | Returns id => Returns ({| stmtID := stmtID t; stmts := delete id (stmts t) |}, None)
    end.

(** Every statement of the table is stored under its own id, which the
    counter has passed. *)
Definition ids_issued (t : StmtTable) : Prop :=
  ∀ id stmt, stmts t !! id = Some stmt → ps_id stmt = id ∧ (0 ≤ id < stmtID t)%Z.

(** *** executor_handle.go: handleKeepSessionPing *)

(** Whether [ksConn.PingWithTimeout] returns an error. *)
Class PingOps := {
  pingFails : PooledConnect → bool
}.

(** [mysql.ErrBadConn] *)
Definition ErrBadConn : Error := ErrOther "connection was bad".

(** The first loop of [handleKeepSessionPing]: the connection whose ping
    failed, at which the loop breaks. *)
Fixpoint first_bad_conn `{PingOps} (conns : list (string * PooledConnect))
    : option PooledConnect :=
  match conns with
  | [] => None
  | (_, ksConn) :: rest => if pingFails ksConn then Some ksConn else first_bad_conn rest
  end.

(** The second loop, run after a failed ping. *)
Fixpoint release_ksConns `{ExecutorOps} (conns : list (string * PooledConnect))
    (se : SessionExecutor) : SessionExecutor :=
  match conns with
  | [] => se
  | (_, ksConn) :: rest =>
      let se1 := if isInTransaction se then issue [CallClose ksConn] se else se in
      release_ksConns rest (issue [CallRecycle ksConn] se1)
  end.

Definition handleKeepSessionPing `{PingOps, ExecutorOps, GoRange} (se : SessionExecutor)
    : SessionExecutor * option Error :=
  match first_bad_conn (range_of (ksConns se)) with
  | None => (se, None)
  | Some bad =>
      let se1 := issue [CallClose bad] se in
      (release_ksConns (range_of (ksConns se1)) se1, Some ErrBadConn)
  end.

(** A run of [k] semicolons. *)
Fixpoint semicolons (k : nat) : string :=
  match k with
  | O => EmptyString
  | S k' => String ";" (semicolons k')
  end.

(** Whether the last byte of a string is a semicolon. *)
Fixpoint ends_with_semicolon (s : string) : bool :=
  match s with
  | EmptyString => false
  | String ch EmptyString => Ascii.eqb ch ";"
  | String _ rest => ends_with_semicolon rest
  end.

(** A parameter counter that counts nothing, and a backend whose pings fail
    on connection [9]. *)
Definition plain_stmts : StmtOps := {| CalcParams := λ _, inr (0%Z, [], []) |}.

Definition flaky_pings : PingOps := {| pingFails := λ pc, bool_decide (pc = 9%N) |}.

Definition empty_table : StmtTable := {| stmtID := 1; stmts := ∅ |}.

(** The calls that the second loop of [handleKeepSessionPing] makes on one
    connection. *)
Definition release_calls (inTransaction : bool) (entry : string * PooledConnect)
    : list ConnCall :=
  if inTransaction then [CallClose entry.2; CallRecycle entry.2] else [CallRecycle entry.2].

(** *** session.go: the loop of Run *)

Definition set_nsChangeIndexOld (idx : Z) (se : SessionExecutor) : SessionExecutor :=
  {| se_namespace := se_namespace se; se_user := se_user se; se_db := se_db se;
     se_charset := se_charset se; se_collation := se_collation se;
     status := status se; txConns := txConns se; ksConns := ksConns se;
     nsChangeIndexOld := idx; backendCalls := backendCalls se |}.

(** What [ReadEphemeralPacket] returns. *)
Inductive Read : Type :=
| ReadFailed
| ReadPacket (data : bytes).

(** What one iteration of the loop meets: the registry when the iteration
    starts, what the read returns, and the registry when the read returns (a
    reload may be committed while the session waits for the packet). *)
Record Round : Type := {
  at_start : Manager;
  incoming : Read;
  at_read : Manager
}.

(** The body of [for !cc.IsClosed()].  A panic ends [Run] in its deferred
    function, which closes the session; the timeout wheel and the flow
    counters are left out. *)
Definition iteration `{ExecutorOps, GoRange, Socket, NamespaceOps, MysqlConst}
    (r : Round) (cc : Session) : Session :=
  match SessionExecutor_GetNamespace (at_start r) (executor cc) with
  | None => Close cc
  | Some ns =>
      let cc0 := set_executor (set_nsChangeIndexOld (namespaceChangeIndex ns) (executor cc)) cc in
      match incoming r with
      | ReadFailed =>
          match clearKsConns (at_read r) (nsChangeIndexOld (executor cc0)) cc0 with
          | Panics => Close cc0
          | Returns cc1 => Close cc1
          end
      | ReadPacket data => serve (at_read r) data cc0
      end
  end.

(** The loop of [Run] over the rounds that the session meets; when they are
    used up the session is waiting for the next packet. *)
Fixpoint Run_loop `{ExecutorOps, GoRange, Socket, NamespaceOps, MysqlConst}
    (rounds : list Round) (cc : Session) : Session :=
  match rounds with
  | [] => cc
  | r :: rest => if IsClosed cc then cc else Run_loop rest (iteration r cc)
  end.

(** A round in which nothing is reloaded and the client sends COM_QUIT. *)
Definition quit_round : Round :=
  {| at_start := ns1_manager 0; incoming := ReadPacket [Byte.x01]; at_read := ns1_manager 0 |}.

(** A round in which nothing is reloaded and the client sends a query. *)
Definition query_round : Round :=
  {| at_start := ns1_manager 0; incoming := ReadPacket [Byte.x03; Byte.x31];
     at_read := ns1_manager 0 |}.

(** The shape of a journal: the statements executed are the first pieces, in
    order; only the last one executed may have failed; a nil error means that
    all were executed; a failed write closes the session and ends the run. *)
Definition journal_shape (pieces : list string) (cc' : Session) (evs : list MultiEvent)
    (out : Outcome (option Result * option Error)) : Prop :=
  map fst (executions evs) `prefix_of` pieces
  ∧ (∀ i e, executions evs !! i = Some e → (S i < length (executions evs))%nat → e.2 = None)
  ∧ (∀ res, out = Returns (res, None) →
       executions evs = map (λ piece, (piece, None)) pieces)
  ∧ (∀ resp e, Wrote resp (Returns (Some e)) ∈ evs →
       closed cc' = true ∧ ∃ r1, out = Returns (r1, Some e)).

(** ** util/bucketpool/bucketpool.go *)

(** A value brought back into [int64], and the conversion [uint64(x)]. *)
Definition int64_wrap (z : Z) : Z := ((z + 2 ^ 63) `mod` 2 ^ 64 - 2 ^ 63)%Z.

Definition uint64_of (z : Z) : Z := (z `mod` 2 ^ 64)%Z.

(** A [sizedPool] is known by the size of its buffers. *)
Record Pool : Type := {
  minSize : Z;
  maxSize : Z;
  pools : list Z
}.

(** The loop [for curSize < maxSize] of [New]; [fuel] bounds the number of
    iterations, [None] is a loop that has not ended within it. *)
Fixpoint New_loop (fuel : nat) (curSize maxSize : Z) (pools : list Z) : option (list Z) :=
  match fuel with
  | O => None
  | S fuel' =>
      if (curSize <? maxSize)%Z
      then New_loop fuel' (int64_wrap (curSize * 2)) maxSize (pools ++ [curSize])
      else Some pools
  end.

Definition New (fuel : nat) (minSize maxSize : Z) : option (Outcome Pool) :=
  if (maxSize <? minSize)%Z then Some Panics
  else
    match New_loop fuel minSize maxSize [] with
    | None => None
    | Some pools =>
        Some (Returns {| minSize := minSize; maxSize := maxSize; pools := pools ++ [maxSize] |})
    end.

(** [bits.Div64(0, x, y)] and [bits.Len64(x)] of the Go library. *)
Definition bits_Div64_0 (x y : Z) : Outcome (Z * Z) :=
  if (y =? 0)%Z then Panics else Returns ((x / y)%Z, (x `mod` y)%Z).

Definition bits_Len64 (x : Z) : Z := if (x =? 0)%Z then 0%Z else (Z.log2 x + 1)%Z.

(** [findPool]: the size of the pool found; [Returns None] is the nil pool. *)
Definition findPool (p : Pool) (size : Z) : Outcome (option Z) :=
  if (size >? maxSize p)%Z then Returns None
  else
    match bits_Div64_0 (uint64_of size) (uint64_of (minSize p)) with
    | Panics => Panics
    | Returns (div, rem) =>
        let idx := bits_Len64 div in
        let idx := if (rem =? 0)%Z && negb (div =? 0)%Z && (Z.land div (div - 1) =? 0)%Z
                   then (idx - 1)%Z else idx in
        if (idx <? 0)%Z then Panics
        else match pools p !! Z.to_nat idx with
             | Some sp => Returns (Some sp)
             | None => Panics
             end
    end.

(** The sizes that [New] gives the pools below the last one. *)
Definition doubled_sizes (minSize : Z) (k : nat) : list Z :=
  map (λ i, (minSize * 2 ^ Z.of_nat i)%Z) (seq 0 k).

(** A keep-session executor on which every command starts a transaction: it
    sets the IN_TRANS bit of the status and is answered OK. *)
Definition starting_executor : ExecutorOps :=
  {| IsKeepSession := λ _, true;
     isInTransaction := λ se, negb (Z.land (status se) 1 =? 0)%Z;
     rollback := λ se, (se, None);
     handleKsQuit := λ se, se;
     recycleBackendConn := λ _ se, se;
     SetContextNamespace := λ _ se, se;
     ExecuteCommand := λ _ _ _ cc,
       (RespOK (Z.lor (status (executor cc)) 1),
        set_executor (set_status (Z.lor (status (executor cc)) 1) (executor cc)) cc) |}.

(** * Properties *)

(** ** Bit masks *)

Lemma testbit_u16_high (x i : Z) :
  (0 ≤ x < 2 ^ 16)%Z → (16 ≤ i)%Z → Z.testbit x i = false.
Proof.
  intros Hx Hi. rewrite <- (Z.mod_small x (2 ^ 16)) by lia.
  apply Z.mod_pow2_bits_high. lia.
Qed.

Lemma land_lor_same (s x : Z) : Z.land (Z.lor s x) x = x.
Proof.
  apply Z.bits_inj'. intros i Hi.
  rewrite Z.land_spec, Z.lor_spec. destruct (Z.testbit s i), (Z.testbit x i); done.
Qed.

Lemma land_not16_same (s x : Z) :
  (0 ≤ x < 2 ^ 16)%Z → Z.land (Z.land s (not16 x)) x = 0%Z.
Proof.
  intros Hx. apply Z.bits_inj'. intros i Hi. unfold not16.
  rewrite !Z.land_spec, Z.lxor_spec, Z.bits_0.
  destruct (Z.testbit x i) eqn:Ex; [|by rewrite andb_false_r].
  destruct (decide (i < 16)%Z) as [Hlt|Hge].
  - rewrite Z.testbit_ones_nonneg by lia.
    replace (i <? 16)%Z with true by (symmetry; apply Z.ltb_lt; lia).
    by rewrite andb_false_r.
  - rewrite testbit_u16_high in Ex by lia. done.
Qed.

Lemma land_not16_other (s x y : Z) :
  (0 ≤ y < 2 ^ 16)%Z → Z.land y x = 0%Z →
  Z.land (Z.land s (not16 x)) y = Z.land s y.
Proof.
  intros Hy Hd. apply Z.bits_inj'. intros i Hi. unfold not16.
  rewrite !Z.land_spec, Z.lxor_spec.
  destruct (Z.testbit y i) eqn:Ey; [|by rewrite !andb_false_r].
  assert (Z.testbit x i = false) as ->.
  { apply (f_equal (λ z, Z.testbit z i)) in Hd.
    rewrite Z.land_spec, Ey, Z.bits_0 in Hd. done. }
  destruct (decide (i < 16)%Z) as [Hlt|Hge].
  - rewrite Z.testbit_ones_nonneg by lia.
    replace (i <? 16)%Z with true by (symmetry; apply Z.ltb_lt; lia).
    by rewrite !andb_true_r.
  - rewrite testbit_u16_high in Ey by lia. done.
Qed.

(** ** Iteration order *)

Lemma elem_of_range_of `{GoRange} {V : Type} (m : gmap string V) (k : string) (v : V) :
  (k, v) ∈ range_of m ↔ m !! k = Some v.
Proof. rewrite range_of_perm. apply elem_of_map_to_list. Qed.

(** ** handleSetAutoCommit *)

Section SetAutoCommit.
Context `{K : MysqlConst, R : GoRange, B : Backend}.

Lemma autocommit_loop_recycles conns err slice pc :
  (slice, pc) ∈ conns → CallRecycle pc ∈ (autocommit_loop conns err).1.
Proof.
  revert err. induction conns as [|[s p] rest IH]; intros err Hin.
  - by apply elem_of_nil in Hin.
  - simpl. destruct (autocommit_loop rest _) as [calls e] eqn:E. simpl.
    apply elem_of_cons in Hin as [Heq|Hin].
    + inversion Heq; subst. set_solver.
    + specialize (IH (if setAutoCommitFails p 1 then Some ErrSetAutocommit else err) Hin).
      rewrite E in IH. set_solver.
Qed.

(** C5. After [handleSetAutoCommit(true)] returns: [txConns] is empty, the
    IN_TRANS bit of the status is clear, the AUTOCOMMIT bit is set, and every
    connection that was in [txConns] has been recycled (whether or not
    setting autocommit on a backend failed). *)
Theorem handleSetAutoCommit_true_resets (se : SessionExecutor) :
  StatusFlagsOk →
  let se' := (handleSetAutoCommit true se).1 in
  txConns se' = ∅
  ∧ Z.land (status se') ServerStatusInTrans = 0%Z
  ∧ Z.land (status se') ServerStatusAutocommit = ServerStatusAutocommit
  ∧ ∃ calls, backendCalls se' = backendCalls se ++ calls
             ∧ ∀ slice pc, txConns se !! slice = Some pc → CallRecycle pc ∈ calls.
Proof.
  intros [HT HA Hd]. unfold handleSetAutoCommit.
  destruct (autocommit_loop (range_of (txConns se)) None) as [calls err] eqn:E.
  simpl. split; [done|]. split; [|split].
  - destruct (Z.gtb_spec (Z.land (Z.lor (status se) ServerStatusAutocommit)
                                 ServerStatusInTrans) 0) as [Hgt|Hle].
    + by apply land_not16_same.
    + assert (0 ≤ Z.land (Z.lor (status se) ServerStatusAutocommit)
                         ServerStatusInTrans)%Z by (apply Z.land_nonneg; lia).
      lia.
  - destruct (Z.land (Z.lor (status se) ServerStatusAutocommit) ServerStatusInTrans >? 0)%Z.
    + rewrite land_not16_other by done. apply land_lor_same.
    + apply land_lor_same.
  - exists calls. split; [done|]. intros slice pc Hpc.
    apply elem_of_range_of in Hpc.
    pose proof (autocommit_loop_recycles _ None _ _ Hpc) as Hr. by rewrite E in Hr.
Qed.
End SetAutoCommit.

Lemma handleSetAutoCommit_true_resets_witness :
  let se' := (@handleSetAutoCommit mysql_protocol canonical_range quiet_backend
                true sample_executor).1 in
  txConns se' = ∅
  ∧ Z.land (status se') 1 = 0%Z
  ∧ Z.land (status se') 2 = 2%Z
  ∧ ∃ calls, backendCalls se' = calls
             ∧ ∀ slice pc, txConns sample_executor !! slice = Some pc → CallRecycle pc ∈ calls.
Proof.
  apply (@handleSetAutoCommit_true_resets mysql_protocol canonical_range quiet_backend
           sample_executor).
  split; simpl; [lia | lia | reflexivity].
Defined.

(** ** ClearNamespaceUsers *)

Lemma range_of_two `{GoRange} {V : Type} (m : gmap string V) (a b : string * V) :
  map_to_list m = [a; b] → range_of m = [a; b] ∨ range_of m = [b; a].
Proof.
  intros Hm. pose proof (range_of_perm m) as Hp. rewrite Hm in Hp.
  symmetry in Hp. by apply Permutation_length_2_inv in Hp.
Qed.

(** *** Keys without a separator inside *)

Lemma strings_Split_no_sep (sep : ascii) (s : string) :
  contains_byte sep s = false → strings_Split sep s = [s].
Proof.
  induction s as [|ch rest IH]; simpl; [done|].
  intros [Hch Hrest]%orb_false_elim. rewrite Hch, (IH Hrest). done.
Qed.

Lemma strings_Split_key (sep : ascii) (usr p : string) :
  contains_byte sep usr = false →
  strings_Split sep (usr +:+ String sep p) = usr :: strings_Split sep p.
Proof.
  induction usr as [|ch rest IH]; simpl.
  - intros _. by rewrite Ascii.eqb_refl.
  - intros [Hch Hrest]%orb_false_elim. rewrite Hch, (IH Hrest). done.
Qed.

(** On user names and passwords without [:], the key splits back into its
    two parts. *)
Lemma getUserAndPasswordFromKey_getUserKey (usr p : string) :
  contains_byte ":" usr = false → contains_byte ":" p = false →
  getUserAndPasswordFromKey (getUserKey usr p) = Some (usr, p).
Proof.
  intros Husr Hp. unfold getUserAndPasswordFromKey, getUserKey.
  change (":" +:+ p) with (String ":" p).
  by rewrite strings_Split_key, strings_Split_no_sep.
Qed.

(** *** The inner loop keeps the other passwords *)

Lemma remove_password_loop_keeps (password x : string) :
  x ≠ password →
  ∀ (k i : nat) (arr s : list string),
    x ∈ arr →
    (x ∈ s ∨ ∃ j, (i ≤ j < i + k)%nat ∧ arr !! j = Some password) →
    x ∈ remove_password_loop password k i arr s.
Proof.
  intros Hx. induction k as [|k IH]; intros i arr s Harr Hs; simpl.
  - destruct Hs as [Hs|(j & Hj & _)]; [done|lia].
  - destruct (arr !! i) as [q|] eqn:Hq.
    + destruct (String.eqb_spec q password) as [->|Hne].
      * assert (x ∈ take i arr ++ drop (S i) arr) as Hkept.
        { rewrite <- (take_drop_middle arr i password Hq) in Harr.
          apply elem_of_app in Harr as [Hl|Hr%elem_of_cons]; apply elem_of_app;
            [by left|]. destruct Hr as [->|Hr]; [done|by right]. }
        apply IH; [apply elem_of_app; by left|by left].
      * apply IH; [done|].
        destruct Hs as [Hs|(j & Hj & Hjp)]; [by left|right].
        exists j. split; [|done].
        assert (j ≠ i) by (intros ->; congruence). lia.
    + destruct Hs as [Hs|(j & Hj & Hjp)]; [done|].
      apply lookup_lt_Some in Hjp. apply lookup_ge_None in Hq. lia.
Qed.

(** Removing a password that the user has keeps every other password of the
    user. *)
Lemma remove_password_keeps (password x : string) (pws : list string) :
  password ∈ pws → x ≠ password → x ∈ pws → x ∈ remove_password password pws.
Proof.
  intros Hp Hx Hin. unfold remove_password.
  apply remove_password_loop_keeps; [done|done|]. right.
  apply list_elem_of_lookup in Hp as [j Hj]. exists j. split; [|done].
  apply lookup_lt_Some in Hj. lia.
Qed.

(** *** Clearing a namespace whose users and passwords have no separator *)

Section ClearNamespaceUsers.
Context `{R : GoRange}.
Variables (cleared user pw held : string).

Lemma clear_entries_keeps (entries : list (string * string)) :
  ∀ u : UserManager,
    NoDup entries.*1 →
    entries_ok cleared entries u →
    (∀ key, (key, cleared) ∈ entries → key ≠ getUserKey user pw) →
    userNamespaces u !! getUserKey user pw = Some held →
    pw ∈ default [] (users u !! user) →
    ∃ u', clear_entries cleared entries u = Some u'
      ∧ userNamespaces u' !! getUserKey user pw = Some held
      ∧ pw ∈ default [] (users u' !! user).
Proof.
  induction entries as [|[key ns] rest IH]; intros u Hnodup Hok Hother Hheld Hpw.
  - exists u. done.
  - apply NoDup_cons in Hnodup as [Hfresh Hnodup]. simpl.
    destruct (String.eqb_spec ns cleared) as [->|Hns].
    + destruct (Hok key) as (usr & p & -> & Husr & Hp & Hhas); [set_solver|].
      rewrite getUserAndPasswordFromKey_getUserKey by done.
      assert (getUserKey usr p ≠ getUserKey user pw) as Hkey by (apply Hother; set_solver).
      apply IH; simpl.
      * done.
      * intros key2 Hin2.
        destruct (Hok key2) as (usr2 & p2 & -> & Husr2 & Hp2 & Hhas2); [set_solver|].
        exists usr2, p2. repeat split; try done.
        destruct (decide (usr2 = usr)) as [->|Hne]; simpl.
        -- rewrite lookup_insert_eq. simpl.
           apply remove_password_keeps; [done| |done].
           intros ->. apply Hfresh. apply list_elem_of_fmap. by exists (getUserKey usr p, cleared).
        -- by rewrite lookup_insert_ne.
      * intros key2 Hin2. apply Hother. set_solver.
      * by rewrite lookup_delete_ne.
      * destruct (decide (user = usr)) as [->|Hne]; simpl.
        -- rewrite lookup_insert_eq. simpl.
           apply remove_password_keeps; [done| |done]. by intros ->.
        -- by rewrite lookup_insert_ne.
    + apply IH; try done.
      * intros key2 Hin2. apply Hok. set_solver.
      * intros key2 Hin2. apply Hother. set_solver.
Qed.

(** X4. What [ClearNamespaceUsers] does get right.  When no user name and no
    password of the cleared namespace contains [:] (and the user manager has
    the password of each of its keys), a pair held by another namespace is
    still served afterwards: its key still names its namespace and the
    password is still among the passwords of the user. *)
Lemma ClearNamespaceUsers_keeps_foreign_pairs (u : UserManager) :
  (∀ key, userNamespaces u !! key = Some cleared →
     ∃ usr p, key = getUserKey usr p
       ∧ contains_byte ":" usr = false ∧ contains_byte ":" p = false
       ∧ p ∈ default [] (users u !! usr)) →
  held ≠ cleared →
  userNamespaces u !! getUserKey user pw = Some held →
  pw ∈ default [] (users u !! user) →
  ∃ u', ClearNamespaceUsers cleared u = Some u'
    ∧ UserManager_GetNamespaceByUser u' user pw = held
    ∧ pw ∈ default [] (users u' !! user).
Proof.
  intros Hok Hne Hheld Hpw.
  destruct (clear_entries_keeps (range_of (userNamespaces u)) u) as (u' & Hrun & Hkey & Hin).
  - rewrite range_of_perm. apply NoDup_fst_map_to_list.
  - intros key Hin. apply Hok. by apply elem_of_range_of.
  - intros key Hin%elem_of_range_of ->. congruence.
  - done.
  - done.
  - exists u'. split; [done|]. split; [|done].
    unfold UserManager_GetNamespaceByUser. by rewrite Hkey.
Qed.
End ClearNamespaceUsers.

(** C10 (the code at the failing input).  The user [u] has the password [a:b]
    in namespace [N] and the password [p] in namespace [M].  Clearing the users
    of [N] splits the key [u:a:b] into the user [u] and the password [a], finds
    no such password and stores the nil slice for [u]: the pair [(u, p)] of the
    other namespace is gone from [users], in whatever order the map is
    visited, while [GetNamespaceByUser] still names [M] for it. *)
Theorem ClearNamespaceUsers_colon_password_wipes_user `{GoRange} :
  UserManager_GetNamespaceByUser colon_users "u" "p" = "M"
  ∧ "p" ∈ default [] (users colon_users !! "u")
  ∧ ∃ u', ClearNamespaceUsers "N" colon_users = Some u'
          ∧ users u' !! "u" = Some []
          ∧ UserManager_GetNamespaceByUser u' "u" "p" = "M".
Proof.
  split; [reflexivity|]. split; [vm_compute; set_solver|].
  unfold ClearNamespaceUsers.
  destruct (range_of_two (userNamespaces colon_users) ("u:a:b", "N") ("u:p", "M")) as [-> | ->];
    [reflexivity | | ]; eexists; (split; [vm_compute; reflexivity|]); split; reflexivity.
Qed.

(** ** The hot-reload protocol *)

(** C6. [ReloadNamespaceCommit] succeeds exactly when a prepare is
    outstanding.  Without one it returns the not-prepared error and leaves the
    manager (active index, both namespace slots, both user slots) as it was.
    With one it clears [reloadPrepared] and flips the active index once,
    without touching the slots; a second commit is then refused. *)
Theorem ReloadNamespaceCommit_prepared_iff (nm : string) (m : Manager) :
  let m' := (ReloadNamespaceCommit nm m).1 in
  let err := (ReloadNamespaceCommit nm m).2 in
  (err = None ↔ reloadPrepared m = true)
  ∧ (if reloadPrepared m
     then err = None
          ∧ reloadPrepared m' = false
          ∧ switchIndex m' = negb (switchIndex m)
          ∧ mgr_namespaces m' = mgr_namespaces m
          ∧ mgr_users m' = mgr_users m
          ∧ ∀ nm', ReloadNamespaceCommit nm' m' = (m', Some ErrNamespaceNotPrepared)
     else err = Some ErrNamespaceNotPrepared ∧ m' = m).
Proof.
  unfold ReloadNamespaceCommit. destruct (reloadPrepared m) eqn:Hp; simpl.
  - split; [done|]. repeat split; done.
  - split; [|done]. split; intros; done.
Qed.

Section Reload.
Context `{N : NamespaceOps, R : GoRange}.

Lemma slot_set_slot_eq {A : Type} (i : bool) (x : A) (a : A * A) :
  slot i (set_slot i x a) = x.
Proof. by destruct i. Qed.

Lemma slot_set_slot_ne {A : Type} (i : bool) (x : A) (a : A * A) :
  slot (negb i) (set_slot i x a) = slot (negb i) a.
Proof. by destruct i. Qed.

(** What a successful prepare leaves in the inactive slot. *)
Lemma ReloadNamespacePrepare_ok (config : models_Namespace) (m m1 : Manager) :
  ReloadNamespacePrepare config m = Returns (m1, None) →
  switchIndex m1 = switchIndex m
  ∧ reloadPrepared m1 = true
  ∧ ∃ built,
      NewNamespace config = inr built
      ∧ namespaces (slot (negb (switchIndex m)) (mgr_namespaces m1))
        = <[Name config :=
              set_namespaceChangeIndex (uint32_add (changeIndexOf m (Name config)) 1) built]>
            (namespaces (slot (switchIndex m) (mgr_namespaces m))).
Proof.
  unfold ReloadNamespacePrepare, changeIndexOf, Manager_GetNamespace, RebuildNamespace,
    ShallowCopyNamespaceManager, NamespaceManager_GetNamespace. simpl.
  destruct (NewNamespace config) as [err|built] eqn:Hnew; [done|].
  destruct (RebuildNamespaceUsers _ _) as [newUsers|]; [|done].
  intros [= <-]. simpl. split; [done|]. split; [done|].
  exists built. split; [done|].
  rewrite slot_set_slot_eq. simpl.
  rewrite (left_id_L ∅ (∪)). apply map_eq. intros k.
  destruct (decide (k = Name config)) as [->|Hne].
  - by rewrite lookup_alter_eq, !lookup_insert_eq.
  - by rewrite lookup_alter_ne, !lookup_insert_ne.
Qed.

(** A prepare that is refused changes nothing. *)
Lemma ReloadNamespacePrepare_refused (config : models_Namespace) (m m1 : Manager) (err : Error) :
  ReloadNamespacePrepare config m = Returns (m1, Some err) → m1 = m.
Proof.
  unfold ReloadNamespacePrepare. simpl.
  destruct (RebuildNamespace _ _) as [rebuilt [e|]]; [congruence|].
  destruct (RebuildNamespaceUsers _ _); congruence.
Qed.

(** The namespaces served after a reload: the reloaded name is served with
    the index of its predecessor plus one (on [uint32]); every other name is
    served as before. *)
Lemma reload_ok (config : models_Namespace) (m m' : Manager) :
  reload config m = Returns (m', None) →
  (∃ built, NewNamespace config = inr built
     ∧ Manager_GetNamespace m' (Name config)
       = Some (set_namespaceChangeIndex (uint32_add (changeIndexOf m (Name config)) 1) built))
  ∧ ∀ other, other ≠ Name config → Manager_GetNamespace m' other = Manager_GetNamespace m other.
Proof.
  unfold reload.
  destruct (ReloadNamespacePrepare config m) as [[m1 [err|]]|] eqn:Hprep; [done| |done].
  apply ReloadNamespacePrepare_ok in Hprep as (Hidx & Hp & built & Hnew & Hslot).
  unfold ReloadNamespaceCommit. rewrite Hp. simpl. intros [= <-].
  unfold Manager_GetNamespace, NamespaceManager_GetNamespace. simpl.
  rewrite Hidx, Hslot. split.
  - exists built. split; [done|]. by rewrite lookup_insert_eq.
  - intros other Hne. by rewrite lookup_insert_ne.
Qed.

Lemma reload_refused (config : models_Namespace) (m m' : Manager) (err : Error) :
  reload config m = Returns (m', Some err) → m' = m.
Proof.
  unfold reload.
  destruct (ReloadNamespacePrepare config m) as [[m1 [e|]]|] eqn:Hprep.
  - intros [= <- <-]. by apply ReloadNamespacePrepare_refused in Hprep.
  - unfold ReloadNamespaceCommit. destruct (reloadPrepared m1) eqn:Hp; simpl; [done|].
    apply ReloadNamespacePrepare_ok in Hprep as (_ & Hp' & _). congruence.
  - done.
Qed.

Lemma changeIndexOf_reload (config : models_Namespace) (m m' : Manager) (err : option Error)
    (nm : string) :
  reload config m = Returns (m', err) →
  changeIndexOf m' nm = changeIndexOf m nm
  ∨ changeIndexOf m' nm = uint32_add (changeIndexOf m nm) 1.
Proof.
  destruct err as [e|]; intros Hr.
  - apply reload_refused in Hr as ->. by left.
  - apply reload_ok in Hr as [(built & _ & Hnew) Hother].
    destruct (decide (nm = Name config)) as [->|Hne].
    + right. unfold changeIndexOf at 1. by rewrite Hnew.
    + left. unfold changeIndexOf. by rewrite Hother.
Qed.

Lemma served_reload (config : models_Namespace) (m m' : Manager) (err : option Error)
    (nm : string) :
  reload config m = Returns (m', err) →
  is_Some (Manager_GetNamespace m nm) → is_Some (Manager_GetNamespace m' nm).
Proof.
  destruct err as [e|]; intros Hr Hs.
  - by apply reload_refused in Hr as ->.
  - apply reload_ok in Hr as [(built & _ & Hnew) Hother].
    destruct (decide (nm = Name config)) as [->|Hne].
    + by rewrite Hnew.
    + by rewrite Hother.
Qed.

Lemma uint32_add_1_small (x : Z) :
  (0 ≤ x < uint32_max)%Z → uint32_add x 1 = (x + 1)%Z.
Proof.
  unfold uint32_add, uint32_max, uint32_modulus. intros Hx.
  apply Z.mod_small. lia.
Qed.

(** Along a sequence of reloads that cannot wrap the counter, the index of a
    name never decreases, and a served name stays served. *)
Lemma reloads_monotone (configs : list models_Namespace) (m m' : Manager) (nm : string) :
  reloads configs m = Returns m' →
  (0 ≤ changeIndexOf m nm)%Z →
  (changeIndexOf m nm + Z.of_nat (length configs) ≤ uint32_max)%Z →
  (changeIndexOf m nm ≤ changeIndexOf m' nm ≤ changeIndexOf m nm + Z.of_nat (length configs))%Z
  ∧ (is_Some (Manager_GetNamespace m nm) → is_Some (Manager_GetNamespace m' nm)).
Proof.
  revert m. induction configs as [|config rest IH]; intros m Hrun Hlo Hhi.
  - simpl in Hrun. injection Hrun as <-. simpl. split; [lia|done].
  - simpl in Hrun, Hhi.
    destruct (reload config m) as [[m1 err]|] eqn:Hr; [|done].
    pose proof (changeIndexOf_reload _ _ _ _ nm Hr) as Hstep.
    pose proof (served_reload _ _ _ _ nm Hr) as Hserved.
    assert (changeIndexOf m nm ≤ changeIndexOf m1 nm ≤ changeIndexOf m nm + 1)%Z as Hm1.
    { destruct Hstep as [-> | ->]; [lia|]. rewrite uint32_add_1_small; lia. }
    destruct (IH m1 Hrun) as [Hidx Hs]; [lia | lia |].
    split; [simpl length; lia | auto].
Qed.

(** C4 (as the code has it).  After a prepare followed by a commit for a
    namespace, the namespace is served with the change index of the version
    it replaces plus one on [uint32] (one when the name was not served
    before), and every other namespace is served unchanged.  As long as the
    replaced index is below [2^32 - 1] the new index is the old one plus one,
    hence strictly greater; and along any sequence of reloads that cannot
    reach [2^32 - 1], the index of every name never decreases and a served
    name stays served. *)
Theorem reload_change_index (config : models_Namespace) (m m' : Manager) :
  reload config m = Returns (m', None) →
  let old := changeIndexOf m (Name config) in
  is_Some (Manager_GetNamespace m' (Name config))
  ∧ changeIndexOf m' (Name config) = uint32_add old 1
  ∧ (Manager_GetNamespace m (Name config) = None → changeIndexOf m' (Name config) = 1%Z)
  ∧ ((0 ≤ old < uint32_max)%Z →
     changeIndexOf m' (Name config) = (old + 1)%Z ∧ (old < changeIndexOf m' (Name config))%Z)
  ∧ (∀ other, other ≠ Name config → Manager_GetNamespace m' other = Manager_GetNamespace m other)
  ∧ (∀ configs m'' nm,
       reloads configs m' = Returns m'' →
       (0 ≤ changeIndexOf m' nm)%Z →
       (changeIndexOf m' nm + Z.of_nat (length configs) ≤ uint32_max)%Z →
       (changeIndexOf m' nm ≤ changeIndexOf m'' nm)%Z
       ∧ (is_Some (Manager_GetNamespace m' nm) → is_Some (Manager_GetNamespace m'' nm))).
Proof.
  intros Hr old. pose proof Hr as Hr'.
  apply reload_ok in Hr' as [(built & _ & Hnew) Hother].
  assert (changeIndexOf m' (Name config) = uint32_add old 1) as Hidx.
  { unfold changeIndexOf at 1. by rewrite Hnew. }
  split; [by rewrite Hnew|]. split; [done|]. split; [|split; [|split]].
  - intros Hnone. rewrite Hidx. unfold old, changeIndexOf. by rewrite Hnone.
  - intros Hold. rewrite Hidx, uint32_add_1_small by done. lia.
  - done.
  - intros configs m'' nm Hrun Hlo Hhi.
    destruct (reloads_monotone configs m' m'' nm Hrun Hlo Hhi) as [? ?]. split; [lia|done].
Qed.
End Reload.

Lemma reload_change_index_witness :
  ∃ m', @reload plain_namespaces canonical_range ns1_config (ns1_manager 0) = Returns (m', None)
        ∧ changeIndexOf (ns1_manager 0) "ns1" = 2%Z
        ∧ changeIndexOf m' "ns1" = 3%Z.
Proof.
  eexists. split; [reflexivity|]. split; [reflexivity|].
  apply (@reload_change_index plain_namespaces canonical_range ns1_config (ns1_manager 0)).
  - reflexivity.
  - vm_compute. split; [discriminate|reflexivity].
Defined.

(** C4 (counterexample to the claim as stated).  A namespace whose change
    index is [2^32 - 1] is reloaded: the prepare and the commit succeed and the
    surviving version has change index [0], which is not greater than the index
    of the version it replaces. *)
Lemma reload_wraps_change_index :
  ∃ m', @reload plain_namespaces canonical_range ns1_config worn_manager = Returns (m', None)
        ∧ changeIndexOf worn_manager "ns1" = 4294967295%Z
        ∧ changeIndexOf m' "ns1" = 0%Z
        ∧ ¬ (changeIndexOf worn_manager "ns1" < changeIndexOf m' "ns1")%Z.
Proof.
  eexists. split; [reflexivity|]. split; [reflexivity|]. split; [reflexivity|].
  vm_compute. discriminate.
Qed.

(** ** Session.Close *)

Section SessionClose.
Context `{E : ExecutorOps}.

Lemma Close_closed (cc : Session) : IsClosed (Close cc) = true.
Proof. unfold Close, IsClosed. by destruct (closed cc) eqn:Hc. Qed.

(** C9. [Close] is idempotent.  On a closed session it does nothing: the
    session, its executor, the backend journal and the socket are as they
    were.  On an open session it rolls back, drops the keep-session
    connections and closes the socket once.  After any [Close], [IsClosed]
    is true, and a second [Close] leaves the state of the first. *)
Theorem Close_idempotent (cc : Session) :
  IsClosed (Close cc) = true
  ∧ Close (Close cc) = Close cc
  ∧ (if IsClosed cc then Close cc = cc
     else executor (Close cc) = handleKsQuit (rollback (executor cc)).1
          ∧ closeCalls (c (Close cc)) = S (closeCalls (c cc)))
  ∧ closeCalls (c (Close (Close cc))) = closeCalls (c (Close cc))
  ∧ executor (Close (Close cc)) = executor (Close cc).
Proof.
  assert (Close (Close cc) = Close cc) as Hidem.
  { unfold Close at 1. by rewrite Close_closed. }
  split; [apply Close_closed|]. split; [done|]. split.
  - unfold Close, IsClosed. by destruct (closed cc).
  - by rewrite Hidem.
Qed.
End SessionClose.

(** ** The connection cap of the handshake *)

Section ConnectionCap.
Context `{A : MysqlAuth, K : MysqlConst, E : ExecutorOps, N : NamespaceOps, W : Socket}.

(** C7. A handshake comes to the connection cap once the initial handshake
    packet is written, the response is read, [handleHandshakeResponse]
    accepts it and the client address is allowed.  Then: if the namespace has
    a counter of client connections and the counter is at or above
    [maxClientConnections], the handshake fails with [ErrConCount]; if the
    namespace has no counter yet, or the counter is below the limit, the
    handshake goes on to write OK and its result is the result of that
    write, which is not [ErrConCount]. *)
Theorem Handshake_connection_cap (m : Manager) (info : HandshakeResponseInfo)
    (cc cc1 : Session) :
  writeFails (written (c cc)) PktInitialHandshakeV10 = false →
  handleHandshakeResponse m info (set_c (write PktInitialHandshakeV10 (c cc)).1 cc)
    = (cc1, None) →
  IsAllowConnect m cc1 = Returns true →
  let ok := write (PktOK (status (executor cc1))) (c cc1) in
  ∃ ns, getNamespace m cc1 = Some ns
    ∧ ok.2 ≠ Some ErrConCount
    ∧ match clientConnecions (statistics m) !! namespace cc1 with
      | Some v =>
          clientConnectionReachLimit m cc1
            = Returns (bool_decide (maxClientConnections ns ≤ v)%Z, v)
          ∧ Handshake m (info, None) cc
            = if bool_decide (maxClientConnections ns ≤ v)%Z
              then Returns (cc1, Some ErrConCount)
              else Returns (set_c ok.1 cc1, ok.2)
      | None =>
          clientConnectionReachLimit m cc1 = Returns (false, 0%Z)
          ∧ Handshake m (info, None) cc = Returns (set_c ok.1 cc1, ok.2)
      end.
Proof.
  assert (∀ st cl, (write (PktOK st) cl).2 ≠ Some ErrConCount) as Hnot.
  { intros st cl. unfold write. destruct (writeFails (written cl) _); simpl; congruence. }
  intros Hw Hh Hip.
  destruct (write PktInitialHandshakeV10 (c cc)) as [cl0 e0] eqn:Hw0.
  assert (e0 = None) as ->.
  { unfold write in Hw0. rewrite Hw in Hw0. congruence. }
  simpl in Hh.
  unfold IsAllowConnect in Hip.
  destruct (getNamespace m cc1) as [ns|] eqn:Hns; [|done].
  injection Hip as Hip.
  exists ns. split; [done|]. split; [apply Hnot|].
  assert (∀ verdict,
    clientConnectionReachLimit m cc1 = Returns verdict →
    Handshake m (info, None) cc
    = if verdict.1 then Returns (cc1, Some ErrConCount)
      else Returns (set_c (write (PktOK (status (executor cc1))) (c cc1)).1 cc1,
                    (write (PktOK (status (executor cc1))) (c cc1)).2)) as Hrun.
  { intros [reach n] Hlimit. unfold Handshake. rewrite Hw0, Hh.
    unfold IsAllowConnect. rewrite Hns, Hip, Hlimit. simpl.
    destruct reach; [done|]. by destruct (write (PktOK _) _). }
  unfold clientConnectionReachLimit in *. rewrite Hns in *.
  destruct (clientConnecions (statistics m) !! namespace cc1) as [v|] eqn:Hv.
  - destruct (Z.geb_spec v (maxClientConnections ns)) as [Hge|Hlt].
    + rewrite bool_decide_eq_true_2 by lia. split; [done|].
      by rewrite (Hrun _ eq_refl).
    + rewrite bool_decide_eq_false_2 by lia. split; [done|].
      by rewrite (Hrun _ eq_refl).
  - split; [done|]. by rewrite (Hrun _ eq_refl).
Qed.
End ConnectionCap.

Lemma Handshake_connection_cap_witness :
  @Handshake toy_auth mysql_protocol plain_executor plain_namespaces reliable_socket
    (ns1_manager 2) (u_login, None) fresh_session
  = Returns (logged_in_session, Some ErrConCount).
Proof.
  pose proof (@Handshake_connection_cap toy_auth mysql_protocol plain_executor
                plain_namespaces reliable_socket (ns1_manager 2) u_login fresh_session
                logged_in_session eq_refl eq_refl eq_refl) as (ns & Hns & _ & Hrun).
  injection Hns as <-. exact (proj2 Hrun).
Defined.

(** ** The authentication order of the handshake *)

Section Authentication.
Context `{A : MysqlAuth, K : MysqlConst, E : ExecutorOps}.

Lemma length_zero_iff_empty (s : string) : (String.length s =? 0)%nat = true ↔ s = "".
Proof. destruct s; simpl; split; congruence. Qed.

(** The password check of the code selects and runs the scheme that the
    specification names. *)
Lemma check_password_scheme (m : Manager) (info : HandshakeResponseInfo) :
  check_password m info
  = run_scheme (selected_scheme (AuthPlugin info) (AuthResponse info))
               (slot (switchIndex m) (mgr_users m)) (User info) (Salt info)
               (AuthResponse info).
Proof.
  unfold check_password, selected_scheme, run_scheme, Manager_CheckSha2Password,
    Manager_CheckHashPassword, Manager_CheckPassword. simpl.
  destruct (String.length (AuthPlugin info) =? 0)%nat eqn:Hlen.
  - apply length_zero_iff_empty in Hlen. rewrite decide_True by done.
    destruct (Nat.eqb_spec (length (AuthResponse info)) 32) as [H32|H32].
    + by rewrite decide_True.
    + rewrite decide_False by done.
      by destruct (UserManager_CheckHashPassword _ _ _ _) as [[] password].
  - rewrite decide_False; [|by intros Hempty%length_zero_iff_empty; congruence].
    destruct (String.eqb_spec (AuthPlugin info) CachingSHA2Password) as [Heq|Hne].
    + by rewrite decide_True.
    + by rewrite decide_False.
Qed.

Lemma Manager_CheckUser_spec (m : Manager) (user : string) :
  Manager_CheckUser m user = true
  ↔ is_Some (users (slot (switchIndex m) (mgr_users m)) !! user).
Proof. unfold Manager_CheckUser, UserManager_CheckUser. simpl. apply bool_decide_eq_true. Qed.

(** C3. Authentication of a handshake response proceeds in this order.  A
    user that is not in the [users] map is denied, before any password is
    looked at.  Otherwise the scheme is selected: empty plugin field and an
    auth response of 32 bytes, the SHA-256 caching scheme; empty plugin field
    and any other length, the native-hash verification and, when it fails,
    the classic scheme; plugin [caching_sha2_password], the SHA-256 scheme;
    any other plugin, the classic scheme.  When the selected scheme accepts no
    password of the user the result is access denied; when it accepts one,
    the handshake is not denied and, if it goes through, the namespace is the
    one of the user and that password. *)
Theorem handleHandshakeResponse_authentication (m : Manager) (info : HandshakeResponseInfo)
    (cc : Session) :
  let u := slot (switchIndex m) (mgr_users m) in
  let outcome := handleHandshakeResponse m info cc in
  check_password m info
  = run_scheme (selected_scheme (AuthPlugin info) (AuthResponse info)) u
               (User info) (Salt info) (AuthResponse info)
  ∧ (if decide (is_Some (users u !! User info)) then True
     else outcome = (cc, Some ErrAccessDenied))
  ∧ match authenticate u info with
    | inl denial => denial = ErrAccessDenied ∧ outcome.2 = Some ErrAccessDenied
    | inr password =>
        outcome.2 ≠ Some ErrAccessDenied
        ∧ match outcome.2 with
          | Some _ => True
          | None => namespace outcome.1 = Manager_GetNamespaceByUser m (User info) password
          end
    end.
Proof.
  intros u outcome. subst u outcome. split; [apply check_password_scheme|].
  unfold authenticate, handleHandshakeResponse.
  rewrite <- (check_password_scheme m info).
  destruct (Manager_CheckUser m (User info)) eqn:Huser.
  - apply Manager_CheckUser_spec in Huser.
    rewrite !decide_True by done. split; [done|]. simpl.
    destruct (check_password m info) as [[] password]; simpl; [|by split].
    destruct (Collations (CollationID info)) as [collationName|]; [|by split].
    destruct (CollationNameToCharset collationName) as [charset|]; by split.
  - rewrite !decide_False; [by repeat split| |].
    all: intros Hin; apply Manager_CheckUser_spec in Hin; congruence.
Qed.
End Authentication.

(** ** Namespace reloads seen from a session *)

Section ReloadRule.
Context `{E : ExecutorOps, R : GoRange, W : Socket, N : NamespaceOps, K : MysqlConst}.

Lemma ksConn_calls_cover (conns : gmap string PooledConnect) (slice : string)
    (pc : PooledConnect) :
  conns !! slice = Some pc →
  CallClose pc ∈ ksConn_calls conns ∧ CallRecycle pc ∈ ksConn_calls conns.
Proof.
  intros Hpc. apply elem_of_range_of in Hpc. unfold ksConn_calls.
  split; apply list_elem_of_In, in_flat_map; exists (slice, pc);
    (split; [by apply list_elem_of_In|]); simpl; auto.
Qed.

(** In a transaction [clearKsConns] leaves the session alone. *)
Lemma clearKsConns_in_transaction (m : Manager) (idx : Z) (cc : Session) (ns : Namespace) :
  getNamespace m cc = Some ns → isInTransaction (executor cc) = true →
  clearKsConns m idx cc = Returns cc.
Proof.
  intros Hns Htx. unfold clearKsConns. rewrite Hns, Htx.
  destruct (IsKeepSession (executor cc)); [|done]. by rewrite andb_false_r.
Qed.

(** Whatever [clearKsConns] does, the session is closed after the [Close]
    that follows it in [Run]. *)
Lemma closed_after_clear (m : Manager) (idx : Z) (cc : Session) :
  closed match clearKsConns m idx cc with
         | Panics => Close cc
         | Returns cc' => Close cc'
         end = true.
Proof. destruct (clearKsConns m idx cc); apply Close_closed. Qed.

(** What [writeResponse] leaves of the session: the deferred recycling, and
    the test that ends the iteration of [Run] reads the executor as the
    command left it. *)
Lemma writeResponse_keeps (m : Manager) (rs : Response) (cc2 : Session) :
  closed (writeResponse m rs cc2).1 = closed cc2
  ∧ executor (writeResponse m rs cc2).1 = recycleBackendConn (continueConn cc2) (executor cc2).
Proof. unfold writeResponse. by destruct (writeResponse_switch m rs cc2) as [[cl err]|]. Qed.

Lemma shouldClear_after_write (m : Manager) (rs : Response) (cc2 : Session) :
  ExecutorFrame →
  shouldClearKsAndCloseSession m (nsChangeIndexOld (executor (writeResponse m rs cc2).1))
                               (writeResponse m rs cc2).1
  = shouldClearKsAndCloseSession m (nsChangeIndexOld (executor cc2)) cc2.
Proof.
  intros [Hst Hrk Hrs Hrn Hri].
  unfold shouldClearKsAndCloseSession, SessionExecutor_GetNamespace.
  rewrite (proj2 (writeResponse_keeps m rs cc2)).
  by rewrite Hrk, (Hst _ (executor cc2) (Hrs _ _)), Hrn, Hri.
Qed.

(** The iteration once the command is executed by [ExecuteCommand]. *)
Lemma dispatch_executed (m : Manager) (cmd : Byte.byte) (data : bytes) (cc cc1 : Session) :
  clearKsConns m (nsChangeIndexOld (executor cc)) cc = Returns cc1 →
  execCommand m cmd data cc1 = Returns (ExecuteCommand m cmd data cc1) →
  dispatch m (cmd :: data) cc
  = match writeResponse m (ExecuteCommand m cmd data cc1).1 (ExecuteCommand m cmd data cc1).2 with
    | (cc3, Panics) => Close cc3
    | (cc3, Returns (Some err)) =>
        match clearKsConns m (nsChangeIndexOld (executor cc3)) cc3 with
        | Panics => Close cc3
        | Returns cc4 => Close cc4
        end
    | (cc3, Returns None) =>
        if bool_decide (cmd = ComQuit) then Close cc3
        else match shouldClearKsAndCloseSession m (nsChangeIndexOld (executor cc3)) cc3 with
             | Panics => Close cc3
             | Returns true => Close cc3
             | Returns false => cc3
             end
    end.
Proof.
  intros Hclear Hexec. unfold dispatch. rewrite Hclear, Hexec.
  by destruct (ExecuteCommand m cmd data cc1) as [rs cc2].
Qed.

(** C1 (as the code has it).  The session observed a change index below the
    one of its current namespace.

    In keep-session mode and in a transaction: the command is not executed but
    answered with [ErrTxNsChanged], and the session is closed at the end of
    the iteration, whether or not the answer could be written.

    In keep-session mode and outside a transaction: [clearKsConns] closes and
    recycles every connection of [ksConns] and empties the map, does not close
    the session, and the command is executed.  The rule is then tested again,
    on the state the command left and against the index observed before the
    reload: the session is open after the iteration exactly when the response
    was written, the command is not COM_QUIT, the command left the session
    open and the test is false, which it is when the command leaves the
    session outside a transaction; when the command leaves the keep-session
    session in a transaction (it started one), the session is closed.

    Outside keep-session mode the rule does nothing: nothing is cleared, the
    test is false, the command is executed, and (the command leaving the mode
    as it is) the iteration closes the session only for a failed write or
    COM_QUIT. *)
Theorem keep_session_reload_rule (m : Manager) (cmd : Byte.byte) (data : bytes)
    (cc : Session) (ns : Namespace) :
  ExecutorFrame →
  getNamespace m cc = Some ns →
  SessionExecutor_GetNamespace m (executor cc) = Some ns →
  (nsChangeIndexOld (executor cc) < namespaceChangeIndex ns)%Z →
  if IsKeepSession (executor cc) then
    if isInTransaction (executor cc) then
      execCommand m cmd data cc
        = Returns (CreateErrorResponse (status (executor cc)) ErrTxNsChanged, cc)
      ∧ closed (dispatch m (cmd :: data) cc) = true
      ∧ (written (c (dispatch m (cmd :: data) cc))
           = written (c cc) ++ [PktError ErrTxNsChanged]
         ∨ writeFails (written (c cc)) (PktError ErrTxNsChanged) = true)
    else
      ∃ cc1,
        clearKsConns m (nsChangeIndexOld (executor cc)) cc = Returns cc1
        ∧ ksConns (executor cc1) = ∅
        ∧ backendCalls (executor cc1)
          = backendCalls (executor cc) ++ ksConn_calls (ksConns (executor cc))
        ∧ (∀ slice pc, ksConns (executor cc) !! slice = Some pc →
             CallClose pc ∈ ksConn_calls (ksConns (executor cc))
             ∧ CallRecycle pc ∈ ksConn_calls (ksConns (executor cc)))
        ∧ closed cc1 = closed cc
        ∧ execCommand m cmd data cc1 = Returns (ExecuteCommand m cmd data cc1)
        ∧ let left := (ExecuteCommand m cmd data cc1).2 in
          let sent := writeResponse m (ExecuteCommand m cmd data cc1).1 left in
          (closed (dispatch m (cmd :: data) cc) = false
           ↔ sent.2 = Returns None ∧ cmd ≠ ComQuit ∧ closed left = false
             ∧ shouldClearKsAndCloseSession m (nsChangeIndexOld (executor left)) left
               = Returns false)
          ∧ (closed (dispatch m (cmd :: data) cc) = false →
             dispatch m (cmd :: data) cc = sent.1)
          ∧ (isInTransaction (executor left) = false →
             shouldClearKsAndCloseSession m (nsChangeIndexOld (executor left)) left
             = Returns false)
          ∧ (IsKeepSession (executor left) = true →
             isInTransaction (executor left) = true →
             se_namespace (executor left) = se_namespace (executor cc) →
             nsChangeIndexOld (executor left) = nsChangeIndexOld (executor cc) →
             closed (dispatch m (cmd :: data) cc) = true)
  else
    (∀ idx, clearKsConns m idx cc = Returns cc)
    ∧ (∀ idx, shouldClearKsAndCloseSession m idx cc = Returns false)
    ∧ execCommand m cmd data cc = Returns (ExecuteCommand m cmd data cc)
    ∧ let left := (ExecuteCommand m cmd data cc).2 in
      let sent := writeResponse m (ExecuteCommand m cmd data cc).1 left in
      (IsKeepSession (executor left) = false →
       dispatch m (cmd :: data) cc
       = match sent.2 with
         | Returns None => if bool_decide (cmd = ComQuit) then Close sent.1 else sent.1
         | _ => Close sent.1
         end).
Proof.
  intros Hframe Hns Hsens Hlt. pose proof Hframe as [Hst Hrk Hrs Hrn Hri].
  assert ((namespaceChangeIndex ns >? nsChangeIndexOld (executor cc))%Z = true) as Hgt
    by (apply Z.gtb_lt; lia).
  destruct (IsKeepSession (executor cc)) eqn:Hkeep.
  - destruct (isInTransaction (executor cc)) eqn:Htx.
    + assert (execCommand m cmd data cc
              = Returns (CreateErrorResponse (status (executor cc)) ErrTxNsChanged, cc))
        as Hexec.
      { unfold execCommand, shouldClearKsAndCloseSession.
        by rewrite Hkeep, Htx, Hsens, Hgt. }
      split; [done|].
      unfold dispatch.
      rewrite (clearKsConns_in_transaction m _ cc ns Hns Htx), Hexec.
      unfold writeResponse, CreateErrorResponse. simpl. unfold write.
      destruct (writeFails (written (c cc)) (PktError ErrTxNsChanged)) eqn:Hw; simpl.
      * split; [apply closed_after_clear | by right].
      * assert (shouldClearKsAndCloseSession m
                  (nsChangeIndexOld (recycleBackendConn (continueConn cc) (executor cc)))
                  {| c := {| capability := capability (c cc); remoteAddr := remoteAddr (c cc);
                             written := written (c cc) ++ [PktError ErrTxNsChanged];
                             closeCalls := closeCalls (c cc) |};
                     namespace := namespace cc;
                     executor := recycleBackendConn (continueConn cc) (executor cc);
                     closed := closed cc; continueConn := None |}
                = Returns true) as ->.
        { unfold shouldClearKsAndCloseSession, SessionExecutor_GetNamespace in *. simpl.
          rewrite Hrk, (Hst _ (executor cc)) by apply Hrs.
          by rewrite Hrn, Hri, Hkeep, Htx, Hsens, Hgt. }
        destruct (bool_decide (cmd = ComQuit)).
        -- split; [apply Close_closed|]. left. unfold Close, IsClosed. simpl.
           by destruct (closed cc).
        -- split; [apply Close_closed|]. left. unfold Close, IsClosed. simpl.
           by destruct (closed cc).
    + assert (clearKsConns m (nsChangeIndexOld (executor cc)) cc
              = Returns (set_executor
                           (set_ksConns ∅ (issue (ksConn_calls (ksConns (executor cc)))
                                                  (executor cc))) cc)) as Hclear.
      { unfold clearKsConns. by rewrite Hkeep, Hns, Hgt, Htx. }
      eexists. split; [exact Hclear|]. split; [done|]. split; [done|].
      split; [intros slice pc; apply ksConn_calls_cover|]. split; [done|].
      set (cc1 := set_executor _ cc) in *.
      assert (execCommand m cmd data cc1 = Returns (ExecuteCommand m cmd data cc1)) as Hexec.
      { unfold execCommand, shouldClearKsAndCloseSession. subst cc1. simpl.
        rewrite (Hst _ (executor cc)) by done. by rewrite Htx, andb_false_r. }
      split; [exact Hexec|].
      rewrite (dispatch_executed m cmd data cc cc1 Hclear Hexec).
      destruct (ExecuteCommand m cmd data cc1) as [rs cc2]. cbn [fst snd].
      pose proof (shouldClear_after_write m rs cc2 Hframe) as Hsame.
      pose proof (proj1 (writeResponse_keeps m rs cc2)) as Hcl.
      destruct (writeResponse m rs cc2) as [cc3 w]. cbn [fst snd] in *.
      rewrite <- Hsame, <- Hcl.
      assert (shouldClearKsAndCloseSession m (nsChangeIndexOld (executor cc2)) cc2
              = shouldClearKsAndCloseSession m (nsChangeIndexOld (executor cc3)) cc3)
        as Hsame' by done.
      split; [|split; [|split]].
      * destruct w as [[err|]|].
        -- rewrite closed_after_clear. split; [done|]. by intros [? _].
        -- destruct (bool_decide (cmd = ComQuit)) eqn:Hquit.
           ++ rewrite Close_closed. split; [done|]. intros (_ & Hne & _).
              by apply bool_decide_eq_true in Hquit.
           ++ apply bool_decide_eq_false in Hquit.
              destruct (shouldClearKsAndCloseSession m _ cc3) as [[|]|].
              ** rewrite Close_closed. split; [done|]. by intros (_ & _ & _ & ?).
              ** split; [by intros ->|]. by intros (_ & _ & ? & _).
              ** rewrite Close_closed. split; [done|]. by intros (_ & _ & _ & ?).
        -- rewrite Close_closed. split; [done|]. by intros [? _].
      * destruct w as [[err|]|].
        -- by rewrite closed_after_clear.
        -- destruct (bool_decide (cmd = ComQuit)); [by rewrite Close_closed|].
           destruct (shouldClearKsAndCloseSession m _ cc3) as [[|]|];
             [by rewrite Close_closed|done|by rewrite Close_closed].
        -- by rewrite Close_closed.
      * intros Hidle. rewrite Hsame. unfold shouldClearKsAndCloseSession.
        by rewrite Hidle, andb_false_r.
      * intros Hkeep2 Htx2 Hnm2 Hidx2.
        assert (shouldClearKsAndCloseSession m (nsChangeIndexOld (executor cc3)) cc3
                = Returns true) as Hclose.
        { rewrite Hsame. unfold shouldClearKsAndCloseSession, SessionExecutor_GetNamespace in *.
          by rewrite Hkeep2, Htx2, Hnm2, Hsens, Hidx2, Hgt. }
        destruct w as [[err|]|].
        -- apply closed_after_clear.
        -- rewrite Hclose. destruct (bool_decide (cmd = ComQuit)); apply Close_closed.
        -- apply Close_closed.
  - assert (∀ idx, clearKsConns m idx cc = Returns cc) as Hclear.
    { intros idx. unfold clearKsConns. by rewrite Hkeep. }
    assert (∀ idx, shouldClearKsAndCloseSession m idx cc = Returns false) as Hshould.
    { intros idx. unfold shouldClearKsAndCloseSession. by rewrite Hkeep. }
    assert (execCommand m cmd data cc = Returns (ExecuteCommand m cmd data cc)) as Hexec.
    { unfold execCommand. by rewrite Hshould. }
    split; [done|]. split; [done|]. split; [done|].
    rewrite (dispatch_executed m cmd data cc cc (Hclear _) Hexec).
    destruct (ExecuteCommand m cmd data cc) as [rs cc2]. cbn [fst snd].
    intros Hkeep2.
    pose proof (proj2 (writeResponse_keeps m rs cc2)) as Hex.
    destruct (writeResponse m rs cc2) as [cc3 w]. cbn [fst snd] in *.
    assert (IsKeepSession (executor cc3) = false) as Hkeep3 by (by rewrite Hex, Hrk).
    destruct w as [[err|]|]; [| |done].
    + unfold clearKsConns. by rewrite Hkeep3.
    + unfold shouldClearKsAndCloseSession. by rewrite Hkeep3.
Qed.
End ReloadRule.

Lemma keep_session_reload_rule_witness :
  closed (@dispatch keep_session_executor canonical_range reliable_socket plain_namespaces
            mysql_protocol (ns1_manager 0) [Byte.x03; Byte.x31] sample_session) = true.
Proof.
  assert (@ExecutorFrame keep_session_executor) as Hframe.
  { split; simpl; intros; try reflexivity. f_equal. f_equal. f_equal. assumption. }
  pose proof (@keep_session_reload_rule keep_session_executor canonical_range reliable_socket
                plain_namespaces mysql_protocol (ns1_manager 0) Byte.x03 [Byte.x31]
                sample_session ns1_v2 Hframe eq_refl eq_refl eq_refl) as Hrule.
  exact (proj1 (proj2 Hrule)).
Defined.

(** C1 (counterexamples to the claim as stated).  The namespace [ns1] is
    served at change index [2] and the session last saw change index [1].

    A session that is not in keep-session mode and is in a transaction
    (status IN_TRANS): the next command is executed and answered OK, not
    [ErrTxNsChanged], and the session is still open after the iteration.

    A keep-session session outside a transaction, whose next command starts a
    transaction: the command is executed and answered OK, and the session is
    closed at the end of the iteration, it does not stay open. *)
Lemma reload_rule_deviations :
  (nsChangeIndexOld (executor sample_session) < changeIndexOf (ns1_manager 0) "ns1")%Z
  ∧ @isInTransaction plain_executor (executor sample_session) = true
  ∧ @execCommand plain_executor (ns1_manager 0) Byte.x03 [Byte.x31] sample_session
    = Returns (RespOK 3, sample_session)
  ∧ closed (@dispatch plain_executor canonical_range reliable_socket plain_namespaces
              mysql_protocol (ns1_manager 0) [Byte.x03; Byte.x31] sample_session) = false
  ∧ written (c (@dispatch plain_executor canonical_range reliable_socket plain_namespaces
                  mysql_protocol (ns1_manager 0) [Byte.x03; Byte.x31] sample_session))
    = [PktOK 3]
  ∧ (nsChangeIndexOld (executor idle_session) < changeIndexOf (ns1_manager 0) "ns1")%Z
  ∧ @IsKeepSession starting_executor (executor idle_session) = true
  ∧ @isInTransaction starting_executor (executor idle_session) = false
  ∧ closed idle_session = false
  ∧ written (c (@dispatch starting_executor canonical_range reliable_socket plain_namespaces
                  mysql_protocol (ns1_manager 0) [Byte.x03; Byte.x31] idle_session))
    = [PktOK 3]
  ∧ closed (@dispatch starting_executor canonical_range reliable_socket plain_namespaces
              mysql_protocol (ns1_manager 0) [Byte.x03; Byte.x31] idle_session) = true.
Proof. repeat split. Qed.

(** ** The QPS limiter of handleQuery *)

Section QpsLimit.
Context `{Q : QueryOps, K : MysqlConst, W : Socket, N : NamespaceOps, E : ExecutorOps}.

(** A session-close error makes [writeResponse] fail, which makes [Run]
    close the session; any other error is written as an ERR packet and
    [writeResponse] fails only if that write does. *)
Lemma writeResponse_error (m : Manager) (st : Z) (e : Error) (cc : Session) :
  (writeResponse m (RespError st (Some e)) cc).2
  = match e with
    | SessionCloseRespError _ | SessionCloseNoRespError _ => Returns (Some e)
    | _ => Returns (write (PktError e) (c cc)).2
    end.
Proof.
  unfold writeResponse. destruct e; simpl; try done;
    by destruct (write _ (c cc)) as [cl err].
Qed.

(** C2 (as the code has it).  With [clientQPSLimit > 0]:
    - [supportLimitTx] and an empty bucket: in a transaction [handleQuery]
      returns [ErrClientQpsLimitedMsg] wrapped as a session-close error;
      outside a transaction it returns the bare [ErrClientQpsLimitedMsg];
    - no [supportLimitTx], outside a transaction, empty bucket: it returns
      the bare [ErrClientQpsLimitedMsg];
    - in every other case the query is let through: with [supportLimitTx] (in
      or outside a transaction), or without it outside a transaction, it
      costs one token; without [supportLimitTx] in a transaction the limiter
      is not consulted.
    In the refused cases neither the session nor the limiter changes.  The
    wrapped error makes [writeResponse] fail, so that [Run] closes the
    session; the bare one is written as an ERR packet and the session goes
    on. *)
Theorem handleQuery_qps_limit (m : Manager) (lim : Limiter) (sql : string) (cc : Session)
    (ns : Namespace) :
  SessionExecutor_GetNamespace m (executor cc) = Some ns →
  (0 < clientQPSLimit ns)%Z →
  let let_through (lim' : Limiter) :=
    ((execute_query m ns (TrimRight_semicolon sql) cc).1, lim',
     (execute_query m ns (TrimRight_semicolon sql) cc).2) in
  handleQuery m lim sql cc
  = match supportLimitTx ns, isInTransaction (executor cc), tokens lim with
    | true, true, O => (cc, lim, (None, Some (SessionCloseRespError ErrClientQpsLimitedMsg)))
    | true, false, O => (cc, lim, (None, Some ErrClientQpsLimitedMsg))
    | false, false, O => (cc, lim, (None, Some ErrClientQpsLimitedMsg))
    | true, _, S n => let_through {| tokens := n |}
    | false, false, S n => let_through {| tokens := n |}
    | false, true, _ => let_through lim
    end
  ∧ (∀ st cc',
       (writeResponse m (RespError st (Some (SessionCloseRespError ErrClientQpsLimitedMsg))) cc').2
       = Returns (Some (SessionCloseRespError ErrClientQpsLimitedMsg))
       ∧ (writeResponse m (RespError st (Some ErrClientQpsLimitedMsg)) cc').2
         = Returns (write (PktError ErrClientQpsLimitedMsg) (c cc')).2).
Proof.
  intros Hns Hqps let_through. split; [|intros st cc'; by rewrite !writeResponse_error].
  subst let_through. unfold handleQuery. rewrite Hns.
  replace (clientQPSLimit ns >? 0)%Z with true by (symmetry; apply Z.gtb_lt; lia).
  unfold Limiter_Allow. simpl.
  destruct (supportLimitTx ns), (isInTransaction (executor cc)),
    lim as [[|n]]; simpl; try done;
    by destruct (execute_query m ns (TrimRight_semicolon sql) cc) as [cc' res].
Qed.
End QpsLimit.

Lemma handleQuery_qps_limit_witness :
  @handleQuery sample_queries mysql_protocol reliable_socket plain_namespaces plain_executor
    (ns1_manager 0) {| tokens := 0 |} "select 1;" sample_session
  = (sample_session, {| tokens := 0 |},
     (None, Some (SessionCloseRespError ErrClientQpsLimitedMsg))).
Proof.
  exact (proj1 (@handleQuery_qps_limit sample_queries mysql_protocol reliable_socket
                  plain_namespaces plain_executor (ns1_manager 0) {| tokens := 0 |}
                  "select 1;" sample_session ns1_v2 eq_refl eq_refl)).
Defined.

(** C2 (counterexample to the claim as stated).  The namespace limits
    transactions too ([supportLimitTx]), the client is not in a transaction and
    the bucket is empty: this is none of the two refusals of the claim, yet the
    query is refused with [ErrClientQpsLimitedMsg] and not executed (executed,
    it would have returned the result [1]). *)
Lemma qps_limit_refuses_idle_client :
  supportLimitTx ns1_v2 = true
  ∧ @isInTransaction plain_executor (executor idle_session) = false
  ∧ @handleQuery sample_queries mysql_protocol reliable_socket plain_namespaces plain_executor
      (ns1_manager 0) {| tokens := 0 |} "select 1;" idle_session
    = (idle_session, {| tokens := 0 |}, (None, Some ErrClientQpsLimitedMsg))
  ∧ (@execute_query sample_queries mysql_protocol reliable_socket plain_namespaces
       plain_executor (ns1_manager 0) ns1_v2 "select 1" idle_session).2
    = (Some 1%N, None).
Proof. repeat split. Qed.

(** ** Multi-statement queries *)

Section MultiStatements.
Context `{Q : QueryOps, K : MysqlConst, W : Socket, N : NamespaceOps, E : ExecutorOps}.




End MultiStatements.


(** * Further properties of the code *)

(** ** Keys of the user matrix *)

Lemma strings_Split_nonempty (sep : ascii) (s : string) : strings_Split sep s ≠ [].
Proof.
  destruct s as [|ch rest]; simpl; [done|].
  destruct (Ascii.eqb ch sep); [done|]. by destruct (strings_Split sep rest).
Qed.

(** Splitting at a separator splits what is before it and what is after it. *)
Lemma strings_Split_app (sep : ascii) (a b : string) :
  strings_Split sep (a +:+ String sep b) = strings_Split sep a ++ strings_Split sep b.
Proof.
  induction a as [|ch rest IH]; simpl.
  - by rewrite Ascii.eqb_refl.
  - rewrite IH. destruct (Ascii.eqb ch sep); [done|].
    pose proof (strings_Split_nonempty sep rest) as Hne.
    by destruct (strings_Split sep rest).
Qed.

(** No piece of a split contains the separator. *)
Lemma strings_Split_pieces (sep : ascii) (s : string) :
  Forall (λ w, contains_byte sep w = false) (strings_Split sep s).
Proof.
  induction s as [|ch rest IH]; simpl.
  - by constructor.
  - destruct (Ascii.eqb ch sep) eqn:Hch; [by constructor|].
    destruct (strings_Split sep rest) as [|w ws]; [by repeat constructor; simpl; rewrite Hch|].
    inversion IH as [|? ? Hw Hws]; subst. constructor; [|done]. simpl. by rewrite Hch, Hw.
Qed.

Lemma contains_byte_split (sep : ascii) (s : string) :
  contains_byte sep s = true → ∃ a b, s = a +:+ String sep b.
Proof.
  induction s as [|ch rest IH]; simpl; [done|].
  destruct (Ascii.eqb_spec ch sep) as [->|Hne]; simpl.
  - intros _. by exists "", rest.
  - intros (a & b & ->)%IH. by exists (String ch a), b.
Qed.

Lemma contains_byte_app (sep : ascii) (a b : string) :
  contains_byte sep (a +:+ String sep b) = true.
Proof.
  induction a as [|ch rest IH]; simpl; [by rewrite Ascii.eqb_refl|].
  by rewrite IH, orb_true_r.
Qed.

(** A key that contains the separator splits into a user and a password. *)
Lemma getUserAndPasswordFromKey_total (key : string) :
  contains_byte ":" key = true → is_Some (getUserAndPasswordFromKey key).
Proof.
  intros (a & b & ->)%contains_byte_split. unfold getUserAndPasswordFromKey.
  rewrite strings_Split_app.
  pose proof (strings_Split_nonempty ":" a) as Ha.
  pose proof (strings_Split_nonempty ":" b) as Hb.
  destruct (strings_Split ":" a) as [|w [|w2 ws]]; [done| |by eexists].
  destruct (strings_Split ":" b) as [|w' ws']; [done|]. by eexists.
Qed.

(** X1. [getUserAndPasswordFromKey] never panics on a key built by
    [getUserKey], and it gives back the user name and the password exactly
    when neither of them contains [:]. *)
Theorem getUserKey_round_trip (usr p : string) :
  is_Some (getUserAndPasswordFromKey (getUserKey usr p))
  ∧ (getUserAndPasswordFromKey (getUserKey usr p) = Some (usr, p)
     ↔ contains_byte ":" usr = false ∧ contains_byte ":" p = false).
Proof.
  split.
  - apply getUserAndPasswordFromKey_total. apply contains_byte_app.
  - split.
    + unfold getUserAndPasswordFromKey.
      pose proof (strings_Split_pieces ":" (getUserKey usr p)) as Hpieces.
      destruct (strings_Split ":" (getUserKey usr p)) as [|w [|w2 ws]]; [done|done|].
      intros [= -> ->].
      inversion Hpieces as [|? ? Hw Hrest]; subst.
      inversion Hrest as [|? ? Hw2 _]; subst. done.
    + intros [Husr Hp]. by apply getUserAndPasswordFromKey_getUserKey.
Qed.

(** ** ClearNamespaceUsers on every input *)

Lemma clear_entries_map (cleared : string) (entries : list (string * string)) :
  ∀ u u' : UserManager,
    clear_entries cleared entries u = Some u' →
    (∀ key, userNamespaces u' !! key
            = if decide ((key, cleared) ∈ entries) then None else userNamespaces u !! key)
    ∧ dom (users u) ⊆ dom (users u').
Proof.
  induction entries as [|[k ns] rest IH]; intros u u' Hrun; simpl in Hrun.
  - injection Hrun as <-. split; [|done]. intros key.
    rewrite decide_False; [done|]. by intros ?%elem_of_nil.
  - destruct (String.eqb_spec ns cleared) as [->|Hns].
    + destruct (getUserAndPasswordFromKey k) as [[username password]|]; [|done].
      apply IH in Hrun as [Hmap Hdom]. simpl in *. split.
      * intros key. rewrite Hmap.
        destruct (decide (key = k)) as [->|Hne].
        -- rewrite (decide_True (P := (k, cleared) ∈ (k, cleared) :: rest))
             by (apply elem_of_cons; by left).
           rewrite lookup_delete_eq. by destruct (decide _).
        -- rewrite lookup_delete_ne by done.
           destruct (decide ((key, cleared) ∈ rest)) as [Hin|Hnin].
           ++ rewrite decide_True; [done|]. apply elem_of_cons. by right.
           ++ rewrite decide_False; [done|].
              intros [Heq|Hin]%elem_of_cons; [congruence|done].
      * etrans; [|exact Hdom]. intros x Hx. rewrite dom_insert. apply elem_of_union. by right.
    + apply IH in Hrun as [Hmap Hdom]. split; [|done].
      intros key. rewrite Hmap.
      destruct (decide ((key, cleared) ∈ rest)) as [Hin|Hnin].
      * rewrite decide_True; [done|]. apply elem_of_cons. by right.
      * rewrite decide_False; [done|].
        intros [Heq|Hin]%elem_of_cons; [congruence|done].
Qed.

Lemma clear_entries_total (cleared : string) (entries : list (string * string)) :
  ∀ u : UserManager,
    (∀ key, (key, cleared) ∈ entries → contains_byte ":" key = true) →
    is_Some (clear_entries cleared entries u).
Proof.
  induction entries as [|[k ns] rest IH]; intros u Hsep; simpl; [done|].
  destruct (String.eqb_spec ns cleared) as [->|Hns].
  - destruct (getUserAndPasswordFromKey_total k) as [[username password] ->].
    { apply Hsep. apply elem_of_cons. by left. }
    apply IH. intros key Hin. apply Hsep. apply elem_of_cons. by right.
  - apply IH. intros key Hin. apply Hsep. apply elem_of_cons. by right.
Qed.

Section ClearEveryInput.
Context `{R : GoRange}.

(** X2. Whatever the user names and passwords are, when
    [ClearNamespaceUsers] returns, [userNamespaces] has lost exactly the keys
    of the cleared namespace: no key names that namespace any more and every
    other key names the namespace it named.  No user name leaves [users]: a
    user whose passwords were all removed is still known to [CheckUser]. *)
Theorem ClearNamespaceUsers_userNamespaces (cleared : string) (u u' : UserManager) :
  ClearNamespaceUsers cleared u = Some u' →
  userNamespaces u' = filter (λ entry, entry.2 ≠ cleared) (userNamespaces u)
  ∧ (∀ user, UserManager_CheckUser u user = true → UserManager_CheckUser u' user = true).
Proof.
  intros Hrun. apply clear_entries_map in Hrun as [Hmap Hdom]. split.
  - apply map_eq. intros key. rewrite Hmap.
    destruct (decide ((key, cleared) ∈ range_of (userNamespaces u))) as [Hin|Hnin].
    + apply elem_of_range_of in Hin. symmetry. apply map_lookup_filter_None. right.
      intros ns Hns. simpl. rewrite Hin in Hns. injection Hns as <-. by intros ?.
    + destruct (userNamespaces u !! key) as [ns|] eqn:Hkey.
      * symmetry. apply map_lookup_filter_Some. split; [done|]. simpl.
        intros ->. apply Hnin. by apply elem_of_range_of.
      * symmetry. apply map_lookup_filter_None. by left.
  - intros user. unfold UserManager_CheckUser. rewrite !bool_decide_eq_true.
    rewrite <- !elem_of_dom. apply Hdom.
Qed.

(** X3. [ClearNamespaceUsers] does not panic when every key of
    [userNamespaces] contains [:], and the keys that remain still do. *)
Theorem ClearNamespaceUsers_total (cleared : string) (u : UserManager) :
  keys_have_sep u →
  ∃ u', ClearNamespaceUsers cleared u = Some u' ∧ keys_have_sep u'.
Proof.
  intros Hsep.
  destruct (clear_entries_total cleared (range_of (userNamespaces u)) u) as [u' Hrun].
  { intros key Hin%elem_of_range_of. by eapply Hsep. }
  exists u'. split; [done|].
  apply ClearNamespaceUsers_userNamespaces in Hrun as [Hmap _].
  intros key ns. rewrite Hmap. intros [Hin _]%map_lookup_filter_Some. by eapply Hsep.
Qed.
End ClearEveryInput.

Lemma ClearNamespaceUsers_userNamespaces_witness :
  userNamespaces tidy_users_cleared
  = filter (λ entry, entry.2 ≠ "N") (userNamespaces tidy_users).
Proof.
  apply (@ClearNamespaceUsers_userNamespaces canonical_range "N" tidy_users tidy_users_cleared).
  vm_compute. reflexivity.
Defined.

Lemma ClearNamespaceUsers_total_witness :
  ∃ u', @ClearNamespaceUsers canonical_range "N" tidy_users = Some u' ∧ keys_have_sep u'.
Proof.
  apply (@ClearNamespaceUsers_total canonical_range "N" tidy_users).
  change (map_Forall (λ key (_ : string), contains_byte ":" key = true)
                     (userNamespaces tidy_users)).
  refine (bool_decide_unpack _ _). vm_compute. exact I.
Defined.

Lemma ClearNamespaceUsers_keeps_foreign_pairs_witness :
  ∃ u', @ClearNamespaceUsers canonical_range "N" tidy_users = Some u'
        ∧ UserManager_GetNamespaceByUser u' "u" "q" = "M"
        ∧ "q" ∈ default [] (users u' !! "u").
Proof.
  apply (@ClearNamespaceUsers_keeps_foreign_pairs canonical_range "N" "u" "q" "M" tidy_users).
  - intros key Hkey. apply elem_of_map_to_list in Hkey.
    change (map_to_list (userNamespaces tidy_users))
      with [("u:q", "M"); ("u:p", "N"); ("v:r", "N")] in Hkey.
    apply elem_of_cons in Hkey as [Heq|Hkey]; [discriminate|].
    apply elem_of_cons in Hkey as [Heq|Hkey].
    { injection Heq as ->. exists "u", "p". repeat split. vm_compute. apply elem_of_cons. by left. }
    apply elem_of_cons in Hkey as [Heq|Hkey].
    { injection Heq as ->. exists "v", "r". repeat split. vm_compute. apply elem_of_cons. by left. }
    by apply elem_of_nil in Hkey.
  - discriminate.
  - reflexivity.
  - vm_compute. apply elem_of_cons. right. apply elem_of_cons. by left.
Defined.

(** ** addNamespaceUsers *)

Lemma addUsers_spec (nsName : string) (us : list models_User) :
  ∀ u : UserManager,
    (∀ user, user ∈ us →
       userNamespaces (addUsers nsName us u) !! getUserKey (UserName user) (Password user)
       = Some nsName
       ∧ Password user ∈ default [] (users (addUsers nsName us u) !! UserName user))
    ∧ (∀ key, (∀ user, user ∈ us → key ≠ getUserKey (UserName user) (Password user)) →
         userNamespaces (addUsers nsName us u) !! key = userNamespaces u !! key)
    ∧ (∀ usr pw, pw ∈ default [] (users u !! usr) →
         pw ∈ default [] (users (addUsers nsName us u) !! usr))
    ∧ (∀ key ns, userNamespaces u !! key = Some ns →
         is_Some (userNamespaces (addUsers nsName us u) !! key)).
Proof.
  induction us as [|user rest IH]; intros u; simpl.
  - split; [by intros ? ?%elem_of_nil|]. split; [done|]. split; [done|]. by eauto.
  - set (u1 := {| userNamespaces := _; users := _ |}).
    destruct (IH u1) as (Hadded & Hother & Hkept & Hkeys).
    assert (∀ usr pw, pw ∈ default [] (users u !! usr) → pw ∈ default [] (users u1 !! usr))
      as Hstep.
    { intros usr pw Hin. subst u1. simpl.
      destruct (decide (usr = UserName user)) as [->|Hne].
      - rewrite lookup_insert_eq. simpl. apply elem_of_app. by left.
      - by rewrite lookup_insert_ne. }
    split; [|split; [|split]].
    + intros user' [->|Hin]%elem_of_cons; [|by apply Hadded].
      split.
      * destruct (decide (Exists (λ user', getUserKey (UserName user) (Password user)
                                           = getUserKey (UserName user') (Password user'))
                                 rest)) as [Hex|Hnex].
        -- apply Exists_exists in Hex as (user' & Hin & ->). by apply Hadded.
        -- rewrite Hother.
           ++ subst u1. simpl. by rewrite lookup_insert_eq.
           ++ intros user' Hin Heq. apply Hnex. apply Exists_exists. by exists user'.
      * apply Hkept. subst u1. simpl. rewrite lookup_insert_eq. simpl.
        apply elem_of_app. right. apply elem_of_cons. by left.
    + intros key Hkey. rewrite Hother.
      * subst u1. simpl. rewrite lookup_insert_ne; [done|].
        intros Heq. eapply Hkey; [|by symmetry]. apply elem_of_cons. by left.
      * intros user' Hin. apply Hkey. apply elem_of_cons. by right.
    + intros usr pw Hin. by apply Hkept, Hstep.
    + intros key ns Hkey.
      destruct (decide (key = getUserKey (UserName user) (Password user))) as [->|Hne].
      * apply (Hkeys _ nsName). subst u1. simpl. by rewrite lookup_insert_eq.
      * apply (Hkeys _ ns). subst u1. simpl. by rewrite lookup_insert_ne.
Qed.

(** X5. After [addNamespaceUsers], every user of the configuration is
    served: its key names the namespace of the configuration and its password
    is among the passwords of the user name.  Nothing is taken away: keys that
    the configuration does not declare name what they named, and every
    password that a user name had is still there. *)
Theorem addNamespaceUsers_serves (config : models_Namespace) (u : UserManager) :
  let u' := addNamespaceUsers config u in
  (∀ user, user ∈ Users config →
     UserManager_GetNamespaceByUser u' (UserName user) (Password user) = Name config
     ∧ Password user ∈ default [] (users u' !! UserName user)
     ∧ UserManager_CheckUser u' (UserName user) = true)
  ∧ (∀ key, (∀ user, user ∈ Users config → key ≠ getUserKey (UserName user) (Password user)) →
       userNamespaces u' !! key = userNamespaces u !! key)
  ∧ (∀ usr pw, pw ∈ default [] (users u !! usr) → pw ∈ default [] (users u' !! usr)).
Proof.
  intros u'. subst u'. unfold addNamespaceUsers.
  destruct (addUsers_spec (Name config) (Users config) u) as (Hadded & Hother & Hkept & _).
  split; [|by split].
  intros user Hin. destruct (Hadded user Hin) as [Hkey Hpw].
  unfold UserManager_GetNamespaceByUser, UserManager_CheckUser. rewrite Hkey.
  split; [done|]. split; [done|]. apply bool_decide_eq_true.
  destruct (users _ !! UserName user); [by eexists|]. by apply elem_of_nil in Hpw.
Qed.

(** ** The password checks *)

Lemma first_accepted_spec (accepts : string → bool) (passwords : list string) :
  match first_accepted accepts passwords with
  | (true, password) =>
      ∃ before after, passwords = before ++ password :: after
        ∧ accepts password = true ∧ Forall (λ p, accepts p = false) before
  | (false, password) => password = "" ∧ Forall (λ p, accepts p = false) passwords
  end.
Proof.
  induction passwords as [|p rest IH]; simpl; [by split|].
  destruct (accepts p) eqn:Hp.
  - exists [], rest. by repeat split.
  - destruct (first_accepted accepts rest) as [[] password].
    + destruct IH as (before & after & -> & Hacc & Hbefore).
      exists (p :: before), after. repeat split; [done|]. by constructor.
    + destruct IH as [-> Hrest]. split; [done|]. by constructor.
Qed.

Section PasswordChecks.
Context `{A : MysqlAuth}.

(** X6. [CheckPassword] succeeds exactly when some password of the user
    hashes, with the salt, to the auth response; it then returns the first such
    password of the user.  When it fails, for an unknown user in particular,
    it returns the empty password. *)
Theorem CheckPassword_first_match (u : UserManager) (user : string) (salt auth : bytes) :
  let hashes password := auth = CalcPassword salt (list_byte_of_string password) in
  let passwords := default [] (users u !! user) in
  ((UserManager_CheckPassword u user salt auth).1 = true ↔ ∃ password, password ∈ passwords ∧ hashes password)
  ∧ match UserManager_CheckPassword u user salt auth with
    | (true, password) =>
        ∃ before after, passwords = before ++ password :: after
          ∧ hashes password ∧ Forall (λ p, ¬ hashes p) before
    | (false, password) => password = ""
    end
  ∧ (users u !! user = None → UserManager_CheckPassword u user salt auth = (false, "")).
Proof.
  intros hashes passwords. unfold UserManager_CheckPassword. fold passwords.
  pose proof (first_accepted_spec
                (λ password, bool_decide (auth = CalcPassword salt (list_byte_of_string password)))
                passwords) as Hspec.
  split; [|split].
  - destruct (first_accepted _ passwords) as [[] password]; simpl.
    + destruct Hspec as (before & after & Hl & Hacc%bool_decide_eq_true & _).
      split; [|done]. intros _. exists password. split; [|done].
      rewrite Hl. apply elem_of_app. right. apply elem_of_cons. by left.
    + destruct Hspec as [_ Hall]. split; [done|]. intros (password' & Hin & Hhash).
      rewrite Forall_forall in Hall. specialize (Hall _ Hin).
      apply bool_decide_eq_false in Hall. done.
  - destruct (first_accepted _ passwords) as [[] password].
    + destruct Hspec as (before & after & Hl & Hacc%bool_decide_eq_true & Hbefore).
      exists before, after. split; [done|]. split; [done|].
      eapply Forall_impl; [exact Hbefore|]. by intros p Hp%bool_decide_eq_false.
    + by destruct Hspec.
  - intros Hnone. subst passwords. by rewrite Hnone.
Qed.

(** X7. [CheckHashPassword] only ever accepts a stored native hash: the
    password it returns starts with [*], is 41 bytes long, and its 40 bytes
    after the star verify against the auth response.  A user whose passwords
    are all stored in clear is never accepted by it. *)
Theorem CheckHashPassword_stored_hash (u : UserManager) (user : string) (salt auth : bytes) :
  let is_hash password := String.prefix "*" password = true ∧ String.length password = 41%nat in
  match UserManager_CheckHashPassword u user salt auth with
  | (true, password) =>
      password ∈ default [] (users u !! user)
      ∧ is_hash password
      ∧ mysql_CheckHashPassword auth salt (drop 1 (list_byte_of_string password)) = true
  | (false, password) =>
      password = ""
      ∧ ∀ p, p ∈ default [] (users u !! user) → is_hash p →
             mysql_CheckHashPassword auth salt (drop 1 (list_byte_of_string p)) = false
  end
  ∧ (Forall (λ p, ¬ is_hash p) (default [] (users u !! user)) →
     UserManager_CheckHashPassword u user salt auth = (false, "")).
Proof.
  intros is_hash. unfold UserManager_CheckHashPassword.
  match goal with |- context [first_accepted ?f ?l] =>
    pose proof (first_accepted_spec f l) as Hspec; set (accepts := f) in * end.
  assert (∀ p, accepts p = true ↔
               is_hash p ∧ mysql_CheckHashPassword auth salt (drop 1 (list_byte_of_string p)) = true)
    as Haccepts.
  { intros p. subst accepts is_hash. simpl.
    rewrite !andb_true_iff, Nat.eqb_eq. tauto. }
  split.
  - destruct (first_accepted accepts _) as [[] password].
    + destruct Hspec as (before & after & Hl & Hacc%Haccepts & _).
      split; [|done]. rewrite Hl. apply elem_of_app. right. apply elem_of_cons. by left.
    + destruct Hspec as [-> Hall]. split; [done|]. intros p Hin Hhash.
      rewrite Forall_forall in Hall. specialize (Hall _ Hin).
      destruct (mysql_CheckHashPassword auth salt _) eqn:Hcheck; [|done].
      assert (accepts p = true) by (apply Haccepts; done). congruence.
  - intros Hclear. destruct (first_accepted accepts _) as [[] password].
    + destruct Hspec as (before & after & Hl & [Hhash _]%Haccepts & _).
      rewrite Forall_forall in Hclear. exfalso. apply (Hclear password); [|done].
      rewrite Hl. apply elem_of_app. right. apply elem_of_cons. by left.
    + by destruct Hspec as [-> _].
Qed.
End PasswordChecks.

(** ** The registry under prepare, commit and delete *)

Lemma CloneUserManager_same (u : UserManager) : CloneUserManager u = u.
Proof.
  destruct u as [us keys]. unfold CloneUserManager. simpl. f_equal.
  - apply map_eq. intros user. rewrite lookup_fmap.
    destruct (us !! user) as [pws|]; simpl; [|done]. by rewrite firstn_all.
  - by rewrite (left_id_L ∅ (∪)).
Qed.

Lemma ShallowCopyNamespaceManager_same (nsMgr : NamespaceManager) :
  ShallowCopyNamespaceManager nsMgr = nsMgr.
Proof.
  destruct nsMgr as [nss]. unfold ShallowCopyNamespaceManager. simpl.
  by rewrite (left_id_L ∅ (∪)).
Qed.

Lemma slot_set_slot_other {A : Type} (i : bool) (x : A) (a : A * A) :
  slot i (set_slot (negb i) x a) = slot i a.
Proof. by destruct i. Qed.

Section Registry.
Context `{N : NamespaceOps, R : GoRange}.

(** A prepare writes the inactive slots only. *)
Lemma ReloadNamespacePrepare_slots (config : models_Namespace) (m m1 : Manager)
    (err : option Error) :
  ReloadNamespacePrepare config m = Returns (m1, err) →
  switchIndex m1 = switchIndex m
  ∧ slot (switchIndex m) (mgr_namespaces m1) = slot (switchIndex m) (mgr_namespaces m)
  ∧ slot (switchIndex m) (mgr_users m1) = slot (switchIndex m) (mgr_users m)
  ∧ delayedClose m1 = delayedClose m.
Proof.
  unfold ReloadNamespacePrepare. simpl.
  destruct (RebuildNamespace _ _) as [rebuilt [e|]].
  - by intros [= <- <-].
  - destruct (RebuildNamespaceUsers _ _) as [newUsers|]; [|done].
    intros [= <- <-]. simpl. by destruct (switchIndex m).
Qed.

(** X8. A prepare is invisible to readers: whether it succeeds or is
    refused, the registry serves the same namespaces and the same users as
    before it, and nothing is handed to the delayed close. *)
Theorem ReloadNamespacePrepare_invisible `{A : MysqlAuth} (config : models_Namespace)
    (m m1 : Manager) (err : option Error) :
  ReloadNamespacePrepare config m = Returns (m1, err) →
  (∀ nm, Manager_GetNamespace m1 nm = Manager_GetNamespace m nm)
  ∧ (∀ user, Manager_CheckUser m1 user = Manager_CheckUser m user)
  ∧ (∀ user password,
       Manager_GetNamespaceByUser m1 user password = Manager_GetNamespaceByUser m user password)
  ∧ (∀ user salt auth,
       Manager_CheckPassword m1 user salt auth = Manager_CheckPassword m user salt auth
       ∧ Manager_CheckHashPassword m1 user salt auth = Manager_CheckHashPassword m user salt auth
       ∧ Manager_CheckSha2Password m1 user salt auth = Manager_CheckSha2Password m user salt auth)
  ∧ delayedClose m1 = delayedClose m.
Proof.
  intros (Hidx & Hns & Hus & Hclose)%ReloadNamespacePrepare_slots.
  unfold Manager_GetNamespace, Manager_CheckUser, Manager_GetNamespaceByUser,
    Manager_CheckPassword, Manager_CheckHashPassword, Manager_CheckSha2Password.
  simpl. rewrite Hidx, Hns, Hus. done.
Qed.

(** X9. Only the last prepare before a commit takes effect.  When the
    prepare of one namespace is followed, before its commit, by the prepare of
    another namespace, the commit serves the second namespace in its new
    version and the first one as it was served before the two prepares: the
    first prepare is lost. *)
Theorem ReloadNamespacePrepare_overridden (configA configB : models_Namespace)
    (m m1 m2 : Manager) :
  ReloadNamespacePrepare configA m = Returns (m1, None) →
  ReloadNamespacePrepare configB m1 = Returns (m2, None) →
  Name configA ≠ Name configB →
  let m3 := (ReloadNamespaceCommit (Name configB) m2).1 in
  (ReloadNamespaceCommit (Name configB) m2).2 = None
  ∧ Manager_GetNamespace m3 (Name configA) = Manager_GetNamespace m (Name configA)
  ∧ changeIndexOf m3 (Name configB) = uint32_add (changeIndexOf m (Name configB)) 1.
Proof.
  intros HA HB Hne m3. subst m3.
  apply ReloadNamespacePrepare_slots in HA as (HidxA & HnsA & _ & _).
  pose proof HB as HB'.
  apply ReloadNamespacePrepare_ok in HB' as (HidxB & Hprep & built & Hnew & Hslot).
  assert (changeIndexOf m1 (Name configB) = changeIndexOf m (Name configB)) as Hsame.
  { unfold changeIndexOf, Manager_GetNamespace. simpl. by rewrite HidxA, HnsA. }
  unfold ReloadNamespaceCommit. rewrite Hprep. simpl. split; [done|].
  unfold changeIndexOf, Manager_GetNamespace, NamespaceManager_GetNamespace. simpl.
  rewrite HidxB, Hslot, HidxA, HnsA. split.
  - by rewrite lookup_insert_ne.
  - rewrite lookup_insert_eq. simpl. by rewrite Hsame.
Qed.

(** What a delete that finds the namespace does. *)
Lemma DeleteNamespace_present (nm : string) (m : Manager) (ns : Namespace) (cleared : UserManager) :
  Manager_GetNamespace m nm = Some ns →
  ClearNamespaceUsers nm (slot (switchIndex m) (mgr_users m)) = Some cleared →
  DeleteNamespace nm m
  = Returns ({| reloadPrepared := reloadPrepared m;
                switchIndex := negb (switchIndex m);
                mgr_namespaces :=
                  set_slot (negb (switchIndex m))
                    (NamespaceManager_DeleteNamespace nm
                       (slot (switchIndex m) (mgr_namespaces m)))
                    (mgr_namespaces m);
                mgr_users := set_slot (negb (switchIndex m)) cleared (mgr_users m);
                statistics := statistics m;
                delayedClose := delayedClose m ++ [ns] |}, None).
Proof.
  unfold Manager_GetNamespace, DeleteNamespace. simpl. intros -> Hclear.
  by rewrite CloneUserManager_same, ShallowCopyNamespaceManager_same, Hclear.
Qed.

(** X10. [DeleteNamespace] of a name that is not served changes nothing.
    Of a served name, on a user matrix whose keys all contain [:], it returns
    without error a registry that no longer serves the name, serves every
    other namespace as before, names no namespace for the pairs of the deleted
    one and the old namespace for every other pair, and hands the deleted
    namespace to the delayed close; deleting the name again changes nothing. *)
Theorem DeleteNamespace_removes (nm : string) (m : Manager) :
  keys_have_sep (slot (switchIndex m) (mgr_users m)) →
  match Manager_GetNamespace m nm with
  | None => DeleteNamespace nm m = Returns (m, None)
  | Some ns =>
      ∃ m', DeleteNamespace nm m = Returns (m', None)
        ∧ switchIndex m' = negb (switchIndex m)
        ∧ Manager_GetNamespace m' nm = None
        ∧ (∀ other, other ≠ nm → Manager_GetNamespace m' other = Manager_GetNamespace m other)
        ∧ (∀ user password,
             Manager_GetNamespaceByUser m' user password
             = if decide (Manager_GetNamespaceByUser m user password = nm) then ""
               else Manager_GetNamespaceByUser m user password)
        ∧ delayedClose m' = delayedClose m ++ [ns]
        ∧ DeleteNamespace nm m' = Returns (m', None)
  end.
Proof.
  intros Hsep. destruct (Manager_GetNamespace m nm) as [ns|] eqn:Hns.
  - destruct (ClearNamespaceUsers_total nm _ Hsep) as (cleared & Hclear & _).
    rewrite (DeleteNamespace_present nm m ns cleared Hns Hclear).
    eexists. split; [done|].
    apply ClearNamespaceUsers_userNamespaces in Hclear as [Hkeys _].
    unfold Manager_GetNamespace, Manager_GetNamespaceByUser, NamespaceManager_GetNamespace,
      UserManager_GetNamespaceByUser in *. simpl in *.
    rewrite !slot_set_slot_eq. simpl.
    split; [done|]. split; [apply lookup_delete_eq|].
    split; [by intros other Hne; rewrite lookup_delete_ne|].
    split; [|split; [done|]].
    + intros user password. rewrite Hkeys.
      destruct (userNamespaces (slot (switchIndex m) (mgr_users m)) !! getUserKey user password)
        as [held|] eqn:Hheld; simpl.
      * destruct (decide (held = nm)) as [->|Hne].
        -- assert (filter (λ entry : string * string, entry.2 ≠ nm)
                     (userNamespaces (slot (switchIndex m) (mgr_users m)))
                   !! getUserKey user password = None) as ->; [|done].
           apply map_lookup_filter_None. right. intros x Hx. simpl. congruence.
        -- assert (filter (λ entry : string * string, entry.2 ≠ nm)
                     (userNamespaces (slot (switchIndex m) (mgr_users m)))
                   !! getUserKey user password = Some held) as ->; [|done].
           by apply map_lookup_filter_Some.
      * assert (filter (λ entry : string * string, entry.2 ≠ nm)
                  (userNamespaces (slot (switchIndex m) (mgr_users m)))
                !! getUserKey user password = None) as ->.
        { apply map_lookup_filter_None. by left. }
        simpl. by destruct (decide ("" = nm)).
    + unfold DeleteNamespace. simpl. rewrite slot_set_slot_eq. simpl.
      unfold NamespaceManager_GetNamespace. simpl. by rewrite lookup_delete_eq.
  - unfold DeleteNamespace. simpl. unfold Manager_GetNamespace in Hns. simpl in Hns.
    by rewrite Hns.
Qed.

(** X11. [DeleteNamespace] leaves an outstanding prepare outstanding.  When
    a prepare is followed by the delete of a served namespace and then by a
    commit, the commit succeeds and flips the registry back to the slot that
    was active before the delete: the registry serves exactly the namespaces
    that it served before the prepare, the deleted one included, and not the
    prepared configuration; the deleted namespace has nevertheless been handed
    to the delayed close. *)
Theorem DeleteNamespace_then_commit (config : models_Namespace) (nm committed : string)
    (m m1 m2 : Manager) (ns : Namespace) :
  ReloadNamespacePrepare config m = Returns (m1, None) →
  Manager_GetNamespace m nm = Some ns →
  DeleteNamespace nm m1 = Returns (m2, None) →
  let m3 := (ReloadNamespaceCommit committed m2).1 in
  (ReloadNamespaceCommit committed m2).2 = None
  ∧ switchIndex m3 = switchIndex m
  ∧ (∀ other, Manager_GetNamespace m3 other = Manager_GetNamespace m other)
  ∧ (∀ user password,
       Manager_GetNamespaceByUser m3 user password = Manager_GetNamespaceByUser m user password)
  ∧ ns ∈ delayedClose m3.
Proof.
  intros Hprep Hns Hdel m3. subst m3.
  pose proof Hprep as (_ & Hprepared & _)%ReloadNamespacePrepare_ok.
  apply ReloadNamespacePrepare_slots in Hprep as (Hidx & Hnss & Hus & Hclose).
  assert (Manager_GetNamespace m1 nm = Some ns) as Hns1.
  { unfold Manager_GetNamespace in *. simpl in *. by rewrite Hidx, Hnss. }
  unfold DeleteNamespace in Hdel. simpl in Hdel.
  unfold Manager_GetNamespace in Hns1. simpl in Hns1. rewrite Hns1 in Hdel.
  destruct (ClearNamespaceUsers nm _) as [cleared|]; [|done].
  injection Hdel as <-.
  unfold ReloadNamespaceCommit. simpl. rewrite Hprepared. simpl.
  rewrite negb_involutive, Hidx.
  unfold Manager_GetNamespace, Manager_GetNamespaceByUser. simpl.
  rewrite !slot_set_slot_other, Hnss, Hus.
  split; [done|]. split; [done|]. split; [done|]. split; [done|].
  apply elem_of_app. left. apply elem_of_app. right. apply elem_of_cons. by left.
Qed.
End Registry.

(** ** The counters of client connections *)

Lemma int32_wrap_small (z : Z) : (- 2 ^ 31 ≤ z < 2 ^ 31)%Z → int32_wrap z = z.
Proof. intros Hz. unfold int32_wrap. rewrite Z.mod_small; lia. Qed.

Lemma int32_wrap_dec_inc (z : Z) :
  (- 2 ^ 31 ≤ z < 2 ^ 31)%Z → int32_wrap (int32_wrap (z + 1) - 1) = z.
Proof.
  intros Hz. unfold int32_wrap.
  destruct (decide (z = 2 ^ 31 - 1)%Z) as [->|Hne]; [reflexivity|].
  rewrite (Z.mod_small (z + 1 + 2 ^ 31)) by lia.
  replace (z + 1 + 2 ^ 31 - 2 ^ 31 - 1 + 2 ^ 31)%Z with (z + 2 ^ 31)%Z by lia.
  rewrite Z.mod_small; lia.
Qed.

(** X12. A session that starts and ends leaves the counter of its namespace
    where it was (the increment and the decrement are inverse on [int32], at
    the bounds too); when the namespace had no counter yet the counter stays,
    at zero.  The counters of the other namespaces are not touched, and a
    decrement for a namespace without counter does nothing. *)
Theorem connection_count_balanced (namespace : string) (s : StatisticManager) :
  let s' := DescConnectionCount namespace (IncrConnectionCount namespace s) in
  (match clientConnecions s !! namespace with
   | Some v => (- 2 ^ 31 ≤ v < 2 ^ 31)%Z → clientConnecions s' !! namespace = Some v
   | None => clientConnecions s' !! namespace = Some 0%Z
                ∧ DescConnectionCount namespace s = s
   end)
  ∧ (∀ other, other ≠ namespace → clientConnecions s' !! other = clientConnecions s !! other)
  ∧ SQLResponsePercentile s' = SQLResponsePercentile s.
Proof.
  intros s'. subst s'. unfold DescConnectionCount, IncrConnectionCount.
  destruct (clientConnecions s !! namespace) as [v|] eqn:Hv; simpl;
    rewrite lookup_insert_eq; simpl; rewrite ?lookup_insert_eq.
  - split; [|split; [|done]].
    + intros Hrange. by rewrite int32_wrap_dec_inc.
    + intros other Hne. by rewrite !lookup_insert_ne.
  - split; [|split; [|done]].
    + by split.
    + intros other Hne. by rewrite !lookup_insert_ne.
Qed.

Lemma ReloadNamespacePrepare_invisible_witness :
  ∃ m1, @ReloadNamespacePrepare plain_namespaces canonical_range ns2_config (ns1_manager 0)
        = Returns (m1, None)
        ∧ ∀ nm, Manager_GetNamespace m1 nm = Manager_GetNamespace (ns1_manager 0) nm.
Proof.
  eexists. split; [reflexivity|].
  apply (@ReloadNamespacePrepare_invisible plain_namespaces canonical_range toy_auth
           ns2_config (ns1_manager 0) _ None).
  reflexivity.
Defined.

Lemma ReloadNamespacePrepare_overridden_witness :
  ∃ m2, Manager_GetNamespace (ReloadNamespaceCommit "ns2" m2).1 "ns1"
        = Manager_GetNamespace (ns1_manager 0) "ns1".
Proof.
  eexists.
  apply (@ReloadNamespacePrepare_overridden plain_namespaces canonical_range
           ns1_config ns2_config (ns1_manager 0) _ _ eq_refl eq_refl).
  discriminate.
Defined.

Lemma DeleteNamespace_removes_witness :
  ∃ m', @DeleteNamespace canonical_range "ns1" (ns1_manager 0) = Returns (m', None)
        ∧ Manager_GetNamespace m' "ns1" = None.
Proof.
  pose proof (@DeleteNamespace_removes canonical_range "ns1" (ns1_manager 0)) as Hdel.
  destruct Hdel as (m' & Hrun & _ & Hgone & _).
  - change (map_Forall (λ key (_ : string), contains_byte ":" key = true)
                       (userNamespaces (slot false (mgr_users (ns1_manager 0))))).
    refine (bool_decide_unpack _ _). vm_compute. exact I.
  - exists m'. by split.
Defined.

Lemma DeleteNamespace_then_commit_witness :
  ∃ m2, Manager_GetNamespace (ReloadNamespaceCommit "ns2" m2).1 "ns1" = Some ns1_v2.
Proof.
  eexists.
  apply (@DeleteNamespace_then_commit plain_namespaces canonical_range ns2_config "ns1" "ns2"
           (ns1_manager 0) _ _ ns1_v2 eq_refl eq_refl eq_refl).
Defined.

(** ** handleSetAutoCommit: the calls it makes and what it leaves alone *)

Lemma lor_absorb (s x : Z) : Z.land s x = x → Z.lor s x = s.
Proof.
  intros Hx. apply Z.bits_inj'. intros i Hi.
  apply (f_equal (λ z, Z.testbit z i)) in Hx. rewrite Z.land_spec in Hx.
  rewrite Z.lor_spec. destruct (Z.testbit s i), (Z.testbit x i); done.
Qed.

Lemma land_lor_other (s x y : Z) : Z.land y x = 0%Z → Z.land (Z.lor s x) y = Z.land s y.
Proof.
  intros Hd. apply Z.bits_inj'. intros i Hi.
  apply (f_equal (λ z, Z.testbit z i)) in Hd. rewrite Z.land_spec, Z.bits_0 in Hd.
  rewrite !Z.land_spec, Z.lor_spec.
  destruct (Z.testbit s i), (Z.testbit x i), (Z.testbit y i); done.
Qed.

Lemma range_of_empty `{GoRange} {V : Type} : range_of (∅ : gmap string V) = [].
Proof.
  apply Permutation_nil_r. rewrite <- (map_to_list_empty (M:=gmap string) (A:=V)).
  apply range_of_perm.
Qed.

Section SetAutoCommitCalls.
Context `{K : MysqlConst, R : GoRange, B : Backend}.

Lemma autocommit_loop_spec (conns : list (string * PooledConnect)) (err : option Error) :
  autocommit_loop conns err
  = (flat_map (λ entry, [CallSetAutoCommit entry.2 1; CallRecycle entry.2]) conns,
     if existsb (λ entry, setAutoCommitFails entry.2 1) conns
     then Some ErrSetAutocommit else err).
Proof.
  revert err. induction conns as [|[slice pc] rest IH]; intros err; [done|].
  simpl. rewrite IH. f_equal.
  destruct (setAutoCommitFails pc 1); simpl; [|done].
  by destruct (existsb _ rest).
Qed.

(** X13. [handleSetAutoCommit(false)] only clears the AUTOCOMMIT bit: it
    returns no error, every status flag disjoint from AUTOCOMMIT (IN_TRANS
    among them, so a transaction in progress stays in progress) is as before,
    the connections of the transaction are kept and no backend is called. *)
Theorem handleSetAutoCommit_false_keeps (se : SessionExecutor) :
  StatusFlagsOk →
  let se' := (handleSetAutoCommit false se).1 in
  (handleSetAutoCommit false se).2 = None
  ∧ Z.land (status se') ServerStatusAutocommit = 0%Z
  ∧ Z.land (status se') ServerStatusInTrans = Z.land (status se) ServerStatusInTrans
  ∧ (∀ flag, (0 ≤ flag < 2 ^ 16)%Z → Z.land flag ServerStatusAutocommit = 0%Z →
       Z.land (status se') flag = Z.land (status se) flag)
  ∧ txConns se' = txConns se
  ∧ ksConns se' = ksConns se
  ∧ backendCalls se' = backendCalls se.
Proof.
  intros [HT HA Hd]. simpl. split; [done|]. split; [by apply land_not16_same|].
  split; [|split; [|done]].
  - apply land_not16_other; [done|]. by rewrite Z.land_comm.
  - intros flag Hflag Hdis. by apply land_not16_other.
Qed.

(** X14. The backend calls of [handleSetAutoCommit(true)]: every connection
    of the transaction, in the order of the iteration, is sent
    [SetAutoCommit(1)] and then recycled, whether or not the call before it
    failed, and no connection is closed.  The error returned is that of a
    failed [SetAutoCommit]: it is nil exactly when no connection of the
    transaction fails.  The keep-session connections are not touched. *)
Theorem handleSetAutoCommit_true_calls (se : SessionExecutor) :
  let out := handleSetAutoCommit true se in
  backendCalls out.1
  = backendCalls se
    ++ flat_map (λ entry, [CallSetAutoCommit entry.2 1; CallRecycle entry.2])
                (range_of (txConns se))
  ∧ (out.2 = None
     ↔ ∀ slice pc, txConns se !! slice = Some pc → setAutoCommitFails pc 1 = false)
  ∧ (out.2 ≠ None → out.2 = Some ErrSetAutocommit)
  ∧ ksConns out.1 = ksConns se.
Proof.
  unfold handleSetAutoCommit. rewrite autocommit_loop_spec. simpl.
  split; [done|]. split; [|split; [|done]].
  - destruct (existsb _ _) eqn:Ex.
    + split; [done|]. intros Hall.
      apply existsb_exists in Ex as ([slice pc] & Hin & Hfail).
      apply list_elem_of_In, elem_of_range_of in Hin.
      simpl in Hfail. rewrite (Hall slice pc Hin) in Hfail. done.
    + split; [|done]. intros _ slice pc Hin.
      destruct (setAutoCommitFails pc 1) eqn:Hfail; [|done].
      assert (existsb (λ entry, setAutoCommitFails entry.2 1) (range_of (txConns se)) = true)
        as Hex; [|congruence].
      apply existsb_exists. exists (slice, pc). split; [|done].
      by apply list_elem_of_In, elem_of_range_of.
  - by destruct (existsb _ _).
Qed.

(** X15. [handleSetAutoCommit(true)] is idempotent: a second call finds no
    connection to reset, calls no backend, returns nil and leaves the executor
    as the first call left it.  The first call changes no status flag other
    than AUTOCOMMIT and IN_TRANS. *)
Theorem handleSetAutoCommit_true_twice (se : SessionExecutor) :
  StatusFlagsOk →
  let se' := (handleSetAutoCommit true se).1 in
  handleSetAutoCommit true se' = (se', None)
  ∧ (∀ flag, (0 ≤ flag < 2 ^ 16)%Z →
       Z.land flag ServerStatusAutocommit = 0%Z → Z.land flag ServerStatusInTrans = 0%Z →
       Z.land (status se') flag = Z.land (status se) flag).
Proof.
  intros [HT HA Hd]. unfold handleSetAutoCommit. rewrite !autocommit_loop_spec.
  unfold set_txConns, issue, set_backendCalls, set_status. simpl.
  rewrite range_of_empty. simpl. rewrite app_nil_r.
  set (st1 := Z.lor (status se) ServerStatusAutocommit).
  set (st2 := if (Z.land st1 ServerStatusInTrans >? 0)%Z
              then Z.land st1 (not16 ServerStatusInTrans) else st1).
  assert (Z.land st2 ServerStatusAutocommit = ServerStatusAutocommit) as Hset.
  { subst st2 st1. destruct (Z.land _ ServerStatusInTrans >? 0)%Z.
    - rewrite land_not16_other by done. apply land_lor_same.
    - apply land_lor_same. }
  assert (Z.land st2 ServerStatusInTrans = 0%Z) as Hclear.
  { subst st2. destruct (Z.gtb_spec (Z.land st1 ServerStatusInTrans) 0) as [Hgt|Hle].
    - by apply land_not16_same.
    - assert (0 ≤ Z.land st1 ServerStatusInTrans)%Z by (apply Z.land_nonneg; lia). lia. }
  split.
  - rewrite (lor_absorb st2 ServerStatusAutocommit Hset), Hclear. done.
  - intros flag Hflag HdA HdT. subst st2 st1.
    destruct (Z.land _ ServerStatusInTrans >? 0)%Z.
    + rewrite land_not16_other by done. by apply land_lor_other.
    + by apply land_lor_other.
Qed.
End SetAutoCommitCalls.

Lemma handleSetAutoCommit_false_keeps_witness :
  let se' := (@handleSetAutoCommit mysql_protocol canonical_range quiet_backend
                false sample_executor).1 in
  status se' = 1%Z ∧ txConns se' = txConns sample_executor.
Proof.
  pose proof (@handleSetAutoCommit_false_keeps mysql_protocol canonical_range quiet_backend
                sample_executor) as Hkeeps.
  destruct Hkeeps as (_ & _ & _ & _ & Htx & _).
  - split; simpl; [lia | lia | reflexivity].
  - split; [reflexivity | exact Htx].
Defined.

Lemma handleSetAutoCommit_true_twice_witness :
  let se' := (@handleSetAutoCommit mysql_protocol canonical_range quiet_backend
                true sample_executor).1 in
  @handleSetAutoCommit mysql_protocol canonical_range quiet_backend true se' = (se', None).
Proof.
  apply (@handleSetAutoCommit_true_twice mysql_protocol canonical_range quiet_backend
           sample_executor).
  split; simpl; [lia | lia | reflexivity].
Defined.

(** ** Trailing semicolons *)

Lemma TrimRight_semicolon_fixed (s : string) :
  ends_with_semicolon s = false → TrimRight_semicolon s = s.
Proof.
  induction s as [|ch rest IH]; [done|].
  destruct rest as [|ch' rest'].
  - simpl. by intros ->.
  - intros Hends. change (ends_with_semicolon (String ch' rest') = false) in Hends.
    change (TrimRight_semicolon (String ch (String ch' rest')))
      with (match TrimRight_semicolon (String ch' rest') with
            | EmptyString => if Ascii.eqb ch ";" then EmptyString else String ch EmptyString
            | trimmed => String ch trimmed
            end).
    by rewrite (IH Hends).
Qed.

Lemma TrimRight_semicolon_semicolons (k : nat) : TrimRight_semicolon (semicolons k) = EmptyString.
Proof. induction k as [|k IH]; [done|]. simpl. by rewrite IH. Qed.

Lemma TrimRight_semicolon_app (s : string) (k : nat) :
  TrimRight_semicolon (s +:+ semicolons k) = TrimRight_semicolon s.
Proof.
  induction s as [|ch rest IH]; simpl.
  - apply TrimRight_semicolon_semicolons.
  - by rewrite IH.
Qed.

Lemma TrimRight_semicolon_ends (s : string) :
  ends_with_semicolon (TrimRight_semicolon s) = false.
Proof.
  induction s as [|ch rest IH]; [done|]. simpl.
  destruct (TrimRight_semicolon rest) as [|ch' trimmed].
  - destruct (Ascii.eqb ch ";") eqn:E; [done|]. simpl. by rewrite E.
  - exact IH.
Qed.

Lemma TrimRight_semicolon_split (s : string) :
  ∃ k, s = TrimRight_semicolon s +:+ semicolons k.
Proof.
  induction s as [|ch rest [k IH]]; [by exists 0%nat|]. simpl.
  destruct (TrimRight_semicolon rest) as [|ch' trimmed].
  - destruct (Ascii.eqb ch ";") eqn:E.
    + apply Ascii.eqb_eq in E as ->. exists (S k). simpl. by rewrite IH at 1.
    + exists k. simpl. by rewrite IH at 1.
  - exists k. simpl. by rewrite IH at 1.
Qed.

(** X16. [strings.TrimRight(sql, ";")] as the handlers use it: the statement
    is what is kept followed by semicolons only, what is kept does not end in
    a semicolon, trimming again changes nothing, and statements that differ
    in their trailing semicolons only are trimmed to the same text. *)
Theorem TrimRight_semicolon_spec (sql : string) :
  (∃ k, sql = TrimRight_semicolon sql +:+ semicolons k)
  ∧ ends_with_semicolon (TrimRight_semicolon sql) = false
  ∧ TrimRight_semicolon (TrimRight_semicolon sql) = TrimRight_semicolon sql
  ∧ (∀ k, TrimRight_semicolon (sql +:+ semicolons k) = TrimRight_semicolon sql)
  ∧ (ends_with_semicolon sql = false → TrimRight_semicolon sql = sql).
Proof.
  split; [apply TrimRight_semicolon_split|].
  split; [apply TrimRight_semicolon_ends|].
  split; [apply TrimRight_semicolon_fixed, TrimRight_semicolon_ends|].
  split; [apply TrimRight_semicolon_app | apply TrimRight_semicolon_fixed].
Qed.

Section QueryAdmission.
Context `{Q : QueryOps, K : MysqlConst, W : Socket, N : NamespaceOps, E : ExecutorOps}.

(** X17. What [handleQuery] does outside the limited cases.  Trailing
    semicolons make no difference to it.  When the namespace of the executor
    is not served, the nil dereference is recovered into an internal error:
    nothing is executed and no token is taken.  For a namespace without limit
    ([clientQPSLimit <= 0]) the limiter is not consulted and the query is
    executed.  In every case at most one token is taken. *)
Theorem handleQuery_admission (m : Manager) (lim : Limiter) (sql : string) (cc : Session) :
  (∀ k, handleQuery m lim (sql +:+ semicolons k) cc = handleQuery m lim sql cc)
  ∧ match SessionExecutor_GetNamespace m (executor cc) with
    | None => handleQuery m lim sql cc = (cc, lim, (None, Some recovered))
    | Some ns =>
        (clientQPSLimit ns ≤ 0)%Z →
        handleQuery m lim sql cc
        = ((execute_query m ns (TrimRight_semicolon sql) cc).1, lim,
           (execute_query m ns (TrimRight_semicolon sql) cc).2)
    end
  ∧ (tokens (handleQuery m lim sql cc).1.2 ≤ tokens lim
     ∧ tokens lim ≤ S (tokens (handleQuery m lim sql cc).1.2))%nat.
Proof.
  split; [|split].
  - intros k. unfold handleQuery. by rewrite TrimRight_semicolon_app.
  - unfold handleQuery. destruct (SessionExecutor_GetNamespace m (executor cc)) as [ns|]; [|done].
    intros Hqps.
    replace (clientQPSLimit ns >? 0)%Z with false
      by (symmetry; rewrite Z.gtb_ltb; apply Z.ltb_ge; lia).
    simpl. by destruct (execute_query m ns (TrimRight_semicolon sql) cc) as [cc' res].
  - unfold handleQuery. destruct (SessionExecutor_GetNamespace m (executor cc)) as [ns|];
      [|simpl; lia].
    unfold Limiter_Allow.
    destruct (clientQPSLimit ns >? 0)%Z, (supportLimitTx ns), (isInTransaction (executor cc)),
      lim as [[|n]]; simpl;
      try (destruct (execute_query m ns (TrimRight_semicolon sql) cc) as [cc' res]);
      simpl; lia.
Qed.
End QueryAdmission.

(** ** The statement table *)

Lemma byte_value_of_Z (v : Z) : byte_value (byte_of_Z v) = (v `mod` 256)%Z.
Proof.
  unfold byte_value, byte_of_Z.
  pose proof (Z.mod_pos_bound v 256 eq_refl) as Hb.
  destruct (Byte.of_N (Z.to_N (v `mod` 256))) as [b|] eqn:E.
  - apply Byte.to_of_N in E. simpl. rewrite E. apply Z2N.id. lia.
  - apply Byte.of_N_None_iff in E. apply N2Z.inj_lt in E.
    rewrite Z2N.id in E by lia. simpl in E. lia.
Qed.

Lemma byte_value_range (b : Byte.byte) : (0 ≤ byte_value b < 256)%Z.
Proof.
  unfold byte_value. pose proof (Byte.to_N_bounded b) as Hb.
  apply N2Z.inj_le in Hb. pose proof (N2Z.is_nonneg (Byte.to_N b)) as Hb0.
  revert Hb Hb0. generalize (Z.of_N (Byte.to_N b)). simpl. intros z. lia.
Qed.

Lemma testbit_byte (v i : Z) :
  (0 ≤ i)%Z → Z.testbit (v `mod` 256) i = if (i <? 8)%Z then Z.testbit v i else false.
Proof.
  intros Hi. change 256%Z with (2 ^ 8)%Z. destruct (Z.ltb_spec i 8).
  - apply Z.mod_pow2_bits_low. lia.
  - apply Z.mod_pow2_bits_high. lia.
Qed.

(** The decoding of the Go library inverts its encoding on [uint32], and
    ignores what follows the four bytes. *)
Lemma LittleEndian_Uint32_PutUint32 (v : Z) (rest : bytes) :
  (0 ≤ v < 2 ^ 32)%Z →
  LittleEndian_Uint32 (take 4 (LittleEndian_PutUint32 v ++ rest)) = Returns v.
Proof.
  intros Hv. simpl. f_equal. rewrite !byte_value_of_Z.
  apply Z.bits_inj'. intros i Hi.
  rewrite !Z.lor_spec, !Z.shiftl_spec by lia.
  rewrite (testbit_byte v i) by lia.
  destruct (Z.ltb_spec i 8) as [H8|H8].
  { rewrite !(Z.testbit_neg_r _ (i - _)) by lia. by rewrite !orb_false_r. }
  rewrite (testbit_byte _ (i - 8)), Z.shiftr_spec by lia.
  replace (i - 8 + 8)%Z with i by lia.
  destruct (Z.ltb_spec (i - 8) 8) as [H16|H16].
  { rewrite !(Z.testbit_neg_r _ (i - _)) by lia. by rewrite !orb_false_r. }
  rewrite (testbit_byte _ (i - 16)), Z.shiftr_spec by lia.
  replace (i - 16 + 16)%Z with i by lia.
  destruct (Z.ltb_spec (i - 16) 8) as [H24|H24].
  { rewrite !(Z.testbit_neg_r _ (i - _)) by lia. by rewrite !orb_false_r. }
  rewrite (testbit_byte _ (i - 24)), Z.shiftr_spec by lia.
  replace (i - 24 + 24)%Z with i by lia.
  destruct (Z.ltb_spec (i - 24) 8) as [H32|H32]; [done|].
  simpl. symmetry. rewrite <- (Z.mod_small v (2 ^ 32)) by lia.
  apply Z.mod_pow2_bits_high. lia.
Qed.

Lemma lor_below (n a b : Z) :
  (0 < n)%Z → (0 ≤ a < 2 ^ n)%Z → (0 ≤ b < 2 ^ n)%Z → (0 ≤ Z.lor a b < 2 ^ n)%Z.
Proof.
  intros Hn Ha Hb.
  assert (0 ≤ Z.lor a b)%Z as Hnn by (apply Z.lor_nonneg; lia).
  split; [done|].
  assert (∀ x, (0 ≤ x < 2 ^ n)%Z → (Z.log2 x < n)%Z) as Hlog.
  { intros x Hx. destruct (decide (x = 0%Z)) as [->|Hnz]; [simpl; lia|].
    apply Z.log2_lt_pow2; lia. }
  destruct (decide (Z.lor a b = 0%Z)) as [->|Hnz]; [lia|].
  apply Z.log2_lt_pow2; [lia|]. rewrite Z.log2_lor by lia.
  pose proof (Hlog a Ha). pose proof (Hlog b Hb). lia.
Qed.

Lemma shiftl_byte_below (b : Byte.byte) (k : Z) :
  (0 ≤ k ≤ 24)%Z → (0 ≤ Z.shiftl (byte_value b) k < 2 ^ 32)%Z.
Proof.
  intros Hk. pose proof (byte_value_range b) as Hb.
  rewrite Z.shiftl_mul_pow2 by lia.
  assert (0 < 2 ^ k)%Z as Hpos by (apply Z.pow_pos_nonneg; lia).
  assert (2 ^ k ≤ 2 ^ 24)%Z as Hle by (apply Z.pow_le_mono_r; lia).
  change (2 ^ 24)%Z with 16777216%Z in Hle. change (2 ^ 32)%Z with 4294967296%Z.
  nia.
Qed.

Lemma LittleEndian_Uint32_range (b0 b1 b2 b3 : Byte.byte) :
  (0 ≤ Z.lor (Z.lor (Z.lor (byte_value b0) (Z.shiftl (byte_value b1) 8))
                    (Z.shiftl (byte_value b2) 16))
             (Z.shiftl (byte_value b3) 24) < 2 ^ 32)%Z.
Proof.
  pose proof (shiftl_byte_below b0 0 ltac:(lia)) as H0. rewrite Z.shiftl_0_r in H0.
  repeat apply lor_below; try done; apply shiftl_byte_below; lia.
Qed.

Section StatementTable.
Context `{C : StmtOps}.

(** X18. Statement ids are fresh.  On a table whose statements are stored
    under their own ids, all below the counter, and whose counter has not
    reached [2^32 - 1], a successful [handleStmtPrepare] gives the statement
    the value of the counter, which no open statement has; it replaces no
    statement, advances the counter by one and keeps the table in that shape.
    A failed one leaves the table as it was. *)
Theorem handleStmtPrepare_fresh (sql : string) (t : StmtTable) :
  ids_issued t → (0 ≤ stmtID t < 2 ^ 32 - 1)%Z →
  match handleStmtPrepare sql t with
  | (t', inl _) => t' = t
  | (t', inr stmt) =>
      ps_id stmt = stmtID t
      ∧ ps_sql stmt = TrimRight_semicolon sql
      ∧ stmts t !! ps_id stmt = None
      ∧ stmts t' !! ps_id stmt = Some stmt
      ∧ (∀ id, id ≠ ps_id stmt → stmts t' !! id = stmts t !! id)
      ∧ stmtID t' = (stmtID t + 1)%Z
      ∧ ids_issued t'
  end.
Proof.
  intros Hissued Hctr. unfold handleStmtPrepare.
  destruct (CalcParams (TrimRight_semicolon sql)) as [err|[[paramCount offsets] sqlItems]];
    [done|].
  simpl.
  assert (uint32_add (stmtID t) 1 = (stmtID t + 1)%Z) as Hnext.
  { unfold uint32_add, uint32_modulus. apply Z.mod_small. lia. }
  assert (stmts t !! stmtID t = None) as Hfree.
  { destruct (stmts t !! stmtID t) as [old|] eqn:Hold; [|done].
    apply Hissued in Hold. lia. }
  split; [done|]. split; [done|]. split; [done|].
  split; [by rewrite lookup_insert_eq|].
  split; [intros id Hne; by rewrite lookup_insert_ne|].
  split; [done|].
  intros id stmt Hin. cbn [stmts stmtID] in *. rewrite Hnext.
  destruct (decide (id = stmtID t)) as [->|Hne].
  - rewrite lookup_insert_eq in Hin. injection Hin as <-. simpl. lia.
  - rewrite lookup_insert_ne in Hin by done. apply Hissued in Hin. lia.
Qed.

(** X19. [handleStmtClose] never fails and never panics.  A packet shorter
    than four bytes is ignored; otherwise the statement whose id the first
    four bytes spell in little-endian order is closed, if it is open, and every
    other statement stays open.  The counter of ids is not moved. *)
Theorem handleStmtClose_closes_one (data : bytes) (t : StmtTable) :
  ∃ t', handleStmtClose data t = Returns (t', None)
    ∧ stmtID t' = stmtID t
    ∧ ((length data < 4)%nat → t' = t)
    ∧ ((4 ≤ length data)%nat →
       ∃ id, LittleEndian_Uint32 data = Returns id
         ∧ (0 ≤ id < 2 ^ 32)%Z
         ∧ stmts t' = delete id (stmts t))
    ∧ (ids_issued t → ids_issued t').
Proof.
  unfold handleStmtClose. destruct (Nat.ltb_spec (length data) 4) as [Hshort|Hlong].
  - exists t. split; [done|]. split; [done|]. split; [done|]. split; [lia|done].
  - destruct data as [|b0 [|b1 [|b2 [|b3 rest]]]]; simpl in Hlong; try lia.
    eexists. split; [reflexivity|]. simpl. split; [done|]. split; [lia|]. split.
    + intros _. eexists. split; [reflexivity|]. split; [|done].
      apply LittleEndian_Uint32_range.
    + intros Hissued id stmt Hin. simpl in Hin.
      apply lookup_delete_Some in Hin as [_ Hin]. by apply Hissued.
Qed.

(** X20. Preparing and closing are inverse on the table: closing the
    statement that [handleStmtPrepare] just returned, with its id written in
    little-endian order at the head of the packet, whatever follows, leaves
    the open statements as they were before the prepare.  The id is not given
    out again: the counter stays advanced. *)
Theorem handleStmtClose_after_prepare (sql : string) (rest : bytes)
    (t t1 : StmtTable) (stmt : PreparedStmt) :
  ids_issued t → (0 ≤ stmtID t < 2 ^ 32 - 1)%Z →
  handleStmtPrepare sql t = (t1, inr stmt) →
  ∃ t2, handleStmtClose (LittleEndian_PutUint32 (ps_id stmt) ++ rest) t1 = Returns (t2, None)
    ∧ stmts t2 = stmts t
    ∧ stmtID t2 = (stmtID t + 1)%Z
    ∧ ids_issued t2.
Proof.
  intros Hissued Hctr Hprep.
  pose proof (handleStmtPrepare_fresh sql t Hissued Hctr) as Hfresh.
  rewrite Hprep in Hfresh. destruct Hfresh as (Hid & _ & Hfree & _ & _ & Hnext & Hissued1).
  unfold handleStmtClose.
  replace (length (LittleEndian_PutUint32 (ps_id stmt) ++ rest) <? 4)%nat with false
    by (symmetry; apply Nat.ltb_ge; simpl; lia).
  rewrite LittleEndian_Uint32_PutUint32 by lia.
  eexists. split; [reflexivity|]. simpl.
  assert (stmts t1 = <[ps_id stmt := stmt]> (stmts t)) as Hst.
  { unfold handleStmtPrepare in Hprep.
    destruct (CalcParams (TrimRight_semicolon sql)) as [err|[[paramCount offsets] sqlItems]];
      [done|].
    injection Hprep as <- <-. done. }
  split; [|split; [done|]].
  - rewrite Hst. by apply delete_insert_id.
  - intros id st Hin. simpl in Hin. apply lookup_delete_Some in Hin as [_ Hin].
    by apply Hissued1.
Qed.
End StatementTable.

Lemma handleStmtPrepare_fresh_witness :
  ∃ t' stmt, @handleStmtPrepare plain_stmts "select 1;" empty_table = (t', inr stmt)
    ∧ ps_id stmt = 1%Z ∧ ps_sql stmt = "select 1" ∧ stmtID t' = 2%Z.
Proof.
  pose proof (@handleStmtPrepare_fresh plain_stmts "select 1;" empty_table) as Hfresh.
  destruct (@handleStmtPrepare plain_stmts "select 1;" empty_table) as [t' [err|stmt]] eqn:E;
    [discriminate|].
  exists t', stmt. split; [reflexivity|].
  destruct Hfresh as (Hid & Hsql & _ & _ & _ & Hnext & _).
  - intros id st Hin. unfold empty_table in Hin. simpl in Hin.
    rewrite lookup_empty in Hin. discriminate.
  - simpl. lia.
  - repeat split; assumption.
Defined.

Lemma handleStmtClose_after_prepare_witness :
  ∃ t2, handleStmtClose [Byte.x01; Byte.x00; Byte.x00; Byte.x00; Byte.xff]
          (@handleStmtPrepare plain_stmts "select 1;" empty_table).1 = Returns (t2, None)
    ∧ stmts t2 = ∅
    ∧ stmtID t2 = 2%Z.
Proof.
  assert (ids_issued empty_table) as Hissued.
  { intros id st Hin. unfold empty_table in Hin. simpl in Hin.
    rewrite lookup_empty in Hin. discriminate. }
  assert (0 ≤ stmtID empty_table < 2 ^ 32 - 1)%Z as Hctr by (simpl; lia).
  destruct (@handleStmtClose_after_prepare plain_stmts "select 1;" [Byte.xff] empty_table
              _ _ Hissued Hctr eq_refl) as (t2 & Hclose & Hstmts & Hnext & _).
  exists t2. repeat split; assumption.
Defined.

(** ** handleKeepSessionPing *)

Lemma first_bad_conn_spec `{PingOps} (conns : list (string * PooledConnect)) :
  match first_bad_conn conns with
  | None => ∀ entry, entry ∈ conns → pingFails entry.2 = false
  | Some bad => pingFails bad = true ∧ ∃ slice, (slice, bad) ∈ conns
  end.
Proof.
  induction conns as [|[slice pc] rest IH]; simpl.
  - intros entry Hin. by apply elem_of_nil in Hin.
  - destruct (pingFails pc) eqn:Hping.
    + split; [done|]. exists slice. apply elem_of_cons. by left.
    + destruct (first_bad_conn rest) as [bad|].
      * destruct IH as [Hbad [slice' Hin]]. split; [done|]. exists slice'.
        apply elem_of_cons. by right.
      * intros entry Hin. apply elem_of_cons in Hin as [->|Hin]; [done|]. by apply IH.
Qed.

Lemma issue_issue (a b : list ConnCall) (se : SessionExecutor) :
  issue b (issue a se) = issue (a ++ b) se.
Proof. unfold issue, set_backendCalls. simpl. by rewrite app_assoc. Qed.

Section KeepSessionPing.
Context `{P : PingOps, E : ExecutorOps, R : GoRange}.

Lemma release_ksConns_spec (conns : list (string * PooledConnect)) :
  ExecutorFrame →
  ∀ se, release_ksConns conns se
        = issue (flat_map (release_calls (isInTransaction se)) conns) se.
Proof.
  intros Hframe. induction conns as [|[slice ksConn] rest IH]; intros se.
  - simpl. unfold issue, set_backendCalls. rewrite app_nil_r. by destruct se.
  - cbn [release_ksConns flat_map]. rewrite IH.
    destruct (isInTransaction se) eqn:Htx.
    + rewrite (tx_reads_status Hframe
                 (issue [CallRecycle ksConn] (issue [CallClose ksConn] se)) se eq_refl), Htx.
      by rewrite !issue_issue.
    + rewrite (tx_reads_status Hframe (issue [CallRecycle ksConn] se) se eq_refl), Htx.
      by rewrite !issue_issue.
Qed.

(** X21. [handleKeepSessionPing] returns nil exactly when every keep-session
    connection answers the ping, and then touches nothing.  When one does not,
    it returns [ErrBadConn]; the connection whose ping failed is closed, then
    every keep-session connection (that one too) is recycled, after being
    closed when the session is in a transaction; the connections stay in
    [ksConns]. *)
Theorem handleKeepSessionPing_releases (se : SessionExecutor) :
  ExecutorFrame →
  let out := handleKeepSessionPing se in
  (out.2 = None ↔ ∀ slice pc, ksConns se !! slice = Some pc → pingFails pc = false)
  ∧ (out.2 = None → out.1 = se)
  ∧ (out.2 ≠ None →
     out.2 = Some ErrBadConn
     ∧ ksConns out.1 = ksConns se
     ∧ status out.1 = status se
     ∧ ∃ slice bad, ksConns se !! slice = Some bad ∧ pingFails bad = true
         ∧ backendCalls out.1
           = backendCalls se
             ++ CallClose bad
                :: flat_map (release_calls (isInTransaction se)) (range_of (ksConns se))).
Proof.
  intros Hframe. unfold handleKeepSessionPing.
  pose proof (first_bad_conn_spec (range_of (ksConns se))) as Hfirst.
  destruct (first_bad_conn (range_of (ksConns se))) as [bad|]; simpl.
  - destruct Hfirst as [Hbad [slice Hin%elem_of_range_of]].
    split; [|split; [done|]].
    + split; [done|]. intros Hall. rewrite (Hall slice bad Hin) in Hbad. done.
    + intros _. rewrite release_ksConns_spec by done.
      rewrite (tx_reads_status Hframe (issue [CallClose bad] se) se eq_refl).
      rewrite issue_issue. simpl. repeat split. by exists slice, bad.
  - split; [|split; done]. split; [|done]. intros _ slice pc Hin.
    by apply (Hfirst (slice, pc)), elem_of_range_of.
Qed.
End KeepSessionPing.

Lemma handleKeepSessionPing_releases_witness :
  let out := @handleKeepSessionPing flaky_pings keep_session_executor canonical_range
               sample_executor in
  out.2 = Some ErrBadConn
  ∧ ksConns out.1 = ksConns sample_executor
  ∧ status out.1 = status sample_executor
  ∧ ∃ slice bad, ksConns sample_executor !! slice = Some bad
      ∧ @pingFails flaky_pings bad = true
      ∧ backendCalls out.1
        = backendCalls sample_executor
          ++ CallClose bad
             :: flat_map (release_calls (@isInTransaction keep_session_executor sample_executor))
                         (@range_of canonical_range _ (ksConns sample_executor)).
Proof.
  assert (@ExecutorFrame keep_session_executor) as Hframe.
  { split; simpl; intros; try reflexivity. f_equal. f_equal. f_equal. assumption. }
  pose proof (@handleKeepSessionPing_releases flaky_pings keep_session_executor
                canonical_range sample_executor Hframe) as Hping.
  destruct Hping as (_ & _ & Hbad). apply Hbad. vm_compute. discriminate.
Defined.

(** ** Handshake: what an accepted client has passed *)

Section HandshakeAccepts.
Context `{A : MysqlAuth, K : MysqlConst, E : ExecutorOps, N : NamespaceOps, W : Socket}.

Lemma write_ok (p : Packet) (cl cl' : ClientConn) :
  write p cl = (cl', None) →
  written cl' = written cl ++ [p] ∧ remoteAddr cl' = remoteAddr cl
  ∧ capability cl' = capability cl ∧ closeCalls cl' = closeCalls cl.
Proof. unfold write. destruct (writeFails (written cl) p); [done|]. by intros [= <-]. Qed.

Lemma handleHandshakeResponse_ok (m : Manager) (info : HandshakeResponseInfo)
    (cc cc1 : Session) :
  handleHandshakeResponse m info cc = (cc1, None) →
  Manager_CheckUser m (User info) = true
  ∧ (check_password m info).1 = true
  ∧ namespace cc1 = Manager_GetNamespaceByUser m (User info) (check_password m info).2
  ∧ c cc1 = c cc ∧ closed cc1 = closed cc.
Proof.
  unfold handleHandshakeResponse.
  destruct (Manager_CheckUser m (User info)); [|done]. simpl.
  destruct (check_password m info) as [succ password]. destruct succ; [|done]. simpl.
  destruct (Collations (CollationID info)) as [collationName|]; [|done].
  destruct (CollationNameToCharset collationName) as [charset|]; [|done].
  by intros [= <-].
Qed.

(** X22. [Handshake] accepts a client only after every check has passed.
    When it returns a nil error: the response was read without error, the user
    is known, the password check selected for the response accepted a
    password, the session belongs to the namespace of that user and password,
    that namespace is served and allows the address of the client, the number
    of client connections of the namespace is not recorded or is below
    [maxClientConnections], and what was written to the client is the initial
    handshake packet followed by one OK packet. *)
Theorem Handshake_accepts_only (m : Manager) (info : HandshakeResponseInfo)
    (rerr : option Error) (cc cc' : Session) :
  Handshake m (info, rerr) cc = Returns (cc', None) →
  rerr = None
  ∧ Manager_CheckUser m (User info) = true
  ∧ (check_password m info).1 = true
  ∧ namespace cc' = Manager_GetNamespaceByUser m (User info) (check_password m info).2
  ∧ (∃ ns, Manager_GetNamespace m (namespace cc') = Some ns
       ∧ IsClientIPAllowed ns (remoteAddr (c cc)) = true
       ∧ match clientConnecions (statistics m) !! namespace cc' with
         | None => True
         | Some v => (v < maxClientConnections ns)%Z
         end)
  ∧ written (c cc')
    = written (c cc) ++ [PktInitialHandshakeV10; PktOK (status (executor cc'))]
  ∧ closed cc' = closed cc.
Proof.
  unfold Handshake.
  destruct (write PktInitialHandshakeV10 (c cc)) as [cl [err|]] eqn:Hw1; [done|].
  apply write_ok in Hw1 as (Hwr1 & Haddr1 & _).
  destruct rerr as [err|]; [done|].
  destruct (handleHandshakeResponse m info (set_c cl cc)) as [cc1 [err|]] eqn:Hresp; [done|].
  apply handleHandshakeResponse_ok in Hresp as (Huser & Hpw & Hns & Hc & Hclosed).
  unfold IsAllowConnect, clientConnectionReachLimit, getNamespace.
  destruct (Manager_GetNamespace m (namespace cc1)) as [ns|] eqn:Hserved; [|done].
  destruct (IsClientIPAllowed ns (remoteAddr (c cc1))) eqn:Hip; [|done].
  assert ((let '(cl', err) := write (PktOK (status (executor cc1))) (c cc1) in
           Returns (set_c cl' cc1, err)) = Returns (cc', None) →
          written (c cc') = written (c cc) ++ [PktInitialHandshakeV10; PktOK (status (executor cc'))]
          ∧ namespace cc' = namespace cc1 ∧ closed cc' = closed cc1) as Hfinish.
  { destruct (write (PktOK (status (executor cc1))) (c cc1)) as [cl2 err2] eqn:Hw2.
    intros [= <- ->]. apply write_ok in Hw2 as (Hwr2 & _). simpl.
    rewrite Hwr2, Hc. simpl. rewrite Hwr1, <- app_assoc. done. }
  rewrite Hc in Hip. simpl in Hip. rewrite Haddr1 in Hip.
  destruct (clientConnecions (statistics m) !! namespace cc1) as [v|] eqn:Hcount.
  - destruct (Z.geb_spec v (maxClientConnections ns)) as [Hge|Hlt]; [done|].
    intros Hok. apply Hfinish in Hok as (Hwr & Hnm & Hcl).
    rewrite Hnm, Hserved, Hcount, Hcl.
    split; [done|]. split; [done|]. split; [done|]. split; [done|].
    split; [by exists ns|]. by split.
  - intros Hok. apply Hfinish in Hok as (Hwr & Hnm & Hcl).
    rewrite Hnm, Hserved, Hcount, Hcl.
    split; [done|]. split; [done|]. split; [done|]. split; [done|].
    split; [by exists ns|]. by split.
Qed.
End HandshakeAccepts.

Lemma Handshake_accepts_only_witness :
  Manager_CheckUser (ns1_manager 0) (User u_login) = true
  ∧ (@check_password toy_auth mysql_protocol (ns1_manager 0) u_login).1 = true.
Proof.
  pose proof (@Handshake_accepts_only toy_auth mysql_protocol plain_executor plain_namespaces
                reliable_socket (ns1_manager 0) u_login None fresh_session _ eq_refl)
    as (_ & Huser & Hpw & _).
  by split.
Defined.

(** ** The loop of Run *)

Section RunLoop.
Context `{E : ExecutorOps, R : GoRange, W : Socket, N : NamespaceOps, K : MysqlConst}.

Lemma Run_loop_closed (rounds : list Round) (cc : Session) :
  closed cc = true → Run_loop rounds cc = cc.
Proof. destruct rounds as [|r rest]; [done|]. simpl. unfold IsClosed. by intros ->. Qed.

Lemma Run_loop_app (before after : list Round) (cc : Session) :
  Run_loop (before ++ after) cc = Run_loop after (Run_loop before cc).
Proof.
  revert cc. induction before as [|r rest IH]; intros cc; [done|]. simpl.
  unfold IsClosed. destruct (closed cc) eqn:Hclosed; [|apply IH].
  by rewrite Run_loop_closed.
Qed.

(** What is left of an iteration once the packet is known to be a command. *)
Lemma dispatch_open (m : Manager) (data : bytes) (cc : Session) :
  closed (dispatch m data cc) = false →
  ∃ cmd data', data = cmd :: data' ∧ cmd ≠ ComQuit.
Proof.
  unfold dispatch.
  destruct (clearKsConns m (nsChangeIndexOld (executor cc)) cc) as [cc1|];
    [|by rewrite Close_closed].
  destruct data as [|cmd data']; [by rewrite Close_closed|].
  destruct (execCommand m cmd data' cc1) as [[rs cc2]|]; [|by rewrite Close_closed].
  destruct (writeResponse m rs cc2) as [cc3 [[err|]|]]; [| |by rewrite Close_closed].
  - intros Hopen. by rewrite closed_after_clear in Hopen.
  - destruct (bool_decide (cmd = ComQuit)) eqn:Hquit; [by rewrite Close_closed|].
    intros _. exists cmd, data'. split; [done|]. by apply bool_decide_eq_false in Hquit.
Qed.

Lemma iteration_open (r : Round) (cc : Session) :
  closed (iteration r cc) = false →
  ∃ cmd data, incoming r = ReadPacket (cmd :: data) ∧ cmd ≠ ComQuit.
Proof.
  unfold iteration.
  destruct (SessionExecutor_GetNamespace (at_start r) (executor cc)) as [ns|];
    [|by rewrite Close_closed].
  destruct (incoming r) as [|data].
  - intros Hopen. by rewrite closed_after_clear in Hopen.
  - unfold serve. intros (cmd & data' & -> & Hcmd)%dispatch_open. by exists cmd, data'.
Qed.

(** X23. The loop of [Run] leaves a session open only after a command other
    than COM_QUIT.  When the read fails, when the packet is empty (indexing it
    panics), or when the command is COM_QUIT, the session is closed after that
    iteration, whatever the command did and whether or not the answer could be
    written, and nothing that arrives later is served. *)
Theorem Run_loop_stops (before after : list Round) (r : Round) (cc : Session) :
  (∀ cmd data, incoming r = ReadPacket (cmd :: data) → cmd = ComQuit) →
  closed (Run_loop (before ++ [r]) cc) = true
  ∧ Run_loop (before ++ r :: after) cc = Run_loop (before ++ [r]) cc.
Proof.
  intros Hlast.
  assert (closed (Run_loop (before ++ [r]) cc) = true) as Hclosed.
  { rewrite Run_loop_app. simpl. unfold IsClosed.
    destruct (closed (Run_loop before cc)) eqn:Hbefore; [done|].
    destruct (closed (iteration r (Run_loop before cc))) eqn:Hopen; [done|].
    apply iteration_open in Hopen as (cmd & data & Hin & Hcmd).
    by apply Hlast in Hin. }
  split; [done|].
  change (r :: after) with ([r] ++ after). rewrite app_assoc, Run_loop_app.
  by apply Run_loop_closed.
Qed.

(** X24. The reload rule needs a reload.  In an iteration during which the
    registry does not change, for a session whose executor is in the namespace
    of the session and keeps it when the context is set, the change index that
    the iteration recorded at its start is the current one: [clearKsConns]
    clears nothing and the command is executed, never answered with
    [ErrTxNsChanged]. *)
Theorem reload_rule_needs_reload (m : Manager) (cmd : Byte.byte) (data : bytes)
    (cc : Session) (ns : Namespace) :
  SessionExecutor_GetNamespace m (executor cc) = Some ns →
  namespace cc = se_namespace (executor cc) →
  (∀ se, se_namespace (SetContextNamespace m se) = se_namespace se
         ∧ nsChangeIndexOld (SetContextNamespace m se) = nsChangeIndexOld se) →
  let cc1 := set_executor
               (SetContextNamespace m
                  (set_nsChangeIndexOld (namespaceChangeIndex ns) (executor cc))) cc in
  iteration {| at_start := m; incoming := ReadPacket (cmd :: data); at_read := m |} cc
  = dispatch m (cmd :: data) cc1
  ∧ clearKsConns m (nsChangeIndexOld (executor cc1)) cc1 = Returns cc1
  ∧ execCommand m cmd data cc1 = Returns (ExecuteCommand m cmd data cc1)
  ∧ shouldClearKsAndCloseSession m (nsChangeIndexOld (executor cc1)) cc1 = Returns false.
Proof.
  intros Hns Hsame Hctx cc1.
  assert (nsChangeIndexOld (executor cc1) = namespaceChangeIndex ns) as Hidx.
  { subst cc1. simpl. by rewrite (proj2 (Hctx _)). }
  assert (se_namespace (executor cc1) = se_namespace (executor cc)) as Hnm.
  { subst cc1. simpl. by rewrite (proj1 (Hctx _)). }
  assert (shouldClearKsAndCloseSession m (nsChangeIndexOld (executor cc1)) cc1 = Returns false)
    as Hshould.
  { unfold shouldClearKsAndCloseSession, SessionExecutor_GetNamespace. rewrite Hnm.
    unfold SessionExecutor_GetNamespace in Hns. rewrite Hns, Hidx.
    replace (namespaceChangeIndex ns >? namespaceChangeIndex ns)%Z with false
      by (symmetry; rewrite Z.gtb_ltb; apply Z.ltb_irrefl).
    by destruct (IsKeepSession (executor cc1) && isInTransaction (executor cc1)). }
  split; [|split; [|split; [|done]]].
  - unfold iteration. simpl. by rewrite Hns.
  - unfold clearKsConns, getNamespace.
    destruct (IsKeepSession (executor cc1)); [|done].
    replace (namespace cc1) with (se_namespace (executor cc)) by (subst cc1; by simpl).
    unfold SessionExecutor_GetNamespace in Hns. rewrite Hns, Hidx.
    replace (namespaceChangeIndex ns >? namespaceChangeIndex ns)%Z with false
      by (symmetry; rewrite Z.gtb_ltb; apply Z.ltb_irrefl).
    done.
  - unfold execCommand. by rewrite Hshould.
Qed.
End RunLoop.

Lemma Run_loop_stops_witness :
  closed (@Run_loop plain_executor canonical_range reliable_socket plain_namespaces
            mysql_protocol ([query_round] ++ [quit_round]) idle_session) = true
  ∧ @Run_loop plain_executor canonical_range reliable_socket plain_namespaces
      mysql_protocol ([query_round] ++ quit_round :: [query_round]) idle_session
    = @Run_loop plain_executor canonical_range reliable_socket plain_namespaces
        mysql_protocol ([query_round] ++ [quit_round]) idle_session.
Proof.
  apply (@Run_loop_stops plain_executor canonical_range reliable_socket plain_namespaces
           mysql_protocol [query_round] [query_round] quit_round idle_session).
  intros cmd data Hin. simpl in Hin. by injection Hin as <- _.
Defined.

Lemma reload_rule_needs_reload_witness :
  @execCommand keep_session_executor (ns1_manager 0) Byte.x03 [Byte.x31]
    (set_executor (set_nsChangeIndexOld 2 sample_executor) sample_session)
  = Returns (RespOK 3, set_executor (set_nsChangeIndexOld 2 sample_executor) sample_session).
Proof.
  pose proof (@reload_rule_needs_reload keep_session_executor canonical_range reliable_socket
                plain_namespaces mysql_protocol (ns1_manager 0) Byte.x03 [Byte.x31]
                sample_session ns1_v2 eq_refl eq_refl (λ se, conj eq_refl eq_refl))
    as (_ & _ & Hexec & _).
  exact Hexec.
Defined.

(** ** The journal of a multi-statement run *)

Section MultiJournal.
Context `{Q : QueryOps, K : MysqlConst, W : Socket, N : NamespaceOps, E : ExecutorOps}.

Lemma journal_shape_step (piece : string) (rest : list string) (r1 : option Result)
    (cc' : Session) (written_first : list MultiEvent) (evs : list MultiEvent)
    (out : Outcome (option Result * option Error)) :
  executions written_first = [] →
  (∀ resp e, Wrote resp (Returns (Some e)) ∉ written_first) →
  journal_shape rest cc' evs out →
  journal_shape (piece :: rest) cc' (Executed piece r1 None :: written_first ++ evs) out.
Proof.
  intros Hnone Hfine (Hprefix & Hlast & Hall & Hwrite).
  assert (executions (Executed piece r1 None :: written_first ++ evs)
          = (piece, None) :: executions evs) as Hex.
  { unfold executions in *. simpl. by rewrite flat_map_app, Hnone. }
  unfold journal_shape. rewrite Hex. split; [|split; [|split]].
  - simpl. by apply prefix_cons.
  - intros [|i] e Hi Hlen; simpl in Hi, Hlen.
    + by injection Hi as <-.
    + apply (Hlast i e Hi). lia.
  - intros res Hout. simpl. f_equal. by apply (Hall res).
  - intros resp e Hin. apply elem_of_cons in Hin as [Heq|Hin]; [done|].
    apply elem_of_app in Hin as [Hin|Hin]; [by apply Hfine in Hin|].
    by apply (Hwrite resp e).
Qed.

Lemma multi_loop_shape (m : Manager) (pieces : list string) :
  ∀ (n index : nat) (r : option Result) (cc cc' : Session) (evs : list MultiEvent)
    (out : Outcome (option Result * option Error)),
    multi_loop m n index pieces r cc = (cc', evs, out) →
    journal_shape pieces cc' evs out.
Proof.
  induction pieces as [|piece rest IH]; intros n index r cc cc' evs out Hrun.
  - simpl in Hrun. injection Hrun as <- <- <-. unfold journal_shape. simpl.
    split; [done|]. split; [intros i e Hi; by rewrite lookup_nil in Hi|].
    split; [done|]. intros resp e Hin. by apply elem_of_nil in Hin.
  - cbn [multi_loop] in Hrun.
    destruct (run_doQuery m piece cc) as [cc1 [r1 [e|]]].
    { injection Hrun as <- <- <-. unfold journal_shape. simpl.
      split; [apply prefix_cons, prefix_nil|].
      split; [intros i e' _ Hlen; lia|]. split; [done|].
      intros resp e' Hin. apply elem_of_cons in Hin as [Heq|Hin]; [done|].
      by apply elem_of_nil in Hin. }
    destruct (index <? n - 1)%nat.
    + destruct (writeResponse m _ cc1) as [cc2 [[err|]|]] eqn:Hwrite.
      * injection Hrun as <- <- <-. unfold journal_shape. simpl.
        split; [apply prefix_cons, prefix_nil|].
        split; [intros i e' _ Hlen; lia|]. split; [done|].
        intros resp e' Hin. apply elem_of_cons in Hin as [Heq|Hin]; [done|].
        apply elem_of_cons in Hin as [Heq|Hin]; [|by apply elem_of_nil in Hin].
        injection Heq as -> ->. split; [apply Close_closed|by eexists].
      * destruct (multi_loop m n (S index) rest r1 cc2) as [[cc3 evs'] out'] eqn:Hrec.
        injection Hrun as <- <- <-.
        apply (journal_shape_step piece rest r1 cc3 [Wrote _ (Returns None)] evs' out').
        -- done.
        -- intros resp e Hin. apply elem_of_cons in Hin as [Heq|Hin]; [done|].
           by apply elem_of_nil in Hin.
        -- by eapply IH.
      * injection Hrun as <- <- <-. unfold journal_shape. simpl.
        split; [apply prefix_cons, prefix_nil|].
        split; [intros i e' _ Hlen; lia|]. split; [done|].
        intros resp e' Hin. apply elem_of_cons in Hin as [Heq|Hin]; [done|].
        apply elem_of_cons in Hin as [Heq|Hin]; [done|by apply elem_of_nil in Hin].
    + destruct (multi_loop m n (S index) rest r1 cc1) as [[cc3 evs'] out'] eqn:Hrec.
      injection Hrun as <- <- <-.
      apply (journal_shape_step piece rest r1 cc3 [] evs' out').
      * done.
      * intros resp e Hin. by apply elem_of_nil in Hin.
      * by eapply IH.
Qed.

(** X25. The journal of [doMultiStmts], whatever the statements, the
    backends and the network do.  The statements executed are the first
    pieces of the query, in order (the whole query when it is one piece); only
    the last statement executed may have failed, so nothing is executed after
    a failure; a nil error is returned only when every piece was executed
    without error; and when the write of an intermediate result fails, the
    session is closed and that error is returned. *)
Theorem doMultiStmts_journal (m : Manager) (sql : string) (cc : Session)
    (pieces : list string) :
  SplitStatementToPieces sql = inr pieces →
  let run := doMultiStmts m sql cc in
  journal_shape (if (length pieces =? 1)%nat then [sql] else pieces) run.1.1 run.1.2 run.2.
Proof.
  intros Hsplit. unfold doMultiStmts. rewrite Hsplit.
  destruct (length pieces =? 1)%nat.
  - destruct (run_doQuery m sql cc) as [cc1 [r err]]. unfold journal_shape. simpl.
    split; [done|]. split; [intros i e _ Hlen; lia|].
    split; [by intros res [= _ ->]|].
    intros resp e Hin. apply elem_of_cons in Hin as [Heq|Hin]; [done|].
    by apply elem_of_nil in Hin.
  - simpl. destruct (multi_loop m (length pieces) 0 pieces None cc) as [[cc' evs] out] eqn:Hrun.
    by apply multi_loop_shape in Hrun.
Qed.
End MultiJournal.

Lemma doMultiStmts_journal_witness :
  let run := @doMultiStmts sample_queries mysql_protocol reliable_socket plain_namespaces
               plain_executor (ns1_manager 0) "select 1;select 2" sample_session in
  journal_shape ["select 1"; "select 2"] run.1.1 run.1.2 run.2.
Proof.
  apply (@doMultiStmts_journal sample_queries mysql_protocol reliable_socket plain_namespaces
           plain_executor (ns1_manager 0) "select 1;select 2" sample_session
           ["select 1"; "select 2"] eq_refl).
Defined.

(** ** The bucket pool *)

Lemma int64_wrap_id (z : Z) : (- 2 ^ 63 ≤ z < 2 ^ 63)%Z → int64_wrap z = z.
Proof. intros Hz. unfold int64_wrap. rewrite Z.mod_small; lia. Qed.

Lemma doubled_sizes_S (minSize : Z) (k : nat) :
  doubled_sizes minSize (S k) = minSize :: doubled_sizes (minSize * 2) k.
Proof.
  unfold doubled_sizes. simpl. rewrite Z.mul_1_r. f_equal.
  rewrite <- seq_shift, map_map. apply map_ext. intros i.
  rewrite Nat2Z.inj_succ, Z.pow_succ_r by lia. lia.
Qed.

Lemma doubled_sizes_lookup (minSize : Z) (k i : nat) :
  (i < k)%nat → doubled_sizes minSize k !! i = Some (minSize * 2 ^ Z.of_nat i)%Z.
Proof.
  intros Hi. unfold doubled_sizes. rewrite list_lookup_fmap.
  rewrite lookup_seq_lt by done. done.
Qed.

Lemma doubled_sizes_elem (minSize : Z) (k : nat) (b : Z) :
  b ∈ doubled_sizes minSize k → ∃ i, (i < k)%nat ∧ b = (minSize * 2 ^ Z.of_nat i)%Z.
Proof.
  unfold doubled_sizes. intros (i & -> & Hin)%list_elem_of_fmap.
  apply elem_of_seq in Hin. exists i. split; [lia|done].
Qed.

(** What the loop of [New] has appended when it ends. *)
Lemma New_loop_spec (maxSize : Z) (fuel : nat) :
  (maxSize ≤ 2 ^ 62)%Z →
  ∀ (curSize : Z) (acc res : list Z),
    (0 < curSize)%Z →
    New_loop fuel curSize maxSize acc = Some res →
    ∃ k, res = acc ++ doubled_sizes curSize k
      ∧ (maxSize ≤ curSize * 2 ^ Z.of_nat k)%Z
      ∧ ∀ i, (i < k)%nat → (curSize * 2 ^ Z.of_nat i < maxSize)%Z.
Proof.
  intros Hmax. induction fuel as [|fuel IH]; intros curSize acc res Hpos Hrun; [done|].
  simpl in Hrun. destruct (Z.ltb_spec curSize maxSize) as [Hlt|Hge].
  - rewrite int64_wrap_id in Hrun by lia.
    apply IH in Hrun as (k & -> & Hreach & Hbelow); [|lia].
    exists (S k). split; [|split].
    + by rewrite doubled_sizes_S, <- app_assoc.
    + rewrite Nat2Z.inj_succ, Z.pow_succ_r by lia. lia.
    + intros [|i] Hi.
      * simpl. lia.
      * rewrite Nat2Z.inj_succ, Z.pow_succ_r by lia.
        specialize (Hbelow i ltac:(lia)). lia.
  - injection Hrun as <-. exists 0%nat. split; [|split].
    + by rewrite app_nil_r.
    + simpl. lia.
    + intros i Hi. lia.
Qed.

(** The loop of [New] ends: every iteration brings [curSize] closer to
    [maxSize]. *)
Lemma New_loop_ends (maxSize : Z) (fuel : nat) :
  (maxSize ≤ 2 ^ 62)%Z →
  ∀ (curSize : Z) (acc : list Z),
    (0 < curSize)%Z → (maxSize - curSize ≤ Z.of_nat fuel)%Z →
    is_Some (New_loop (S fuel) curSize maxSize acc).
Proof.
  intros Hmax. induction fuel as [|fuel IH]; intros curSize acc Hpos Hfuel.
  - simpl. destruct (Z.ltb_spec curSize maxSize) as [Hlt|Hge]; [lia|done].
  - change (is_Some (if (curSize <? maxSize)%Z
                     then New_loop (S fuel) (int64_wrap (curSize * 2)) maxSize (acc ++ [curSize])
                     else Some acc)).
    destruct (Z.ltb_spec curSize maxSize) as [Hlt|Hge]; [|done].
    rewrite int64_wrap_id by lia. apply IH; lia.
Qed.

(** X26. [New] builds the buckets it documents.  For [0 < minSize <=
    maxSize <= 2^62] the loop ends (within [maxSize - minSize + 1]
    iterations) and the pools are [minSize], [2 * minSize], [4 * minSize] and
    so on, as long as they are below [maxSize], followed by one pool of
    [maxSize]. *)
Theorem New_buckets (minSize maxSize : Z) (fuel : nat) :
  (0 < minSize ≤ maxSize)%Z → (maxSize ≤ 2 ^ 62)%Z →
  (maxSize - minSize < Z.of_nat fuel)%Z →
  ∃ k, New fuel minSize maxSize
       = Some (Returns {| minSize := minSize; maxSize := maxSize;
                          pools := doubled_sizes minSize k ++ [maxSize] |})
    ∧ (maxSize ≤ minSize * 2 ^ Z.of_nat k)%Z
    ∧ ∀ i, (i < k)%nat → (minSize * 2 ^ Z.of_nat i < maxSize)%Z.
Proof.
  intros Hmin Hmax Hfuel. unfold New.
  destruct (Z.ltb_spec maxSize minSize) as [Hlt|_]; [lia|].
  destruct fuel as [|fuel]; [lia|].
  destruct (New_loop_ends maxSize fuel Hmax minSize [] ltac:(lia) ltac:(lia)) as [res Hres].
  rewrite Hres.
  apply New_loop_spec in Hres as (k & -> & Hreach & Hbelow); [|done|lia].
  by exists k.
Qed.

(** X27. [New(0, maxSize)] with [maxSize > 0] does not return: doubling a
    current size of zero never reaches [maxSize], so the loop appends pools of
    size zero for ever. *)
Theorem New_zero_never_returns (maxSize : Z) (fuel : nat) :
  (0 < maxSize)%Z → New fuel 0 maxSize = None.
Proof.
  intros Hmax. unfold New.
  destruct (Z.ltb_spec maxSize 0) as [Hlt|_]; [lia|].
  assert (∀ acc, New_loop fuel 0 maxSize acc = None) as ->; [|done].
  induction fuel as [|fuel IH]; intros acc; [done|]. simpl.
  destruct (Z.ltb_spec 0 maxSize) as [_|Hge]; [|lia].
  change (int64_wrap 0) with 0%Z. apply IH.
Qed.

Lemma New_buckets_witness :
  ∃ k, New 4000 1024 4096
       = Some (Returns {| minSize := 1024; maxSize := 4096;
                          pools := doubled_sizes 1024 k ++ [4096%Z] |})
    ∧ (4096 ≤ 1024 * 2 ^ Z.of_nat k)%Z
    ∧ ∀ i, (i < k)%nat → (1024 * 2 ^ Z.of_nat i < 4096)%Z.
Proof. apply (New_buckets 1024 4096 4000); simpl; lia. Defined.

Lemma New_zero_never_returns_witness : New 1000 0 4096 = None.
Proof. apply (New_zero_never_returns 4096 1000). lia. Defined.

(** A positive number whose bits are disjoint from those of its predecessor
    is a power of two, and conversely. *)
Lemma land_pred_pow2 (d : Z) :
  (0 < d)%Z → Z.land d (d - 1) = 0%Z → d = (2 ^ Z.log2 d)%Z.
Proof.
  intros Hd Hland. destruct (Z.log2_spec d Hd) as [Hlow Hhigh].
  destruct (decide (d = 2 ^ Z.log2 d)%Z) as [|Hne]; [done|]. exfalso.
  assert (0 < 2 ^ Z.log2 d)%Z as Hpos by (apply Z.pow_pos_nonneg; [lia|apply Z.log2_nonneg]).
  assert (Z.log2 (d - 1) = Z.log2 d) as Hlog.
  { apply Z.log2_unique; [apply Z.log2_nonneg|]. lia. }
  apply (f_equal (λ z, Z.testbit z (Z.log2 d))) in Hland.
  rewrite Z.land_spec, Z.bits_0, Z.bit_log2 in Hland by done.
  rewrite <- Hlog, Z.bit_log2 in Hland by lia. done.
Qed.

Lemma pow2_land_pred (n : Z) : (0 ≤ n)%Z → Z.land (2 ^ n) (2 ^ n - 1) = 0%Z.
Proof.
  intros Hn. replace (2 ^ n - 1)%Z with (Z.ones n) by (rewrite Z.ones_equiv; lia).
  rewrite Z.land_ones by done.
  apply Z.mod_same. apply Z.pow_nonzero; lia.
Qed.

(** The index that [findPool] computes: the least power of two times
    [minSize] that holds [size]. *)
Lemma findPool_index (minSize size : Z) :
  (0 < minSize)%Z → (0 ≤ size)%Z →
  let div := (size / minSize)%Z in
  let rem := (size `mod` minSize)%Z in
  let idx := if (rem =? 0)%Z && negb (div =? 0)%Z && (Z.land div (div - 1) =? 0)%Z
             then (bits_Len64 div - 1)%Z else bits_Len64 div in
  (0 ≤ idx)%Z
  ∧ (size ≤ minSize * 2 ^ idx)%Z
  ∧ (∀ j, (0 ≤ j < idx)%Z → (minSize * 2 ^ j < size)%Z).
Proof.
  intros Hmin Hsize div rem idx.
  pose proof (Z.div_mod size minSize ltac:(lia)) as Hdm.
  pose proof (Z.mod_pos_bound size minSize Hmin) as Hrem.
  fold div rem in Hdm, Hrem.
  assert (0 ≤ div)%Z as Hdiv by (apply Z.div_pos; lia).
  assert (∀ j k, (0 ≤ j ≤ k)%Z → (minSize * 2 ^ j ≤ minSize * 2 ^ k)%Z) as Hmono.
  { intros j k Hjk. apply Z.mul_le_mono_nonneg_l; [lia|]. apply Z.pow_le_mono_r; lia. }
  unfold bits_Len64 in idx.
  destruct (Z.eqb_spec div 0) as [Hzero|Hpos].
  - subst idx. rewrite andb_false_r. simpl. split; [lia|]. split; [|lia].
    rewrite Z.mul_1_r. nia.
  - destruct (Z.log2_spec div ltac:(lia)) as [Hlow Hhigh].
    pose proof (Z.log2_nonneg div) as Hlog.
    rewrite Z.pow_succ_r in Hhigh by done.
    destruct (Z.eqb_spec rem 0) as [Hrem0|Hremn]; simpl in idx.
    + destruct (Z.eqb_spec (Z.land div (div - 1)) 0) as [Hpow|Hnpow]; subst idx.
      * apply land_pred_pow2 in Hpow; [|lia].
        replace (Z.log2 div + 1 - 1)%Z with (Z.log2 div) by lia.
        split; [done|]. split; [nia|].
        intros j Hj.
        assert (minSize * 2 ^ j ≤ minSize * 2 ^ (Z.log2 div - 1))%Z by (apply Hmono; lia).
        assert (2 ^ Z.log2 div = 2 * 2 ^ (Z.log2 div - 1))%Z as Hhalf.
        { rewrite <- Z.pow_succ_r by lia. f_equal. lia. }
        assert (0 < 2 ^ (Z.log2 div - 1))%Z by (apply Z.pow_pos_nonneg; lia).
        nia.
      * split; [lia|]. split.
        -- rewrite Z.pow_add_r, Z.pow_1_r by lia. nia.
        -- intros j Hj.
           assert (minSize * 2 ^ j ≤ minSize * 2 ^ Z.log2 div)%Z by (apply Hmono; lia).
           assert (div ≠ 2 ^ Z.log2 div)%Z as Hne.
           { intros Heq. apply Hnpow. rewrite Heq at 1 2.
             apply pow2_land_pred. done. }
           nia.
    + subst idx. split; [lia|]. split.
      * rewrite Z.pow_add_r, Z.pow_1_r by lia. nia.
      * intros j Hj.
        assert (minSize * 2 ^ j ≤ minSize * 2 ^ Z.log2 div)%Z by (apply Hmono; lia).
        nia.
Qed.

Lemma doubled_sizes_length (minSize : Z) (k : nat) : length (doubled_sizes minSize k) = k.
Proof. unfold doubled_sizes. by rewrite length_map, length_seq. Qed.

(** The pool that [findPool] finds among the pools of [New]. *)
Lemma findPool_spec (minSize maxSize : Z) (k : nat) (size : Z) :
  (0 < minSize ≤ maxSize)%Z → (maxSize ≤ 2 ^ 62)%Z →
  (maxSize ≤ minSize * 2 ^ Z.of_nat k)%Z →
  (∀ i, (i < k)%nat → (minSize * 2 ^ Z.of_nat i < maxSize)%Z) →
  (0 ≤ size ≤ maxSize)%Z →
  let p := {| minSize := minSize; maxSize := maxSize;
              pools := doubled_sizes minSize k ++ [maxSize] |} in
  ∃ bucket, findPool p size = Returns (Some bucket)
    ∧ bucket ∈ pools p
    ∧ (size ≤ bucket)%Z
    ∧ ∀ b, b ∈ pools p → (size ≤ b)%Z → (bucket ≤ b)%Z.
Proof.
  intros [Hmin Hle] Hmax Hreach Hbelow Hsize p. unfold findPool. simpl.
  replace (size >? maxSize)%Z with false by (symmetry; rewrite Z.gtb_ltb; apply Z.ltb_ge; lia).
  unfold uint64_of, bits_Div64_0.
  rewrite (Z.mod_small size (2 ^ 64)), (Z.mod_small minSize (2 ^ 64)) by lia.
  replace (minSize =? 0)%Z with false by (symmetry; apply Z.eqb_neq; lia).
  destruct (findPool_index minSize size Hmin ltac:(lia)) as (Hnn & Hfit & Hleast).
  set (idx := if ((size `mod` minSize =? 0)%Z && negb (size / minSize =? 0)%Z
                  && (Z.land (size / minSize) (size / minSize - 1) =? 0)%Z)
              then (bits_Len64 (size / minSize) - 1)%Z
              else bits_Len64 (size / minSize)) in *.
  replace (idx <? 0)%Z with false by (symmetry; apply Z.ltb_ge; lia).
  assert (∀ j l, (0 ≤ j ≤ l)%Z → (minSize * 2 ^ j ≤ minSize * 2 ^ l)%Z) as Hmono.
  { intros j l Hjl. apply Z.mul_le_mono_nonneg_l; [lia|]. apply Z.pow_le_mono_r; lia. }
  assert (idx ≤ Z.of_nat k)%Z as Hidx.
  { destruct (decide (idx ≤ Z.of_nat k)%Z) as [|Hgt]; [done|]. exfalso.
    specialize (Hleast (idx - 1)%Z ltac:(lia)).
    specialize (Hmono (Z.of_nat k) (idx - 1)%Z ltac:(lia)). lia. }
  assert (∀ b, b ∈ doubled_sizes minSize k → (size ≤ b)%Z →
               (minSize * 2 ^ idx ≤ b)%Z) as Hsmall.
  { intros b (i & Hi & ->)%doubled_sizes_elem Hb.
    destruct (decide (Z.of_nat i < idx)%Z) as [Hlt|Hge].
    - specialize (Hleast (Z.of_nat i) ltac:(lia)). lia.
    - apply Hmono. lia. }
  destruct (decide (idx < Z.of_nat k)%Z) as [Hin|Hlast].
  - exists (minSize * 2 ^ idx)%Z.
    assert (doubled_sizes minSize k !! Z.to_nat idx = Some (minSize * 2 ^ idx)%Z) as Hlook.
    { rewrite doubled_sizes_lookup by lia. by rewrite Z2Nat.id. }
    rewrite lookup_app_l by (rewrite doubled_sizes_length; lia). rewrite Hlook.
    split; [done|]. split; [|split; [done|]].
    + apply elem_of_app. left. by eapply list_elem_of_lookup_2.
    + intros b Hb Hfits. apply elem_of_app in Hb as [Hb|Hb]; [by apply Hsmall|].
      apply elem_of_cons in Hb as [->|Hb]; [|by apply elem_of_nil in Hb].
      specialize (Hbelow (Z.to_nat idx) ltac:(lia)). rewrite Z2Nat.id in Hbelow by done. lia.
  - exists maxSize.
    assert (Z.to_nat idx = k) as -> by lia.
    rewrite lookup_app_r by (rewrite doubled_sizes_length; lia).
    rewrite doubled_sizes_length, Nat.sub_diag. simpl.
    split; [done|]. split; [|split; [lia|]].
    + apply elem_of_app. right. apply elem_of_cons. by left.
    + intros b Hb Hfits. apply elem_of_app in Hb as [Hb|Hb].
      * apply Hsmall in Hb; [|done]. replace idx with (Z.of_nat k) in Hb by lia. lia.
      * apply elem_of_cons in Hb as [->|Hb]; [done|by apply elem_of_nil in Hb].
Qed.

(** The pools of a pool that [New] returned. *)
Lemma New_pools (fuel : nat) (minSize maxSize : Z) (p : Pool) :
  (0 < minSize)%Z → (maxSize ≤ 2 ^ 62)%Z →
  New fuel minSize maxSize = Some (Returns p) →
  ∃ k, p = {| minSize := minSize; maxSize := maxSize;
              pools := doubled_sizes minSize k ++ [maxSize] |}
    ∧ (minSize ≤ maxSize)%Z
    ∧ (maxSize ≤ minSize * 2 ^ Z.of_nat k)%Z
    ∧ ∀ i, (i < k)%nat → (minSize * 2 ^ Z.of_nat i < maxSize)%Z.
Proof.
  intros Hmin Hmax. unfold New.
  destruct (Z.ltb_spec maxSize minSize) as [Hlt|Hle]; [done|].
  destruct (New_loop fuel minSize maxSize []) as [res|] eqn:Hres; [|done].
  intros [= <-]. apply New_loop_spec in Hres as (k & -> & Hreach & Hbelow); [|done|done].
  by exists k.
Qed.

(** X28. [findPool] finds the least bucket that holds the size.  On a pool
    built by [New] with [0 < minSize] and [maxSize <= 2^62], for a size
    between 0 and [maxSize], [findPool] does not panic (its index is in
    range) and returns a pool whose buffers hold [size], and no pool of
    smaller buffers does.  For a size above [maxSize] it returns nil. *)
Theorem findPool_least_bucket (fuel : nat) (minSize maxSize size : Z) (p : Pool) :
  (0 < minSize)%Z → (maxSize ≤ 2 ^ 62)%Z →
  New fuel minSize maxSize = Some (Returns p) →
  (0 ≤ size)%Z →
  if (size >? maxSize)%Z then findPool p size = Returns None
  else ∃ bucket, findPool p size = Returns (Some bucket)
         ∧ bucket ∈ pools p
         ∧ (size ≤ bucket)%Z
         ∧ ∀ b, b ∈ pools p → (size ≤ b)%Z → (bucket ≤ b)%Z.
Proof.
  intros Hmin Hmax Hnew Hsize.
  apply New_pools in Hnew as (k & -> & Hle & Hreach & Hbelow); [|done|done].
  destruct (Z.gtb_spec size maxSize) as [Hgt|Hfits].
  - unfold findPool. simpl.
    by replace (size >? maxSize)%Z with true by (symmetry; apply Z.gtb_lt; lia).
  - apply findPool_spec; try done; lia.
Qed.

(** X29. A buffer goes back where it came from.  For every pool [b] of a
    pool built by [New], [findPool] of the size [b], which is what [Put] looks
    up for a buffer of that capacity, is the pool [b] itself; and the buffers
    of [b] hold every size for which [Get] takes a buffer from it. *)
Theorem findPool_of_bucket (fuel : nat) (minSize maxSize b : Z) (p : Pool) :
  (0 < minSize)%Z → (maxSize ≤ 2 ^ 62)%Z →
  New fuel minSize maxSize = Some (Returns p) →
  b ∈ pools p →
  findPool p b = Returns (Some b)
  ∧ ∀ size, (0 ≤ size)%Z → findPool p size = Returns (Some b) → (size ≤ b)%Z.
Proof.
  intros Hmin Hmax Hnew Hb.
  apply New_pools in Hnew as (k & -> & Hle & Hreach & Hbelow); [|done|done].
  assert (0 < b ≤ maxSize)%Z as Hrange.
  { simpl in Hb. apply elem_of_app in Hb as [Hb|Hb].
    - apply doubled_sizes_elem in Hb as (i & Hi & ->). specialize (Hbelow i Hi).
      assert (0 < 2 ^ Z.of_nat i)%Z by (apply Z.pow_pos_nonneg; lia). nia.
    - apply elem_of_cons in Hb as [->|Hb]; [lia|by apply elem_of_nil in Hb]. }
  assert (findPool {| minSize := minSize; maxSize := maxSize;
                      pools := doubled_sizes minSize k ++ [maxSize] |} b
          = Returns (Some b)) as Hself.
  { destruct (findPool_spec minSize maxSize k b (conj Hmin Hle) Hmax Hreach Hbelow ltac:(lia))
      as (bucket & Hfind & Hin & Hfit & Hleast).
    rewrite Hfind. do 2 f_equal. specialize (Hleast b Hb ltac:(lia)). lia. }
  split; [done|]. intros size Hsize Hfound.
  destruct (Z.gtb_spec size maxSize) as [Hgt|Hle'].
  - unfold findPool in Hfound. simpl in Hfound.
    by replace (size >? maxSize)%Z with true in Hfound by (symmetry; apply Z.gtb_lt; lia).
  - destruct (findPool_spec minSize maxSize k size (conj Hmin Hle) Hmax Hreach Hbelow ltac:(lia))
      as (bucket & Hfind & _ & Hfit & _).
    rewrite Hfind in Hfound. by injection Hfound as <-.
Qed.

Lemma findPool_least_bucket_witness :
  ∃ bucket, findPool {| minSize := 1024; maxSize := 4096; pools := [1024; 2048; 4096]%Z |} 1500
            = Returns (Some bucket)
    ∧ bucket ∈ [1024; 2048; 4096]%Z
    ∧ (1500 ≤ bucket)%Z
    ∧ ∀ b, b ∈ [1024; 2048; 4096]%Z → (1500 ≤ b)%Z → (bucket ≤ b)%Z.
Proof.
  apply (findPool_least_bucket 4000 1024 4096 1500 _ ltac:(lia) ltac:(lia) eq_refl ltac:(lia)).
Defined.

Lemma findPool_of_bucket_witness :
  findPool {| minSize := 1024; maxSize := 4096; pools := [1024; 2048; 4096]%Z |} 2048
  = Returns (Some 2048%Z).
Proof.
  apply (findPool_of_bucket 4000 1024 4096 2048 _ ltac:(lia) ltac:(lia) eq_refl).
  apply elem_of_cons. right. apply elem_of_cons. by left.
Defined.
